(** * rag_web: crawl, chunk, store and query pipeline

    A shallow embedding of [src/crawl/crawler.py], [src/utils/rag_utils.py]
    and the history preparation of [src/app.py], with the properties of the
    specification stated and proved over it.

    Layout: Part I holds the model (Python strings, the chunker, the
    enricher, the store writer, the extractor, the crawl loop, the query
    assembler, the statistics); Part II holds the properties the
    specification states; Part III holds further properties of the code. *)

From stdpp Require Import gmap list strings pretty sorting.

Local Open Scope Z_scope.
Local Open Scope nat_scope.

(* ===================================================================== *)
(** * Part I - the model *)
(* ===================================================================== *)

(** ** Python strings

    A Python [str] is a sequence of Unicode code points; [len], slicing,
    [rfind] and [replace] count code points, so the model is a list of code
    points. Literals are written as UTF-8 text and decoded by [py]. *)

Definition str := list N.

Fixpoint utf8_decode (pending : nat) (acc : N) (s : string) : str :=
  match s with
  | EmptyString => []
  | String a s' =>
    let b := Ascii.N_of_ascii a in
    match pending with
    | O =>
      if (b <? 128)%N then b :: utf8_decode 0 0%N s'
      else if (b <? 224)%N then utf8_decode 1 (b - 192)%N s'
      else if (b <? 240)%N then utf8_decode 2 (b - 224)%N s'
      else utf8_decode 3 (b - 240)%N s'
    | S O => (acc * 64 + (b - 128))%N :: utf8_decode 0 0%N s'
    | S k => utf8_decode k (acc * 64 + (b - 128))%N s'
    end
  end.

Definition py (s : string) : str := utf8_decode 0 0%N s.

(** [str(n)] for a non-negative integer. *)
Definition str_of_nat (n : nat) : str := py (pretty n).

Definition NL : str := [10%N].          (* Python "\n" *)
Definition DQ : str := [34%N].          (* a double quote *)

(** [str.isspace] on one code point: the characters [str.strip()] removes. *)
Definition isspace (c : N) : bool :=
  ((9 <=? c) && (c <=? 13) || (28 <=? c) && (c <=? 32) || (c =? 133) ||
   (c =? 160) || (c =? 5760) || (8192 <=? c) && (c <=? 8202) ||
   (c =? 8232) || (c =? 8233) || (c =? 8239) || (c =? 8287) ||
   (c =? 12288))%N.

Fixpoint lstrip (s : str) : str :=
  match s with
  | [] => []
  | c :: s' => if isspace c then lstrip s' else s
  end.

Definition rstrip (s : str) : str := reverse (lstrip (reverse s)).

Definition strip (s : str) : str := rstrip (lstrip s).

(** [s.startswith(p)] *)
Fixpoint startswith (p s : str) : bool :=
  match p, s with
  | [], _ => true
  | _ :: _, [] => false
  | a :: p', b :: s' => (a =? b)%N && startswith p' s'
  end.

Definition endswith (p s : str) : bool := startswith (reverse p) (reverse s).

(** [p in s] *)
Fixpoint str_in (p s : str) : bool :=
  match s with
  | [] => startswith p []
  | _ :: s' => startswith p s || str_in p s'
  end.

(** [s.find(p)]: lowest index of an occurrence, [-1] when there is none. *)
Fixpoint find_from (i : nat) (p s : str) : Z :=
  if startswith p s then Z.of_nat i
  else match s with
       | [] => (-1)%Z
       | _ :: s' => find_from (S i) p s'
       end.

Definition find (s p : str) : Z := find_from 0 p s.

(** [s.rfind(p)]: highest index of an occurrence, [-1] when there is none. *)
Fixpoint rfind_from (i : nat) (p s : str) : Z :=
  match s with
  | [] => if startswith p [] then Z.of_nat i else (-1)%Z
  | _ :: s' =>
    let r := rfind_from (S i) p s' in
    if (0 <=? r)%Z then r
    else if startswith p s then Z.of_nat i else (-1)%Z
  end.

Definition rfind (s p : str) : Z := rfind_from 0 p s.

(** [s[a:b]] and [s[a:]] for non-negative indices. *)
Definition slice (s : str) (a b : nat) : str := take (b - a) (drop a s).
Definition slice_from (s : str) (a : nat) : str := drop a s.

(** [s.replace(old, new)]: occurrences are found left to right and do not
    overlap; [skip] counts the characters of the occurrence just replaced
    that are still to be passed over. For an empty [old] Python puts [new]
    before every character and at the end. *)
Fixpoint replace_go (old new : str) (skip : nat) (s : str) : str :=
  match s with
  | [] => []
  | c :: s' =>
    match skip with
    | S k => replace_go old new k s'
    | O =>
      if startswith old s then new ++ replace_go old new (length old - 1) s'
      else c :: replace_go old new 0 s'
    end
  end.

Definition replace (s old new : str) : str :=
  match old with
  | [] => new ++ flat_map (fun c => c :: new) s
  | _ :: _ => replace_go old new 0 s
  end.

(** [sep.join(parts)] *)
Fixpoint join (sep : str) (parts : list str) : str :=
  match parts with
  | [] => []
  | [p] => p
  | p :: ps => p ++ sep ++ join sep ps
  end.

(** [s.splitlines()]: the line boundaries are LF, CR, CRLF, VT, FF, FS, GS,
    RS, NEL, LS and PS. *)
Definition is_linebreak (c : N) : bool :=
  ((10 <=? c) && (c <=? 13) || (28 <=? c) && (c <=? 30) || (c =? 133) ||
   (c =? 8232) || (c =? 8233))%N.

Fixpoint splitlines_go (after_cr : bool) (cur : str) (s : str) : list str :=
  match s with
  | [] => if bool_decide (cur = []) then [] else [cur]
  | c :: s' =>
    if after_cr && (c =? 10)%N then splitlines_go false cur s'
    else if is_linebreak c then cur :: splitlines_go (c =? 13)%N [] s'
    else splitlines_go false (cur ++ [c]) s'
  end.

Definition splitlines (s : str) : list str := splitlines_go false [] s.

(** Number of (possibly overlapping) positions at which [p] occurs in [s]. *)
Fixpoint occurrences (p s : str) : nat :=
  match s with
  | [] => 0
  | _ :: s' => (if startswith p s then 1 else 0) + occurrences p s'
  end.

(** ** Chunker: [chunk_text] (crawler.py, lines 41-69) *)

(** [pos > chunk_size * 0.3]. The product is a float; for every size below
    2^50 comparing it with the integer [pos] gives the same answer as the
    exact comparison [10 * pos > 3 * chunk_size]. *)
Definition past_30_percent (pos : Z) (chunk_size : nat) : bool :=
  (3 * Z.of_nat chunk_size <? 10 * pos)%Z.

(** The value of [end] after lines 48-62 of one loop iteration that did not
    take the final [break]. *)
Definition chunk_end (text : str) (chunk_size start : nat) : nat :=
  let end_ := start + chunk_size in
  let chunk := slice text start end_ in
  let paragraph_break := rfind chunk (NL ++ NL) in
  if past_30_percent paragraph_break chunk_size then
    start + Z.to_nat paragraph_break + 2
  else if str_in (py ". ") chunk then
    let last_period := rfind chunk (py ". ") in
    if past_30_percent last_period chunk_size then
      start + Z.to_nat last_period + 1
    else end_
  else end_.

(** The [while start < text_length] loop. [None] means the fuel ran out. *)
Fixpoint chunk_loop (fuel : nat) (text : str) (chunk_size start : nat)
    (chunks : list str) : option (list str) :=
  match fuel with
  | O => None
  | S fuel' =>
    if start <? length text then
      if length text <=? start + chunk_size then
        Some (chunks ++ [strip (slice_from text start)])
      else
        let end_ := chunk_end text chunk_size start in
        let chunk := strip (slice text start end_) in
        let chunks' := if bool_decide (chunk = []) then chunks
                       else chunks ++ [chunk] in
        chunk_loop fuel' text chunk_size end_ chunks'
    else Some chunks
  end.

(** [chunk_text(text, chunk_size)]. One unit of fuel per character of the
    text and one more is enough whenever the loop terminates at all
    (see [chunk_text_fuel_enough]). *)
Definition chunk_text_fuel (fuel : nat) (text : str) (chunk_size : nat)
  : option (list str) := chunk_loop fuel text chunk_size 0 [].

Definition chunk_text (text : str) (chunk_size : nat) : option (list str) :=
  chunk_text_fuel (S (length text)) text chunk_size.

Definition default_chunk_size : nat := 1500.


(** ** Calls that may raise

    [Raise e] carries [str(e)], the text of the exception. *)
Inductive Result (A : Type) : Type :=
  | Ok (a : A)
  | Raise (e : str).
Arguments Ok {A} a.
Arguments Raise {A} e.

#[global] Instance Result_ret : MRet Result := fun A a => Ok a.

#[global] Instance Result_bind : MBind Result := fun A B k r =>
  match r with
  | Ok a => k a
  | Raise e => Raise e
  end.

(** [asyncio.gather] awaited on a list of tasks: the results in order, or
    the exception of a task that raised. *)
Fixpoint gather {A} (tasks : list (Result A)) : Result (list A) :=
  match tasks with
  | [] => Ok []
  | task :: tasks' =>
    match task with
    | Ok a => match gather tasks' with
              | Ok l => Ok (a :: l)
              | Raise e => Raise e
              end
    | Raise e => Raise e
    end
  end.

(** ** Data model *)

(** Values of a metadata dictionary of the store. *)
Inductive Value : Type :=
  | VStr (s : str)
  | VInt (n : Z).

Definition value_to_str (v : Value) : str :=
  match v with
  | VStr s => s
  | VInt n => py (pretty n)
  end.

(** A value on its way to the store: what [json.loads] found under a key,
    or what the code put into a metadata dictionary. [JNull] is JSON's
    [null], Python's [None]. (The model follows strings, integers and
    [None]; a float, a boolean, an array or an object as title is not
    followed.) *)
Inductive Json : Type :=
  | JNull
  | JStr (s : str)
  | JInt (n : Z).

#[global] Instance Value_eq_dec : EqDecision Value.
Proof. solve_decision. Defined.

#[global] Instance Json_eq_dec : EqDecision Json.
Proof. solve_decision. Defined.

(** The result of [urlparse]: the two components the code reads. *)
Record ParsedUrl := {
  netloc : str;
  path : str
}.

(** ** External collaborators

    The generation and embedding back ends, the similarity order of the
    vector store, the HTTP session, the HTML parser, [urllib.parse], [json]
    and the clock are not code of this repository: they are the fields of
    two classes, and every definition below is parametric in them. *)
Class Models := {
  float : Type;
  float_zero : float;                          (* 0.0 *)
  llm_invoke : str -> Result str;              (* llm.invoke(prompt) *)
  aembed_query : str -> Result (list float);   (* embeddings.aembed_query(text) *)
  (* [nearer q a b]: embedding [a] is at least as near to [q] as [b] is *)
  nearer : list float -> list float -> list float -> bool
}.

Class Web := {
  (* session.get(url, timeout=30): the status and the body text *)
  session_get : str -> Result (Z * str);
  (* BeautifulSoup(html, "lxml") with the script, style, header, footer and
     nav elements decomposed, then get_text(separator="\n") *)
  soup_get_text : str -> str;
  (* the href of every tag of soup.find_all("a", href=True) *)
  soup_anchor_hrefs : str -> list str;
  (* urljoin(base, href) and urlparse(url): both raise ValueError on a URL
     that does not parse, such as one with an unclosed bracket *)
  urljoin : str -> str -> Result str;
  urlparse : str -> Result ParsedUrl;
  (* json.loads(s).get("title"): [Ok None] when the key is absent, [Raise]
     when the text is not JSON *)
  json_loads_title : str -> Result (option Json);
  (* datetime.now(timezone.utc).isoformat() while chunk [i] of [url] is
     processed *)
  utc_now_isoformat : str -> nat -> str;
  (* set.pop() takes an arbitrary element: the element popped in loop
     iteration [i], as an index into the queue (taken modulo its size) *)
  pop_choice : nat -> nat
}.

Record ProcessedChunk `{Models} := {
  url : str;
  chunk_number : nat;
  title : Json;
  summary : str;
  content : str;
  metadata : gmap str Json;
  embedding : list float
}.

(** One record of the vector store. *)
Record StoreRecord `{Models} := {
  rec_document : str;
  rec_embedding : list float;
  rec_metadata : gmap str Value
}.

(** Modelled from the spec: the vector store (ChromaDB) is an external
    collaborator and its engine is not in the repository. The spec describes
    it as persistent and string-keyed, with [add(ids, documents, embeddings,
    metadatas)], [get(include=[metadatas])] and [query(embedding, k,
    include)]. A collection is therefore a finite map from ids to records,
    [add] writes the records it is given at their ids, [get] returns every
    record and [query] the [k] nearest ones.

    Two things are the store's own and are left open, as the fields of a
    class. The first is what [add] does with an id that is already present:
    the spec says the prior record is overwritten, while an [add] that is
    an insert (and not the store's separate upsert) keeps the record it has.
    The second is failure: each of the three calls can raise (a lost
    connection, an argument the store refuses); [add_error], [query_error]
    and [get_error] give the exception, if any, of a call. *)
Abbreviation Collection := (gmap str StoreRecord).

Inductive AddPolicy : Type :=
  | KeepExisting
  | Overwrite.

Class Store `{Models} := {
  add_existing : AddPolicy;
  add_error : Collection -> list str -> list (list float) ->
              list (gmap str Json) -> list str -> option str;
  query_error : Collection -> list (list float) -> nat -> option str;
  get_error : Collection -> option str
}.

(** The store holds strings and numbers: a dictionary with [None] under
    some key is refused. *)
Definition stored_value (v : Json) : option Value :=
  match v with
  | JNull => None
  | JStr s => Some (VStr s)
  | JInt n => Some (VInt n)
  end.

Definition stored_metadata (m : gmap str Json) : option (gmap str Value) :=
  if bool_decide (map_Forall (fun _ v => v <> JNull) m)
  then Some (omap stored_value m)
  else None.

Definition write_record `{Store} (id : str) (record : StoreRecord)
    (c : Collection) : Collection :=
  match add_existing with
  | Overwrite => <[ id := record ]> c
  | KeepExisting =>
    match c !! id with
    | Some _ => c
    | None => <[ id := record ]> c
    end
  end.

Definition collection_add `{Store} (c : Collection)
    (documents : list str) (embeddings : list (list float))
    (metadatas : list (gmap str Json)) (ids : list str)
  : Result Collection :=
  match add_error c documents embeddings metadatas ids with
  | Some e => Raise e
  | None =>
    match mapM stored_metadata metadatas with
    | None => Raise (py "Expected metadata value to be a str, int, float or bool")
    | Some metas =>
      Ok (foldl (fun c r => write_record r.1 r.2 c) c
            (zip ids
               (zip_with (fun d em => {| rec_document := d;
                                         rec_embedding := em.1;
                                         rec_metadata := em.2 |})
                  documents (zip embeddings metas))))
    end
  end.

Fixpoint nearest_insert `{Models} (q : list float) (r : StoreRecord)
    (l : list StoreRecord) : list StoreRecord :=
  match l with
  | [] => [r]
  | r' :: l' =>
    if nearer q (rec_embedding r) (rec_embedding r') then r :: l
    else r' :: nearest_insert q r l'
  end.

Definition nearest_first `{Models} (q : list float) (l : list StoreRecord)
  : list StoreRecord := foldr (nearest_insert q) [] l.

(** The dictionary returned by [collection.query]: one inner list per query
    embedding. *)
Record QueryResult := {
  documents : list (list str);
  metadatas : list (list (gmap str Value))
}.

Definition collection_query `{Store} (c : Collection)
    (query_embeddings : list (list float)) (n_results : nat)
  : Result QueryResult :=
  match query_error c query_embeddings n_results with
  | Some e => Raise e
  | None =>
    let hits q := take n_results (nearest_first q (snd <$> map_to_list c)) in
    Ok {| documents := (fun q => rec_document <$> hits q) <$> query_embeddings;
          metadatas := (fun q => rec_metadata <$> hits q) <$> query_embeddings |}
  end.

(** [collection.get(include=["metadatas"])]: the ids and the metadata of
    every record. *)
Definition collection_get `{Store} (c : Collection)
  : Result (list str * list (gmap str Value)) :=
  match get_error c with
  | Some e => Raise e
  | None => Ok ((map_to_list c).*1, rec_metadata <$> (map_to_list c).*2)
  end.

(** ** Enricher (crawler.py, lines 72-150) *)

Definition title_system_prompt : str :=
  py "วิเคราะห์เนื้อหาต่อไปนี้และสร้างชื่อเรื่องที่กระชับ (ไม่เกิน 10-15 คำ) เป็นภาษาไทย
    ชื่อเรื่องควรจับใจความสำคัญของเนื้อหา
    ตอบกลับเป็น JSON เท่านั้น โดยมีคีย์ 'title'
    ตัวอย่าง: {" ++ DQ ++
  py "title" ++ DQ ++
  py ": " ++ DQ ++
  py "วิธีการดูแลผู้ป่วยโรคเบาหวาน" ++ DQ ++
  py "}
    ห้ามใส่คำอธิบายหรือข้อความอื่นใดนอกจาก JSON".

(** [get_title_and_content]: the title and the summary. The default title
    is built before the [try]: a URL that does not parse raises out of the
    function. The value under "title" is taken as it is, whatever its
    type. *)
Definition get_title_and_content `{Models} `{Web} (chunk url : str)
  : Result (Json * str) :=
  parsed ← urlparse url;
  let title := JStr (py "เนื้อหาจาก " ++ netloc parsed) in
  let prompt_for_title :=
    title_system_prompt ++ NL ++ NL ++ py "เนื้อหา:" ++ NL ++
    slice chunk 0 1500 ++ py "..." in
  let title' :=
    match llm_invoke prompt_for_title with
    | Raise _ => title
    | Ok response =>
      let json_str := strip response in
      let json_str :=
        if startswith (py "{") json_str then json_str
        else
          let start := find json_str (py "{") in
          if (0 <=? start)%Z then slice_from json_str (Z.to_nat start)
          else json_str in
      if startswith (py "{") json_str && endswith (py "}") json_str then
        match json_loads_title json_str with
        | Ok (Some t) => t
        | Ok None => title
        | Raise _ => title
        end
      else title
    end in
  Ok (title', chunk).

Definition default_dim : nat := 1024.

Definition get_embedding `{Models} (text : str) : list float :=
  match aembed_query text with
  | Ok result => result
  | Raise _ => replicate default_dim float_zero
  end.

(** [process_chunk]: nothing here is caught, so it raises when
    [get_title_and_content] or [urlparse] does. *)
Definition process_chunk `{Models} `{Web} (chunk : str) (chunk_number : nat)
    (url : str) : Result ProcessedChunk :=
  extracted_data ← get_title_and_content chunk url;
  let embedding := get_embedding chunk in
  source ← urlparse url;
  url_path ← urlparse url;
  let metadata : gmap str Json :=
    <[ py "source" := JStr (netloc source) ]>
    (<[ py "chunk_size" := JInt (Z.of_nat (length chunk)) ]>
    (<[ py "crawled_at" := JStr (utc_now_isoformat url chunk_number) ]>
    (<[ py "url_path" := JStr (path url_path) ]> ∅))) in
  Ok {| url := url;
        chunk_number := chunk_number;
        title := extracted_data.1;
        summary := extracted_data.2;
        content := chunk;
        metadata := metadata;
        embedding := embedding |}.

(** ** Store writer: [insert_chunk] (crawler.py, lines 153-177) *)

(** The composite id [f"{chunk.url}_{chunk.chunk_number}"]. *)
Definition chunk_id `{Models} (chunk : ProcessedChunk) : str :=
  url chunk ++ py "_" ++ str_of_nat (chunk_number chunk).

(** The metadata dictionary handed to the store: the four named keys, then
    [**chunk.metadata], whose keys win where they coincide. *)
Definition chunk_record_metadata `{Models} (chunk : ProcessedChunk)
  : gmap str Json :=
  metadata chunk ∪
  (<[ py "url" := JStr (url chunk) ]>
  (<[ py "chunk_number" := JInt (Z.of_nat (chunk_number chunk)) ]>
  (<[ py "title" := title chunk ]>
  (<[ py "summary" := JStr (summary chunk) ]> ∅)))).

(** One call of [collection.add], with one record; a failing write is
    logged and the chunk dropped. *)
Definition insert_chunk `{Store} (collection : Collection)
    (chunk : ProcessedChunk) : Collection :=
  match collection_add collection [content chunk] [embedding chunk]
          [chunk_record_metadata chunk] [chunk_id chunk] with
  | Ok collection' => collection'
  | Raise _ => collection
  end.

(** [process_and_store_document]: the collection afterwards and the number
    of chunks; [None] when the chunker runs out of fuel. Every chunk is
    processed before the first one is written, so when processing raises
    nothing has been written. *)
Definition process_and_store_document `{Store} `{Web}
    (collection : Collection) (url content : str)
  : option (Result (Collection * nat)) :=
  chunks ← chunk_text content default_chunk_size;
  Some (processed_chunks ←
          gather (imap (fun i chunk => process_chunk chunk i url) chunks);
        Ok (foldl insert_chunk collection processed_chunks,
            length processed_chunks)).

(** ** Fetcher and extractor (crawler.py, lines 189-235) *)

Definition fetch_url `{Web} (url : str) : option str :=
  match session_get url with
  | Ok (status, html) => if (status =? 200)%Z then Some html else None
  | Raise _ => None
  end.

Definition extract_text_from_html `{Web} (html : str) : str :=
  let text := soup_get_text html in
  let lines :=
    strip <$> filter (fun line => strip line ≠ []) (splitlines text) in
  join (NL ++ NL) lines.

(** The [for] loop of lines 226-232 over the anchors' hrefs: the links
    kept, in order. Each href is resolved and parsed, then the base URL is
    parsed; the first call that raises ends the loop and the function. *)
Fixpoint same_domain_links `{Web} (base_url : str) (hrefs : list str)
  : Result (list str) :=
  match hrefs with
  | [] => Ok []
  | href :: hrefs' =>
    full_url ← urljoin base_url href;
    parsed ← urlparse full_url;
    base ← urlparse base_url;
    links ← same_domain_links base_url hrefs';
    Ok (if bool_decide (netloc parsed = netloc base)
        then full_url :: links else links)
  end.

(** [list(set(links))]: the order of the result is unspecified in Python;
    the model keeps one copy of each link. *)
Definition extract_links_from_html `{Web} (html base_url : str)
  : Result (list str) :=
  links ← same_domain_links base_url (soup_anchor_hrefs html);
  Ok (remove_dups links).

(** ** Crawl orchestrator: [crawl_website] (crawler.py, lines 238-275) *)

(** Python sets of URLs are kept as duplicate-free lists in order of
    insertion; the code only tests membership, adds, pops and takes the
    size. *)
Definition set_add (x : str) (s : list str) : list str :=
  if bool_decide (x ∈ s) then s else s ++ [x].

Definition set_pop (choice : nat) (s : list str) : option (str * list str) :=
  let i := choice `mod` length s in
  x ← s !! i; Some (x, delete i s).

Record CrawlState `{Models} := {
  visited_urls : list str;
  queued_urls : list str;
  processed_count : nat;
  crawl_collection : Collection
}.

(** How a stretch of the crawl ends: it completes, or an exception that
    nothing catches ends it. The state reached is kept in both cases: the
    collection is the caller's object and keeps what was written. *)
Inductive Outcome (A : Type) : Type :=
  | Completed (a : A)
  | Uncaught (e : str) (a : A).
Arguments Completed {A} a.
Arguments Uncaught {A} e a.

Definition outcome_state {A} (out : Outcome A) : A :=
  match out with
  | Completed a => a
  | Uncaught _ a => a
  end.

(** The links of one page that enter the queue (lines 266-269). *)
Definition enqueue_links (visited queued new_links : list str) : list str :=
  foldl (fun queued link =>
           if bool_decide (link ∈ visited) then queued else set_add link queued)
        queued new_links.

(** One iteration of the [while] loop, entered with its condition true.
    [asyncio.sleep(1)] has no effect on the state. Neither
    [process_and_store_document] nor [extract_links_from_html] is called
    inside a [try]: an exception of either ends the crawl. *)
Definition crawl_iteration `{Store} `{Web} (iteration : nat) (st : CrawlState)
  : option (Outcome CrawlState) :=
  '(current_url, queued) ← set_pop (pop_choice iteration) (queued_urls st);
  if bool_decide (current_url ∈ visited_urls st) then
    Some (Completed {| visited_urls := visited_urls st; queued_urls := queued;
                       processed_count := processed_count st;
                       crawl_collection := crawl_collection st |})
  else
    let visited := visited_urls st ++ [current_url] in
    match fetch_url current_url with
    | Some (c :: html') =>
      let html := c :: html' in
      let text_content := extract_text_from_html html in
      stored ←
        (if 500 <? length text_content then
           r ← process_and_store_document (crawl_collection st) current_url
                 text_content;
           Some (r' ← r; Ok (r'.1, processed_count st + 1))
         else Some (Ok (crawl_collection st, processed_count st)));
      match stored with
      | Raise e =>
        Some (Uncaught e {| visited_urls := visited; queued_urls := queued;
                            processed_count := processed_count st;
                            crawl_collection := crawl_collection st |})
      | Ok stored =>
        match extract_links_from_html html current_url with
        | Raise e =>
          Some (Uncaught e {| visited_urls := visited; queued_urls := queued;
                              processed_count := stored.2;
                              crawl_collection := stored.1 |})
        | Ok new_links =>
          Some (Completed
                  {| visited_urls := visited;
                     queued_urls := enqueue_links visited queued new_links;
                     processed_count := stored.2;
                     crawl_collection := stored.1 |})
        end
      end
    | _ =>
      Some (Completed {| visited_urls := visited; queued_urls := queued;
                         processed_count := processed_count st;
                         crawl_collection := crawl_collection st |})
    end.

(** [while queued_urls and len(visited_urls) < max_pages]. *)
Definition crawl_continues `{Models} (max_pages : nat) (st : CrawlState) : bool :=
  bool_decide (queued_urls st ≠ []) &&
  (length (visited_urls st) <? max_pages).

Fixpoint crawl_loop `{Store} `{Web} (fuel max_pages iteration : nat)
    (st : CrawlState) : option (Outcome CrawlState) :=
  match fuel with
  | O => None
  | S fuel' =>
    if crawl_continues max_pages st then
      match crawl_iteration iteration st with
      | Some (Completed st') => crawl_loop fuel' max_pages (S iteration) st'
      | Some (Uncaught e st') => Some (Uncaught e st')
      | None => None
      end
    else Some (Completed st)
  end.

Definition crawl_start `{Models} (collection : Collection) (start_url : str)
  : CrawlState :=
  {| visited_urls := []; queued_urls := [start_url];
     processed_count := 0; crawl_collection := collection |}.

(** How the loop of [crawl_website] ends, and in which state. Every
    iteration visits a new URL, so [max_pages] iterations and the final test
    of the condition are all the loop can need. *)
Definition crawl_final `{Store} `{Web} (collection : Collection)
    (start_url : str) (max_pages : nat) : option (Outcome CrawlState) :=
  crawl_loop (S max_pages) max_pages 0 (crawl_start collection start_url).

(** [crawl_website]: the value returned or the exception raised, and the
    collection as the crawl leaves it. *)
Definition crawl_website `{Store} `{Web} (collection : Collection)
    (start_url : str) (max_pages : nat) : option (Result nat * Collection) :=
  out ← crawl_final collection start_url max_pages;
  Some (match out with
        | Completed st => Ok (processed_count st)
        | Uncaught e _ => Raise e
        end,
        crawl_collection (outcome_state out)).

(** ** Query assembler: [query_rag_system] (rag_utils.py, lines 64-164) *)

(** The calls the query path makes to its collaborators, in order. *)
Inductive Event : Type :=
  | EmbedQuery (text : str)
  | StoreQuery (n_results : nat)
  | Generate (prompt : str).

(** A computation that logs its calls and may raise; [call] is a call to a
    collaborator: logged, then its outcome. *)
Definition M (A : Type) : Type := list Event -> Result A * list Event.

Definition call {A} (ev : Event) (r : Result A) : M A :=
  fun log => (r, log ++ [ev]).

Definition raise {A} (e : str) : M A := fun log => (Raise e, log).

#[global] Instance M_ret : MRet M := fun A a log => (Ok a, log).

#[global] Instance M_bind : MBind M := fun A B k m log =>
  match m log with
  | (Ok a, log') => k a log'
  | (Raise e, log') => (Raise e, log')
  end.

Record Source := {
  source_title : Value;
  source_url : Value;
  source_summary : Value
}.

Record RagAnswer := {
  answer : str;
  sources : list Source
}.

(** One turn of the chat history: [{"role": ..., "content": ...}]. *)
Record ChatTurn := {
  role : str;
  turn_content : str
}.

(** The two characters backslash and n: the source writes [\\n] inside
    ordinary string literals. *)
Definition BSN : str := py "\n".

Definition system_prompt : str :=
  py "คุณคือผู้ช่วย AI อัจฉริยะของ Agnos Health ที่เชี่ยวชาญด้านการให้ข้อมูลสุขภาพจากกระทู้ถามตอบทางการแพทย์
คุณได้รับคำถามจากผู้ใช้ และมีข้อมูลอ้างอิงจากกระทู้ที่แพทย์ได้ตอบไว้ในฟอรั่มของ Agnos Health

**คำแนะนำสำคัญ:**
1.  **ตอบเป็นภาษาไทยเสมอ** ตามภาษาของคำถามของผู้ใช้
2.  **พิจารณาประวัติการสนทนาก่อนหน้า (ถ้ามี) เพื่อทำความเข้าใจบริบทของคำถามปัจจุบัน**
3.  **ใช้ข้อมูลจาก " ++ DQ ++
  py "เนื้อหาอ้างอิง" ++ DQ ++
  py " ที่ให้มาเท่านั้น** ในการตอบคำถามปัจจุบัน ห้ามใช้ความรู้ส่วนตัวหรือข้อมูลจากภายนอกโดยเด็ดขาด
4.  **สวมบทบาทเป็นผู้ช่วยที่ให้ข้อมูล (ไม่ใช่แพทย์):** สรุปคำตอบจากแพทย์ในเนื้อหาอ้างอิงอย่างถูกต้องและเข้าใจง่าย
5.  **หากมีหลายคำตอบจากแพทย์ที่เกี่ยวข้อง:** พยายามสังเคราะห์ข้อมูลเหล่านั้นเพื่อให้คำตอบที่ครอบคลุมที่สุด ถ้าคำตอบขัดแย้งกัน ให้ระบุว่ามีความเห็นที่แตกต่างกันในเนื้อหาอ้างอิง
6.  **เน้นความแม่นยำ:** ตอบให้ตรงประเด็น กระชับ และเป็นข้อเท็จจริงตามเนื้อหาอ้างอิง
7.  **ถ้าข้อมูลไม่เพียงพอ:** หากเนื้อหาอ้างอิงไม่เกี่ยวข้องกับคำถามปัจจุบัน หรือไม่มีข้อมูลเพียงพอที่จะตอบได้อย่างมั่นใจ ให้ตอบว่า " ++ DQ ++
  py "ขออภัยค่ะ/ครับ ดิฉันไม่พบข้อมูลที่เกี่ยวข้องโดยตรงกับคำถามของคุณในฐานข้อมูล ณ ขณะนี้" ++ DQ ++
  py " หรือ " ++ DQ ++
  py "ข้อมูลที่มีอยู่อาจไม่เพียงพอที่จะให้คำตอบที่ชัดเจนสำหรับคำถามนี้ค่ะ/ครับ" ++ DQ ++
  py "
8.  **ความปลอดภัยและการปฏิเสธความรับผิดชอบ:**
    *   **ทุกครั้งที่ตอบคำถาม** ให้ปิดท้ายคำตอบด้วยข้อความนี้เสมอ: " ++ DQ ++
  py "ข้อมูลนี้เป็นเพียงข้อมูลเบื้องต้นที่สรุปจากกระทู้ถามตอบในฟอรั่ม Agnos Health และไม่สามารถใช้แทนคำแนะนำ การวินิจฉัย หรือการรักษาจากแพทย์ผู้เชี่ยวชาญได้ หากคุณมีข้อกังวลด้านสุขภาพ กรุณาปรึกษาแพทย์โดยตรงนะคะ/ครับ" ++ DQ ++
  py "
    *   ห้ามให้คำแนะนำทางการแพทย์ส่วนบุคคล ห้ามวินิจฉัยโรค หรือแนะนำการรักษาที่เฉพาะเจาะจง
9.  **อย่าอ้างอิงถึง " ++ DQ ++
  py "เนื้อหาอ้างอิง" ++ DQ ++
  py " หรือ " ++ DQ ++
  py "ประวัติการสนทนา" ++ DQ ++
  py " โดยตรง** ในคำตอบของคุณ แต่ให้ตอบเหมือนคุณมีความรู้นั้นอยู่แล้ว โดยไม่มีคำว่า 'ประวัติการสนทนา'

**รูปแบบการตอบ:**
[คำตอบที่สรุปจากเนื้อหาอ้างอิง โดยพิจารณาบริบทจากประวัติการสนทนา (ถ้ามี)]

ข้อมูลนี้เป็นเพียงข้อมูลเบื้องต้นที่สรุปจากกระทู้ถามตอบในฟอรั่ม Agnos Health และไม่สามารถใช้แทนคำแนะนำ การวินิจฉัย หรือการรักษาจากแพทย์ผู้เชี่ยวชาญได้ หากคุณมีข้อกังวลด้านสุขภาพ กรุณาปรึกษาแพทย์โดยตรงนะคะ/ครับ
".

Definition disclaimer_text : str :=
  py "ข้อมูลนี้เป็นเพียงข้อมูลเบื้องต้นที่สรุปจากกระทู้ถามตอบในฟอรั่ม Agnos Health และไม่สามารถใช้แทนคำแนะนำ การวินิจฉัย หรือการรักษาจากแพทย์ผู้เชี่ยวชาญได้ หากคุณมีข้อกังวลด้านสุขภาพ กรุณาปรึกษาแพทย์โดยตรงนะคะ/ครับ".

Definition no_information_text : str :=
  py "ขออภัยค่ะ/ครับ ดิฉันไม่พบข้อมูลที่เกี่ยวข้องโดยตรงกับคำถามของคุณในฐานข้อมูล ณ ขณะนี้".

Definition not_enough_information_text : str :=
  py "ข้อมูลที่มีอยู่อาจไม่เพียงพอที่จะให้คำตอบที่ชัดเจนสำหรับคำถามนี้ค่ะ/ครับ".

(** [m.get(key, default)] *)
Definition dict_get (m : gmap str Value) (key : string) (dflt : string) : Value :=
  default (VStr (py dflt)) (m !! py key).

(** [results["documents"] and results["documents"][0]] *)
Definition found_documents (results : QueryResult) : bool :=
  match documents results with
  | [] => false
  | docs0 :: _ => bool_decide (docs0 ≠ [])
  end.

(** Lines 79-88: the context lines and the sources of the retrieved
    records. [results["metadatas"][0]] raises on an empty list. *)
Definition collect_context (results : QueryResult)
  : M (list str * list Source) :=
  if found_documents results then
    match documents results, metadatas results with
    | docs0 :: _, metas0 :: _ =>
      mret ((fun dm : str * gmap str Value =>
              py "- " ++
              value_to_str (dict_get dm.2 "title" "ข้อมูลอ้างอิง") ++
              py ": " ++ dm.1) <$> zip docs0 metas0,
           (fun dm : str * gmap str Value =>
              {| source_title := dict_get dm.2 "title" "Unknown title";
                 source_url := dict_get dm.2 "url" "#";
                 source_summary :=
                   dict_get dm.2 "summary" "No summary available" |})
             <$> zip docs0 metas0)
    | _, _ => raise (py "list index out of range")
    end
  else mret ([], []).

(** Lines 118-121: the heading and one role-labelled line per turn. *)
Definition history_line (msg : ChatTurn) : str :=
  (if bool_decide (role msg = py "user") then py "ผู้ใช้" else py "ผู้ช่วย AI")
  ++ py ": " ++ turn_content msg.

Definition history_lines (chat_history : list ChatTurn) : list str :=
  py "ประวัติการสนทนาก่อนหน้า:" :: (history_line <$> chat_history).

(** Lines 116-122. *)
Definition formatted_chat_history (chat_history : list ChatTurn) : str :=
  match chat_history with
  | [] => []
  | _ :: _ => join BSN (history_lines chat_history) ++ BSN ++ BSN
  end.

(** Lines 125-130. *)
Definition build_prompt (context query : str) (chat_history : list ChatTurn)
  : str :=
  let prompt_parts :=
    [ py "System: " ++ system_prompt;
      formatted_chat_history chat_history ++
      py "เนื้อหาอ้างอิงจากกระทู้ถามแพทย์ (สำหรับคำถามปัจจุบัน):" ++ BSN ++
      (if bool_decide (context ≠ []) then context
       else py "ไม่พบข้อมูลอ้างอิงที่เกี่ยวข้องโดยตรงสำหรับคำถามนี้");
      BSN ++ py "คำถามปัจจุบันของผู้ใช้:" ++ NL ++ query ] in
  join (BSN ++ BSN) prompt_parts.

(** Lines 136-145: strip the disclaimer, fall back, append the disclaimer. *)
Definition postprocess_answer (answer_raw : str) (context_parts : list str)
  : str :=
  let processed_answer := strip (replace answer_raw disclaimer_text []) in
  let processed_answer :=
    if bool_decide (processed_answer = []) ||
       bool_decide (processed_answer = strip disclaimer_text) then
      match context_parts with
      | [] => no_information_text
      | _ :: _ => not_enough_information_text
      end
    else processed_answer in
  processed_answer ++ BSN ++ BSN ++ disclaimer_text.

(** The body of the [try] block. *)
Definition query_rag_try `{Store} (collection : Collection) (query : str)
    (chat_history : list ChatTurn) (num_results : nat) : M RagAnswer :=
  query_embedding ← call (EmbedQuery query) (aembed_query query);
  results ← call (StoreQuery num_results)
              (collection_query collection [query_embedding] num_results);
  '(context_parts, sources) ← collect_context results;
  let context := join BSN context_parts in
  let prompt := build_prompt context query chat_history in
  answer_raw ← call (Generate prompt) (llm_invoke prompt);
  let final_answer_with_disclaimer :=
    postprocess_answer answer_raw context_parts in
  if negb (found_documents results) then
    mret {| answer := no_information_text ++ BSN ++ BSN ++ disclaimer_text;
            sources := [] |}
  else
    mret {| answer := final_answer_with_disclaimer; sources := sources |}.

(** The [except] block: a generic error answer with the disclaimer. *)
Definition error_answer (e : str) : RagAnswer :=
  {| answer := py "เกิดข้อผิดพลาดในการประมวลผลคำถามของคุณ: " ++ e ++
               BSN ++ BSN ++ disclaimer_text;
     sources := [] |}.

(** [query_rag_system]: the dictionary returned and the calls made. *)
Definition query_rag_system `{Store} (collection : Collection)
    (query : str) (chat_history : list ChatTurn) (num_results : nat)
  : RagAnswer * list Event :=
  match query_rag_try collection query chat_history num_results [] with
  | (Ok r, log) => (r, log)
  | (Raise e, log) => (error_answer e, log)
  end.

Definition default_num_results : nat := 3.

(** ** Collection statistics: [get_db_stats] (rag_utils.py, lines 25-61) *)

(** The local clock is one more collaborator: [format_local_time text] is
    [datetime.fromisoformat(text)] moved to the local time zone and
    formatted with ["%Y-%m-%d %H:%M:%S %Z"]; it raises on a text that is not
    an ISO date. *)
Class LocalClock := {
  format_local_time : str -> Result str
}.

(** The dictionary [get_db_stats] returns. *)
Record DbStats := {
  stats_urls : list Value;
  stats_domains : list Value;
  stats_doc_count : nat;
  stats_last_updated : Value
}.

(** [s < t] on strings: lexicographic on code points. *)
Fixpoint str_lt (s t : str) : bool :=
  match s, t with
  | _, [] => false
  | [], _ :: _ => true
  | a :: s', b :: t' => (a <? b)%N || ((a =? b)%N && str_lt s' t')
  end.

(** [a > b] on metadata values; a string and an integer do not compare. *)
Definition value_gt (a b : Value) : Result bool :=
  match a, b with
  | VStr s, VStr t => Ok (str_lt t s)
  | VInt n, VInt m => Ok (m <? n)%Z
  | _, _ =>
    Raise (py "'>' not supported between instances of 'str' and 'int'")
  end.

(** [max] over a non-empty sequence: an item replaces the current maximum
    when it is greater. *)
Fixpoint value_max_from (current : Value) (items : list Value) : Result Value :=
  match items with
  | [] => Ok current
  | item :: items' =>
    match value_gt item current with
    | Ok b => value_max_from (if b then item else current) items'
    | Raise e => Raise e
    end
  end.

(** Truth value of a metadata value. *)
Definition truthy (v : Value) : bool :=
  match v with
  | VStr s => bool_decide (s <> [])
  | VInt n => bool_decide (n <> 0%Z)
  end.

(** [meta.get("crawled_at", "")]. *)
Definition crawled_at_of (meta : gmap str Value) : Value :=
  default (VStr []) (meta !! py "crawled_at").

(** [get_db_stats]: [None] for an empty collection and whenever anything
    raises (the store, a record without ["url"] or ["source"], values that
    do not compare, a date that does not parse). The order of [urls] and
    [domains] is unspecified in Python. *)
Definition get_db_stats `{Store} `{LocalClock} (collection : Collection)
  : option DbStats :=
  match collection_get collection with
  | Raise _ => None
  | Ok (ids, metadatas) =>
    match metadatas with
    | [] => None
    | meta0 :: metas =>
      match mapM (fun meta : gmap str Value => meta !! py "url") metadatas,
            mapM (fun meta : gmap str Value => meta !! py "source") metadatas
      with
      | Some urls, Some domains =>
        match value_max_from (crawled_at_of meta0) (crawled_at_of <$> metas) with
        | Raise _ => None
        | Ok last_updated =>
          if truthy last_updated then
            match last_updated with
            | VStr s =>
              match format_local_time (replace s (py "Z") (py "+00:00")) with
              | Ok formatted =>
                Some {| stats_urls := remove_dups urls;
                        stats_domains := remove_dups domains;
                        stats_doc_count := length ids;
                        stats_last_updated := VStr formatted |}
              | Raise _ => None
              end
            | VInt _ => None
            end
          else
            Some {| stats_urls := remove_dups urls;
                    stats_domains := remove_dups domains;
                    stats_doc_count := length ids;
                    stats_last_updated := last_updated |}
        end
      | _, _ => None
      end
    end
  end.

(** ** Chat front end: the history handed to the query (app.py, lines 92-128) *)

(** One entry of [st.session_state.messages]. *)
Record SessionMessage := {
  msg_role : str;
  msg_content : str;
  msg_sources : option (list Source)
}.

(** Lines 100-105: [messages[:-1]] leaves out the query just appended, and
    [recent_messages[-4:]] keeps the last four of the rest. *)
Definition history_entry (msg : SessionMessage) : ChatTurn :=
  {| role := msg_role msg; turn_content := msg_content msg |}.

Definition chat_history_for_rag (messages : list SessionMessage)
  : list ChatTurn :=
  let recent_messages := take (length messages - 1) messages in
  history_entry <$> drop (length recent_messages - 4) recent_messages.

(** One question typed into the chat: the session messages afterwards and
    the calls made. *)
Definition render_chat_input `{Store} (collection : Collection)
    (messages : list SessionMessage) (query : str)
  : list SessionMessage * list Event :=
  let messages :=
    messages ++ [{| msg_role := py "user"; msg_content := query;
                    msg_sources := None |}] in
  let result :=
    query_rag_system collection query (chat_history_for_rag messages)
      default_num_results in
  (messages ++ [{| msg_role := py "assistant";
                   msg_content := answer result.1;
                   msg_sources := Some (sources result.1) |}],
   result.2).

(** ** Vocabulary of the properties *)

(** A string of whitespace only, and a text with its whitespace removed. *)
Definition all_space (s : str) : Prop := Forall (fun c => isspace c = true) s.

Definition without_space (s : str) : str :=
  filter (fun c => isspace c = false) s.

(** [trimmed_cover chunks text]: the text is the chunks, in order, with a
    run of whitespace (possibly empty) before each chunk and after the last
    one. *)
Inductive trimmed_cover : list str -> str -> Prop :=
  | cover_end ws : all_space ws -> trimmed_cover [] ws
  | cover_chunk ws chunk chunks rest :
      all_space ws -> trimmed_cover chunks rest ->
      trimmed_cover (chunk :: chunks) (ws ++ chunk ++ rest).

(** [history[-n:]]: the last [n] entries. *)
Definition last_turns {A} (n : nat) (history : list A) : list A :=
  drop (length history - n) history.

(** The number of calls to the generation service in a log. *)
Definition is_generate (ev : Event) : bool :=
  match ev with Generate _ => true | _ => false end.

Definition generation_calls (log : list Event) : nat :=
  length (filter (fun ev => is_generate ev = true) log).

(** The text of a page as the crawl sees it: [fetch_url] returned a
    non-empty body, and this is its extracted text. *)
Definition page_text `{Web} (url : str) : option str :=
  match fetch_url url with
  | Some (c :: html) => Some (extract_text_from_html (c :: html))
  | _ => None
  end.

(** A page is indexed when it was fetched and its extracted text is longer
    than 500 characters. *)
Definition indexed_page `{Web} (url : str) : bool :=
  match page_text url with
  | Some text_content => 500 <? length text_content
  | None => false
  end.

(** The collection after the chunk, enrich and store pipeline has run on
    the given pages in turn. *)
Definition store_pages `{Store} `{Web} (collection : Collection)
    (urls : list str) : Collection :=
  foldl (fun collection url =>
           match page_text url with
           | Some text_content =>
             match process_and_store_document collection url text_content with
             | Some (Ok r) => r.1
             | _ => collection
             end
           | None => collection
           end) collection urls.

(** The record the store keeps for a chunk whose write it accepts; [None]
    when the metadata holds a value the store refuses. *)
Definition chunk_record `{Models} (chunk : ProcessedChunk)
  : option StoreRecord :=
  m ← stored_metadata (chunk_record_metadata chunk);
  Some {| rec_document := content chunk;
          rec_embedding := embedding chunk;
          rec_metadata := m |}.

(** The write of a chunk is accepted: the store does not refuse the call,
    and this is the record it is given. *)
Definition add_accepted `{Store} (collection : Collection)
    (chunk : ProcessedChunk) (record : StoreRecord) : Prop :=
  add_error collection [content chunk] [embedding chunk]
    [chunk_record_metadata chunk] [chunk_id chunk] = None /\
  chunk_record chunk = Some record.

(** The frontier invariant: neither set has a duplicate and no queued URL
    has been visited. *)
Definition frontier_ok `{Models} (st : CrawlState) : Prop :=
  NoDup (visited_urls st) /\ NoDup (queued_urls st) /\
  (forall u, u ∈ queued_urls st -> u ∉ visited_urls st).

(** What the crawl has processed: the count and the collection are those of
    the indexed pages among the visited ones. *)
Definition stored_ok `{Store} `{Web} (collection0 : Collection)
    (st : CrawlState) : Prop :=
  processed_count st
  = length (filter (fun u => indexed_page u = true) (visited_urls st)) /\
  crawl_collection st
  = store_pages collection0
      (filter (fun u => indexed_page u = true) (visited_urls st)).

(** The empty-store property as the specification words it: no sources,
    the canned answer, and no call to the generation service. *)
Definition empty_store_claim (models : Models) (store : @Store models)
    (query : str) (chat_history : list ChatTurn) (num_results : nat) : Prop :=
  let out := @query_rag_system models store ∅ query chat_history num_results in
  sources out.1 = [] /\
  answer out.1 = no_information_text ++ BSN ++ BSN ++ disclaimer_text /\
  generation_calls out.2 = 0.

(** The history property as the specification words it: the prompt sent to
    the generation service is built from the last four turns of the history
    passed to the query. *)
Definition last_four_claim (models : Models) (store : @Store models)
    (collection : Collection)
    (query : str) (chat_history : list ChatTurn) (num_results : nat) : Prop :=
  forall prompt,
    Generate prompt ∈
      (@query_rag_system models store collection query chat_history
         num_results).2 ->
    exists context,
      prompt = build_prompt context query (last_turns 4 chat_history).




(** The links the crawl takes from a page: those of the fetched body, and
    none when the fetch failed, the body is empty or the extraction
    raised. *)
Definition page_links `{Web} (url : str) : list str :=
  match fetch_url url with
  | Some (c :: html) =>
    match extract_links_from_html (c :: html) url with
    | Ok links => links
    | Raise _ => []
    end
  | _ => []
  end.

(** The text of an exception of [urljoin] or [urlparse]. *)
Definition url_error `{Web} (e : str) : Prop :=
  (exists u, urlparse u = Raise e) \/
  (exists base href, urljoin base href = Raise e).

(** A URL is on the host of the seed: it is the seed, or both parse and
    have the same network location. *)
Definition on_seed_host `{Web} (start_url u : str) : Prop :=
  u = start_url \/
  exists parsed seed,
    urlparse u = Ok parsed /\ urlparse start_url = Ok seed /\
    netloc parsed = netloc seed.

(** A string of decimal digits. *)
Fixpoint all_digits (s : string) : Prop :=
  match s with
  | EmptyString => True
  | String a s' => (48 <= Ascii.N_of_ascii a <= 57)%N /\ all_digits s'
  end.

(** The prompt [get_title_and_content] sends for a chunk, and the title it
    falls back to. *)
Abbreviation title_prompt chunk :=
  (title_system_prompt ++ NL ++ NL ++ py "เนื้อหา:" ++ NL ++
   slice chunk 0 1500 ++ py "...").

Abbreviation default_title parsed := (JStr (py "เนื้อหาจาก " ++ netloc parsed)).

(** What [get_title_and_content] makes of a reply of the generation
    service (lines 87-102); [title] is the default title. *)
Definition title_from_response `{Web} (response : str) (title : Json) : Json :=
  let json_str := strip response in
  let json_str :=
    if startswith (py "{") json_str then json_str
    else
      let start := find json_str (py "{") in
      if (0 <=? start)%Z then slice_from json_str (Z.to_nat start)
      else json_str in
  if startswith (py "{") json_str && endswith (py "}") json_str then
    match json_loads_title json_str with
    | Ok (Some t) => t
    | Ok None => title
    | Raise _ => title
    end
  else title.

(** The chunk [process_chunk] returns for a URL that parses as [parsed]. *)
Definition processed_chunk `{Models} `{Web} (parsed : ParsedUrl) (chunk : str)
    (index : nat) (page_url : str) : ProcessedChunk :=
  {| url := page_url;
     chunk_number := index;
     title := match llm_invoke (title_prompt chunk) with
              | Raise _ => default_title parsed
              | Ok response =>
                title_from_response response (default_title parsed)
              end;
     summary := chunk;
     content := chunk;
     metadata :=
       <[ py "source" := JStr (netloc parsed) ]>
       (<[ py "chunk_size" := JInt (Z.of_nat (length chunk)) ]>
       (<[ py "crawled_at" := JStr (utc_now_isoformat page_url index) ]>
       (<[ py "url_path" := JStr (path parsed) ]> ∅)));
     embedding := get_embedding chunk |}.

(** The position of the last occurrence of [p] in [s] that lies past 30% of
    [chunk_size], if there is one. *)
Definition last_break_past_30 (p s : str) (chunk_size k : nat) : Prop :=
  3 * chunk_size < 10 * k /\
  startswith p (drop k s) = true /\
  forall j, k < j -> j <= length s -> startswith p (drop j s) = false.

Definition no_break_past_30 (p s : str) (chunk_size : nat) : Prop :=
  forall j, 3 * chunk_size < 10 * j -> j <= length s ->
            startswith p (drop j s) = false.

(** ** Concrete collaborators for the examples *)

(** Back ends whose generation service always answers [reply]. *)
Definition demo_models (reply : str) : Models :=
  {| float := Z;
     float_zero := 0%Z;
     llm_invoke := fun _ => Ok reply;
     aembed_query := fun _ => Ok [1%Z; 2%Z];
     nearer := fun _ _ _ => true |}.

(** Back ends whose embedding service, or whose generation service, fails
    with the given message. *)
Definition failing_embedding_models (e : str) : Models :=
  {| float := Z;
     float_zero := 0%Z;
     llm_invoke := fun _ => Ok (py "ok");
     aembed_query := fun _ => Raise e;
     nearer := fun _ _ _ => true |}.

Definition failing_generation_models (e : str) : Models :=
  {| float := Z;
     float_zero := 0%Z;
     llm_invoke := fun _ => Raise e;
     aembed_query := fun _ => Ok [1%Z; 2%Z];
     nearer := fun _ _ _ => true |}.

(** A store that refuses no call, with the given behaviour of [add] at an
    id that is present. *)
Definition demo_store (models : Models) (policy : AddPolicy) : @Store models :=
  {| add_existing := policy;
     add_error := fun _ _ _ _ _ => None;
     query_error := fun _ _ _ => None;
     get_error := fun _ => None |}.

(** A store whose [query] refuses a request for no result. *)
Definition strict_query_store (models : Models) : @Store models :=
  {| add_existing := KeepExisting;
     add_error := fun _ _ _ _ _ => None;
     query_error := fun _ _ n =>
       if n =? 0 then Some (py "Number of requested results 0, cannot be negative, or zero.")
       else None;
     get_error := fun _ => None |}.

(** The first chunk of a page, ingested once and ingested again later. *)
Definition demo_chunk (crawled_at : string) : @ProcessedChunk (demo_models []) :=
  @Build_ProcessedChunk (demo_models [])
    (py "https://example.com/forum") 0 (JStr (py "a title")) (py "some text")
    (py "some text") {[ py "crawled_at" := JStr (py crawled_at) ]}
    [1%Z; 2%Z].

(** A site of three pages on one host: [a] links to [b], to itself and to
    another host, [b] links back to [a] and on to [c], and [c] answers 404.
    Only [a] has a long text. The body of a page is represented by its URL. *)
Definition demo_a : str := py "http://h/a".
Definition demo_b : str := py "http://h/b".
Definition demo_c : str := py "http://h/c".

Definition demo_web : Web :=
  {| session_get := fun url =>
       if bool_decide (url = demo_a) || bool_decide (url = demo_b)
       then Ok (200%Z, url) else Ok (404%Z, []);
     soup_get_text := fun html =>
       if bool_decide (html = demo_a) then replicate 600 120%N
       else py "short";
     soup_anchor_hrefs := fun html =>
       if bool_decide (html = demo_a)
       then [demo_b; demo_a; py "http://other/z"; demo_b]
       else [demo_a; demo_c];
     urljoin := fun _ href => Ok href;
     urlparse := fun url =>
       Ok {| netloc := if startswith (py "http://h/") url then py "h"
                       else py "other";
             path := drop 8 url |};
     json_loads_title := fun _ => Ok None;
     utc_now_isoformat := fun _ _ => py "2025-01-01T00:00:00+00:00";
     pop_choice := fun i => i |}.

(** The same site, where page [a] also has an anchor whose href is
    [http://[] : [urljoin] raises on it, as [urllib.parse] does on an
    unclosed bracket. *)
Definition demo_web_bad_href : Web :=
  {| session_get := @session_get demo_web;
     soup_get_text := @soup_get_text demo_web;
     soup_anchor_hrefs := fun html =>
       if bool_decide (html = demo_a) then [demo_b; py "http://["]
       else [demo_a; demo_c];
     urljoin := fun _ href =>
       if bool_decide (href = py "http://[") then Raise (py "Invalid IPv6 URL")
       else Ok href;
     urlparse := @urlparse demo_web;
     json_loads_title := @json_loads_title demo_web;
     utc_now_isoformat := @utc_now_isoformat demo_web;
     pop_choice := @pop_choice demo_web |}.

(** A reply in which one copy of the disclaimer sits inside another: removing
    the inner copy joins the two halves of the outer one. *)
Definition nested_disclaimer_reply : str :=
  py "ตอบ " ++ take 1 disclaimer_text ++ disclaimer_text ++ drop 1 disclaimer_text.

(** A collection holding one record. *)
Definition demo_collection (reply : str)
  : gmap str (@StoreRecord (demo_models reply)) :=
  @insert_chunk (demo_models reply) (demo_store (demo_models reply) Overwrite) ∅
    (@Build_ProcessedChunk (demo_models reply)
       (py "https://example.com/forum") 0 (JStr (py "a title")) (py "some text")
       (py "some text")
       {[ py "crawled_at" := JStr (py "2025-01-01T00:00:00+00:00") ]}
       [1%Z; 2%Z]).

(** A collection holding one record, over any back ends. *)
Definition demo_collection_of (models : Models) : gmap str (@StoreRecord models) :=
  @insert_chunk models (demo_store models Overwrite) ∅
    (@Build_ProcessedChunk models
       (py "https://example.com/forum") 0 (JStr (py "a title")) (py "some text")
       (py "some text")
       {[ py "crawled_at" := JStr (py "2025-01-01T00:00:00+00:00") ]}
       []).

(** A parser that finds the title [t] in the text [json] and rejects every
    other text, on the demonstration site. *)
Definition demo_web_json (json : str) (t : Json) : Web :=
  {| session_get := @session_get demo_web;
     soup_get_text := @soup_get_text demo_web;
     soup_anchor_hrefs := @soup_anchor_hrefs demo_web;
     urljoin := @urljoin demo_web;
     urlparse := @urlparse demo_web;
     json_loads_title := fun s =>
       if bool_decide (s = json) then Ok (Some t)
       else Raise (py "Expecting value");
     utc_now_isoformat := @utc_now_isoformat demo_web;
     pop_choice := @pop_choice demo_web |}.

(** The reply [{"title": null}] of a generation service, and the site with a
    parser that reads it. *)
Definition null_title_reply : str :=
  py "{" ++ DQ ++ py "title" ++ DQ ++ py ": null}".

Definition demo_web_null_title : Web := demo_web_json null_title_reply JNull.

(** A clock that formats every date as one fixed text. *)
Definition demo_clock : LocalClock :=
  {| format_local_time := fun _ => Ok (py "2025-01-01 07:00:00 +07") |}.

(** The collection after a short text was stored as the content of page
    [a] of the demonstration site: one chunk. *)
Definition demo_stored_page : gmap str (@StoreRecord (demo_models [])) :=
  match @process_and_store_document (demo_models [])
          (demo_store (demo_models []) KeepExisting) demo_web ∅ demo_a
          (py "some text") with
  | Some (Ok r) => r.1
  | _ => ∅
  end.

(** The statistics of that collection under the demonstration clock. *)
Definition demo_stats : DbStats :=
  {| stats_urls := [VStr demo_a];
     stats_domains := [VStr (py "h")];
     stats_doc_count := 1;
     stats_last_updated := VStr (py "2025-01-01 07:00:00 +07") |}.

(** A history of five turns. *)
Definition demo_turn (r c : string) : ChatTurn :=
  {| role := py r; turn_content := py c |}.

Definition demo_history : list ChatTurn :=
  [demo_turn "user" "q1"; demo_turn "assistant" "a1"; demo_turn "user" "q2";
   demo_turn "assistant" "a2"; demo_turn "user" "q3"].

(* ===================================================================== *)
(** * Part II - properties *)
(* ===================================================================== *)

(** ** Python strings *)

Lemma lstrip_length (s : str) : length (lstrip s) <= length s.
Proof.
  induction s as [|c s IH]; simpl; [lia|].
  destruct (isspace c); simpl; lia.
Qed.

Lemma strip_length (s : str) : length (strip s) <= length s.
Proof.
  unfold strip, rstrip. rewrite length_reverse.
  etrans; [apply lstrip_length|]. rewrite length_reverse.
  apply lstrip_length.
Qed.

Lemma without_space_app (s t : str) :
  without_space (s ++ t) = without_space s ++ without_space t.
Proof. apply filter_app. Qed.

Lemma without_space_reverse (s : str) :
  without_space (reverse s) = reverse (without_space s).
Proof. apply filter_reverse. Qed.

Lemma without_space_lstrip (s : str) :
  without_space (lstrip s) = without_space s.
Proof.
  induction s as [|c s IH]; [done|]. cbn [lstrip].
  destruct (isspace c) eqn:Hc; [|done].
  rewrite IH. unfold without_space. rewrite (filter_cons_False _ c); [done|].
  rewrite Hc. discriminate.
Qed.

Lemma without_space_strip (s : str) :
  without_space (strip s) = without_space s.
Proof.
  unfold strip, rstrip.
  rewrite without_space_reverse, without_space_lstrip, without_space_reverse.
  rewrite reverse_involutive. apply without_space_lstrip.
Qed.

Lemma slice_length (s : str) (a b : nat) : length (slice s a b) <= b - a.
Proof. unfold slice. rewrite length_take. lia. Qed.

(** Consecutive slices and the rest put the text back together. *)
Lemma slice_split (s : str) (a b : nat) :
  a <= b -> take b s = take a s ++ slice s a b.
Proof.
  intros Hab. unfold slice.
  rewrite take_take_drop. f_equal. lia.
Qed.

Lemma lstrip_decompose (s : str) :
  exists ws, all_space ws /\ s = ws ++ lstrip s.
Proof.
  induction s as [|c s (ws & Hws & IH)].
  { exists []. split; [constructor|done]. }
  cbn [lstrip]. destruct (isspace c) eqn:Hc.
  - exists (c :: ws). split; [by constructor|]. simpl. congruence.
  - exists []. split; [constructor|done].
Qed.

Lemma all_space_reverse (s : str) : all_space s -> all_space (reverse s).
Proof. unfold all_space. by rewrite Forall_reverse. Qed.

Lemma strip_decompose (s : str) :
  exists ws1 ws2, all_space ws1 /\ all_space ws2 /\ s = ws1 ++ strip s ++ ws2.
Proof.
  destruct (lstrip_decompose s) as (ws1 & H1 & E1).
  destruct (lstrip_decompose (reverse (lstrip s))) as (ws2 & H2 & E2).
  exists ws1, (reverse ws2). split; [done|]. split; [by apply all_space_reverse|].
  unfold strip, rstrip. rewrite <- reverse_app, <- E2, reverse_involutive.
  exact E1.
Qed.

Lemma strip_nil_all_space (s : str) : strip s = [] -> all_space s.
Proof.
  intros E. destruct (strip_decompose s) as (ws1 & ws2 & H1 & H2 & Hs).
  rewrite Hs, E. simpl. by apply Forall_app.
Qed.

Lemma without_space_all_space (s : str) : all_space s -> without_space s = [].
Proof.
  induction 1 as [|c s Hc _ IH]; [done|].
  unfold without_space. rewrite (filter_cons_False _ c); [done|]. rewrite Hc. discriminate.
Qed.

Lemma startswith_length (p s : str) :
  startswith p s = true -> length p <= length s.
Proof.
  revert s. induction p as [|a p IH]; intros [|b s]; simpl; try lia; try done.
  intros [_ H]%andb_true_iff. apply IH in H. lia.
Qed.

Lemma rfind_from_bounds (p s : str) (i : nat) :
  (0 <= rfind_from i p s)%Z ->
  (Z.of_nat i <= rfind_from i p s)%Z /\
  (rfind_from i p s + Z.of_nat (length p) <= Z.of_nat (i + length s))%Z.
Proof.
  revert i. induction s as [|c s IH]; intros i; cbn [rfind_from].
  - destruct (startswith p []) eqn:Hp; [|lia].
    apply startswith_length in Hp. simpl in *. lia.
  - destruct (0 <=? rfind_from (S i) p s)%Z eqn:Hr.
    + intros _. apply Z.leb_le in Hr. specialize (IH _ Hr). simpl. lia.
    + destruct (startswith p (c :: s)) eqn:Hp; [|lia].
      apply startswith_length in Hp. simpl in *. lia.
Qed.

Lemma rfind_bounds (s p : str) :
  (0 <= rfind s p)%Z -> (rfind s p + Z.of_nat (length p) <= Z.of_nat (length s))%Z.
Proof. intros H. by destruct (rfind_from_bounds p s 0 H) as [_ ?]. Qed.

Lemma rfind_lower (s p : str) : (-1 <= rfind s p)%Z.
Proof.
  unfold rfind. generalize 0. induction s as [|c s IH]; intros i; cbn [rfind_from].
  - destruct (startswith p []); lia.
  - destruct (0 <=? rfind_from (S i) p s)%Z eqn:Hr; [apply IH|].
    destruct (startswith p (c :: s)); lia.
Qed.

(** *** The cut point of one iteration *)

Lemma chunk_end_lower (text : str) (chunk_size start : nat) :
  start <= chunk_end text chunk_size start.
Proof.
  unfold chunk_end. cbv zeta.
  repeat case_match; lia.
Qed.

Lemma chunk_end_upper (text : str) (chunk_size start : nat) :
  chunk_end text chunk_size start <= start + chunk_size.
Proof.
  unfold chunk_end, past_30_percent.
  pose proof (slice_length text start (start + chunk_size)) as Hlen.
  set (chunk := slice text start (start + chunk_size)) in *.
  destruct (3 * _ <? 10 * rfind chunk (NL ++ NL))%Z eqn:Hp.
  - apply Z.ltb_lt in Hp.
    assert (0 <= rfind chunk (NL ++ NL))%Z as H0 by lia.
    apply rfind_bounds in H0. change (length (NL ++ NL)) with 2 in H0. lia.
  - destruct (str_in _ chunk); [|lia].
    destruct (3 * _ <? 10 * rfind chunk (py ". "))%Z eqn:Hs; [|lia].
    apply Z.ltb_lt in Hs.
    assert (0 <= rfind chunk (py ". "))%Z as H0 by lia.
    apply rfind_bounds in H0. change (length (py ". ")) with 2 in H0. lia.
Qed.

Lemma chunk_end_advances (text : str) (chunk_size start : nat) :
  1 <= chunk_size -> start < chunk_end text chunk_size start.
Proof.
  intros Hcs. unfold chunk_end, past_30_percent.
  set (chunk := slice text start (start + chunk_size)).
  destruct (3 * _ <? 10 * rfind chunk (NL ++ NL))%Z eqn:Hp; [lia|].
  destruct (str_in _ chunk); [|lia].
  destruct (3 * _ <? 10 * rfind chunk (py ". "))%Z eqn:Hs; lia.
Qed.

Lemma all_space_app (s t : str) : all_space s -> all_space t -> all_space (s ++ t).
Proof. intros. by apply Forall_app. Qed.

Lemma cover_space (chunks : list str) (t ws : str) :
  trimmed_cover chunks t -> all_space ws -> trimmed_cover chunks (t ++ ws).
Proof.
  induction 1 as [ws0 H0|ws0 chunk chunks rest H0 _ IH]; intros Hws.
  - constructor. by apply all_space_app.
  - rewrite <- !(assoc (++)). constructor; [done|]. by apply IH.
Qed.

Lemma cover_snoc (chunks : list str) (t ws1 chunk ws2 : str) :
  trimmed_cover chunks t -> all_space ws1 -> all_space ws2 ->
  trimmed_cover (chunks ++ [chunk]) (t ++ ws1 ++ chunk ++ ws2).
Proof.
  induction 1 as [ws0 H0|ws0 c chunks rest H0 _ IH]; intros H1 H2.
  - rewrite (assoc (++) ws0 ws1). simpl.
    constructor; [by apply all_space_app|]. by constructor.
  - rewrite <- !(assoc (++)). simpl. constructor; [done|]. by apply IH.
Qed.

Lemma cover_without_space (chunks : list str) (t : str) :
  trimmed_cover chunks t -> without_space (concat chunks) = without_space t.
Proof.
  induction 1 as [ws0 H0|ws0 c chunks rest H0 _ IH]; simpl.
  - by rewrite (without_space_all_space ws0).
  - rewrite !without_space_app, IH, (without_space_all_space ws0); done.
Qed.

(** *** The loop *)

Lemma chunk_loop_mono (fuel fuel' : nat) (text : str) (chunk_size start : nat)
    (chunks out : list str) :
  chunk_loop fuel text chunk_size start chunks = Some out ->
  fuel <= fuel' ->
  chunk_loop fuel' text chunk_size start chunks = Some out.
Proof.
  revert fuel' start chunks.
  induction fuel as [|fuel IH]; intros fuel' start chunks; [done|].
  intros Hrun Hle. destruct fuel' as [|fuel']; [lia|].
  cbn [chunk_loop] in *.
  destruct (start <? length text); [|done].
  destruct (length text <=? start + chunk_size); [done|].
  apply IH; [done|lia].
Qed.

Lemma chunk_loop_terminates (fuel : nat) (text : str) (chunk_size start : nat)
    (chunks : list str) :
  1 <= chunk_size -> length text - start < fuel ->
  is_Some (chunk_loop fuel text chunk_size start chunks).
Proof.
  intros Hcs. revert start chunks.
  induction fuel as [|fuel IH]; intros start chunks Hfuel; [lia|].
  cbn [chunk_loop].
  destruct (start <? length text) eqn:Hlt; [|done].
  destruct (length text <=? start + chunk_size) eqn:Hfin; [done|].
  apply Nat.ltb_lt in Hlt. apply IH.
  pose proof (chunk_end_advances text chunk_size start Hcs). lia.
Qed.

Lemma chunk_end_size_0 (text : str) (start : nat) : chunk_end text 0 start = start.
Proof.
  unfold chunk_end, slice. rewrite Nat.add_0_r, Nat.sub_diag, take_0.
  reflexivity.
Qed.

Lemma chunk_loop_diverges (fuel : nat) (text : str) (start : nat)
    (chunks : list str) :
  start < length text -> chunk_loop fuel text 0 start chunks = None.
Proof.
  intros Hlt. induction fuel as [|fuel IH]; [done|].
  cbn [chunk_loop]. rewrite chunk_end_size_0.
  destruct (start <? length text) eqn:E; [|apply Nat.ltb_ge in E; lia].
  destruct (length text <=? start + 0) eqn:E'; [apply Nat.leb_le in E'; lia|].
  unfold slice. rewrite Nat.sub_diag, take_0. exact IH.
Qed.

Lemma chunk_text_fuel_enough (fuel : nat) (text : str) (chunk_size : nat)
    (chunks : list str) :
  chunk_text_fuel fuel text chunk_size = Some chunks ->
  chunk_text text chunk_size = Some chunks.
Proof.
  intros Hrun. unfold chunk_text, chunk_text_fuel in *.
  destruct chunk_size as [|n].
  - destruct text as [|c text].
    + destruct fuel; [done|]. exact Hrun.
    + rewrite chunk_loop_diverges in Hrun; [done|simpl; lia].
  - destruct (chunk_loop_terminates (S (length text)) text (S n) 0 [])
      as [out Hout]; [lia..|].
    destruct (Nat.le_ge_cases fuel (S (length text))) as [Hle|Hle].
    + by apply (chunk_loop_mono fuel).
    + pose proof (chunk_loop_mono _ _ _ _ _ _ _ Hout Hle). congruence.
Qed.

Lemma chunk_loop_size (fuel : nat) (text : str) (chunk_size start : nat)
    (chunks out : list str) :
  Forall (fun chunk => length chunk <= chunk_size) chunks ->
  chunk_loop fuel text chunk_size start chunks = Some out ->
  Forall (fun chunk => length chunk <= chunk_size) out.
Proof.
  revert start chunks.
  induction fuel as [|fuel IH]; intros start chunks Hall; [done|].
  cbn [chunk_loop].
  destruct (start <? length text) eqn:Hlt; [|congruence].
  destruct (length text <=? start + chunk_size) eqn:Hfin.
  - intros [= <-]. apply Forall_app. split; [done|].
    apply Forall_singleton. apply Nat.leb_le in Hfin.
    etrans; [apply strip_length|]. unfold slice_from. rewrite length_drop. lia.
  - apply IH. case_bool_decide; [done|].
    apply Forall_app. split; [done|]. apply Forall_singleton.
    etrans; [apply strip_length|]. etrans; [apply slice_length|].
    pose proof (chunk_end_upper text chunk_size start). lia.
Qed.

Lemma chunk_loop_cover (fuel : nat) (text : str) (chunk_size start : nat)
    (chunks out : list str) :
  trimmed_cover chunks (take start text) ->
  chunk_loop fuel text chunk_size start chunks = Some out ->
  trimmed_cover out text.
Proof.
  revert start chunks.
  induction fuel as [|fuel IH]; intros start chunks Hcov; [done|].
  cbn [chunk_loop].
  destruct (start <? length text) eqn:Hlt.
  - destruct (length text <=? start + chunk_size) eqn:Hfin.
    + intros [= <-]. rewrite <- (take_drop start text) at 2.
      destruct (strip_decompose (slice_from text start))
        as (ws1 & ws2 & H1 & H2 & E).
      unfold slice_from in *. rewrite E at 2. by apply cover_snoc.
    + apply IH.
      rewrite (slice_split text start (chunk_end text chunk_size start))
        by apply chunk_end_lower.
      set (piece := slice text start (chunk_end text chunk_size start)).
      case_bool_decide as Hempty.
      * apply cover_space; [done|]. by apply strip_nil_all_space.
      * destruct (strip_decompose piece) as (ws1 & ws2 & H1 & H2 & E).
        rewrite E at 2. by apply cover_snoc.
  - intros [= <-]. apply Nat.ltb_ge in Hlt. by rewrite take_ge in Hcov.
Qed.

(** *** The chunker's properties *)

(** C10. For every text and every [chunk_size >= 1] the chunker terminates:
    with one unit of fuel per character and one more the loop returns, and
    in every iteration the cut point [chunk_end] - the paragraph break past
    30% of the window, the sentence break past 30%, or the hard boundary -
    lies strictly beyond the window start, so the scan position advances. *)
Theorem chunk_text_terminates (text : str) (chunk_size : nat) :
  1 <= chunk_size ->
  (exists chunks, chunk_text text chunk_size = Some chunks) /\
  (forall start, start < chunk_end text chunk_size start).
Proof.
  intros Hcs. split.
  - apply (chunk_loop_terminates (S (length text)) text chunk_size 0 []);
      [done|lia].
  - intros start. by apply chunk_end_advances.
Qed.

Lemma chunk_text_terminates_witness :
  1 <= 4 /\
  ((exists chunks, chunk_text (py "ab. cd  efgh") 4 = Some chunks) /\
   (forall start, start < chunk_end (py "ab. cd  efgh") 4 start)).
Proof.
  split; [lia|]. apply (chunk_text_terminates (py "ab. cd  efgh") 4). lia.
Defined.

(** C6. Every chunk the chunker returns has at most [chunk_size]
    characters: every chunk but the last, as the size bound asks, whether or
    not a break point was found in its window, and the last chunk too. *)
Theorem chunk_text_size_bound (text : str) (chunk_size : nat)
    (chunks : list str) :
  chunk_text text chunk_size = Some chunks ->
  Forall (fun chunk => length chunk <= chunk_size) chunks.
Proof. intros Hrun. by apply (chunk_loop_size _ _ _ _ _ _ (Forall_nil_2 _) Hrun). Qed.

Lemma chunk_text_size_bound_witness :
  chunk_text (py "ab. cd  efgh") 4 = Some [py "ab."; py "cd"; py "efg"; py "h"] /\
  Forall (fun chunk => length chunk <= 4) [py "ab."; py "cd"; py "efg"; py "h"].
Proof.
  assert (chunk_text (py "ab. cd  efgh") 4
          = Some [py "ab."; py "cd"; py "efg"; py "h"]) as Hrun
    by (vm_compute; reflexivity).
  split; [exact Hrun|]. exact (chunk_text_size_bound _ _ _ Hrun).
Defined.

(** C7. The chunks cover the text up to trimming: the text is the chunks
    in their order, separated and surrounded by runs of whitespace only, so
    the concatenated chunks and the text have the same non-whitespace
    characters in the same order. *)
Theorem chunk_text_coverage (text : str) (chunk_size : nat)
    (chunks : list str) :
  chunk_text text chunk_size = Some chunks ->
  trimmed_cover chunks text /\
  without_space (concat chunks) = without_space text.
Proof.
  intros Hrun.
  assert (trimmed_cover chunks text) as Hcov.
  { apply (chunk_loop_cover (S (length text)) text chunk_size 0 []);
      [|exact Hrun]. rewrite take_0. constructor. constructor. }
  split; [done|]. by apply cover_without_space.
Qed.

Lemma chunk_text_coverage_witness :
  chunk_text (py "ab. cd  efgh") 4 = Some [py "ab."; py "cd"; py "efg"; py "h"] /\
  (trimmed_cover [py "ab."; py "cd"; py "efg"; py "h"] (py "ab. cd  efgh") /\
   without_space (concat [py "ab."; py "cd"; py "efg"; py "h"])
   = without_space (py "ab. cd  efgh")).
Proof.
  assert (chunk_text (py "ab. cd  efgh") 4
          = Some [py "ab."; py "cd"; py "efg"; py "h"]) as Hrun
    by (vm_compute; reflexivity).
  split; [exact Hrun|]. exact (chunk_text_coverage _ _ _ Hrun).
Defined.

(** ** Extractor *)

Lemma same_domain_links_elem `{Web} (base_url : str) (hrefs links : list str) :
  same_domain_links base_url hrefs = Ok links ->
  forall link,
    link ∈ links <->
    exists href parsed base,
      href ∈ hrefs /\ urljoin base_url href = Ok link /\
      urlparse link = Ok parsed /\ urlparse base_url = Ok base /\
      netloc parsed = netloc base.
Proof.
  revert links. induction hrefs as [|href hrefs IH]; intros links Hrun link.
  { injection Hrun as <-. split.
    - intros Hin. by apply not_elem_of_nil in Hin.
    - intros (href & ? & ? & Hin & _). by apply not_elem_of_nil in Hin. }
  cbn [same_domain_links] in Hrun. unfold mbind, Result_bind in Hrun.
  destruct (urljoin base_url href) as [full_url|] eqn:Hjoin; [|done].
  destruct (urlparse full_url) as [parsed|] eqn:Hparsed; [|done].
  destruct (urlparse base_url) as [base|] eqn:Hbase; [|done].
  destruct (same_domain_links base_url hrefs) as [links'|]; [|done].
  injection Hrun as <-. specialize (IH links' eq_refl link).
  assert (link ∈ links' ->
          exists href0 parsed0 base0,
            href0 ∈ href :: hrefs /\ urljoin base_url href0 = Ok link /\
            urlparse link = Ok parsed0 /\ Ok base = Ok base0 /\
            netloc parsed0 = netloc base0) as Htail.
  { intros (href0 & p0 & b0 & Hin & ?)%IH. exists href0, p0, b0.
    split; [by right|done]. }
  case_bool_decide as Hsame; split.
  - intros [->|Hin]%elem_of_cons; [|by apply Htail].
    exists href, parsed, base. split; [by left|done].
  - intros (href0 & p0 & b0 & [->|Hin]%elem_of_cons & Hj & Hp & Hb & Hn).
    + apply elem_of_cons. left. congruence.
    + apply elem_of_cons. right. apply IH. by exists href0, p0, b0.
  - apply Htail.
  - intros (href0 & p0 & b0 & [->|Hin]%elem_of_cons & Hj & Hp & Hb & Hn).
    + exfalso. apply Hsame. congruence.
    + apply IH. by exists href0, p0, b0.
Qed.

Lemma extract_links_elem `{Web} (html base_url : str) (links : list str) :
  extract_links_from_html html base_url = Ok links ->
  NoDup links /\
  forall link,
    link ∈ links <->
    exists href parsed base,
      href ∈ soup_anchor_hrefs html /\ urljoin base_url href = Ok link /\
      urlparse link = Ok parsed /\ urlparse base_url = Ok base /\
      netloc parsed = netloc base.
Proof.
  unfold extract_links_from_html, mbind, Result_bind. intros Hrun.
  destruct (same_domain_links base_url (soup_anchor_hrefs html))
    as [kept|] eqn:Hkept; [|done].
  injection Hrun as <-. split; [apply NoDup_remove_dups|].
  intros link. rewrite elem_of_remove_dups.
  by apply same_domain_links_elem.
Qed.

(** C5. Every link returned by the link extraction parses, as the base URL
    does, and has the network location (the host, with port and user
    information when present) of the base URL; no link is returned twice.
    The links returned are exactly the anchors' resolved URLs that pass
    this test. (When resolving or parsing a URL raises, the extraction
    raises and returns nothing.) *)
Theorem extract_links_same_host `{Web} (html base_url : str)
    (links : list str) :
  extract_links_from_html html base_url = Ok links ->
  Forall (fun link =>
            exists parsed base,
              urlparse link = Ok parsed /\ urlparse base_url = Ok base /\
              netloc parsed = netloc base) links /\
  NoDup links /\
  (forall link,
     link ∈ links <->
     exists href parsed base,
       href ∈ soup_anchor_hrefs html /\ urljoin base_url href = Ok link /\
       urlparse link = Ok parsed /\ urlparse base_url = Ok base /\
       netloc parsed = netloc base).
Proof.
  intros Hrun. destruct (extract_links_elem html base_url links Hrun)
    as [Hnd Hiff].
  split; [|by split]. apply Forall_forall. intros link Hin.
  apply Hiff in Hin as (href & parsed & base & _ & _ & Hp & Hb & Hn).
  by exists parsed, base.
Qed.

Lemma extract_links_same_host_witness :
  @extract_links_from_html demo_web demo_a demo_a = Ok [demo_a; demo_b] /\
  NoDup [demo_a; demo_b].
Proof.
  assert (@extract_links_from_html demo_web demo_a demo_a
          = Ok [demo_a; demo_b]) as E by (vm_compute; reflexivity).
  split; [exact E|].
  exact (proj1 (proj2 (@extract_links_same_host demo_web demo_a demo_a
                         [demo_a; demo_b] E))).
Defined.

(** A malformed href makes the extraction raise. *)
Example extract_links_bad_href :
  @extract_links_from_html demo_web_bad_href demo_a demo_a
  = Raise (py "Invalid IPv6 URL").
Proof. vm_compute. reflexivity. Qed.

(** ** Store writer *)

Lemma insert_chunk_cases `{Store} (collection : Collection)
    (chunk : ProcessedChunk) :
  insert_chunk collection chunk
  = match add_error collection [content chunk] [embedding chunk]
            [chunk_record_metadata chunk] [chunk_id chunk],
          chunk_record chunk with
    | None, Some record => write_record (chunk_id chunk) record collection
    | _, _ => collection
    end.
Proof.
  unfold insert_chunk, collection_add, chunk_record.
  destruct (add_error _ _ _ _ _); [done|]. cbn [mapM].
  by destruct (stored_metadata (chunk_record_metadata chunk)).
Qed.

Lemma insert_chunk_accepted `{Store} (collection : Collection)
    (chunk : ProcessedChunk) (record : StoreRecord) :
  add_accepted collection chunk record ->
  insert_chunk collection chunk
  = write_record (chunk_id chunk) record collection.
Proof. intros [Herr Hrec]. by rewrite insert_chunk_cases, Herr, Hrec. Qed.

Lemma write_record_lookup_ne `{Store} (id other : str) (record : StoreRecord)
    (c : Collection) :
  other <> id -> write_record id record c !! other = c !! other.
Proof.
  intros Hne. unfold write_record.
  destruct add_existing; [destruct (c !! id); [done|]|];
    by apply lookup_insert_ne.
Qed.

Lemma write_record_fresh `{Store} (id : str) (record : StoreRecord)
    (c : Collection) :
  c !! id = None -> write_record id record c = <[ id := record ]> c.
Proof. intros Hid. unfold write_record. rewrite Hid. by destruct add_existing. Qed.


Lemma insert_chunk_lookup_ne `{Store} (collection : Collection)
    (chunk : ProcessedChunk) (other : str) :
  other <> chunk_id chunk ->
  insert_chunk collection chunk !! other = collection !! other.
Proof.
  intros Hne. rewrite insert_chunk_cases.
  destruct (add_error _ _ _ _ _); [done|].
  destruct (chunk_record chunk); [|done]. by apply write_record_lookup_ne.
Qed.





(** ** Crawl orchestrator *)

Lemma set_pop_spec (choice : nat) (s : list str) :
  s <> [] ->
  exists x s', set_pop choice s = Some (x, s') /\
    x ∈ s /\ (forall y, y ∈ s' -> y ∈ s) /\
    (NoDup s -> NoDup s' /\ x ∉ s').
Proof.
  intros Hne. unfold set_pop.
  assert (choice `mod` length s < length s) as Hlt.
  { apply Nat.mod_upper_bound. by destruct s. }
  destruct (lookup_lt_is_Some_2 s _ Hlt) as [x Hx].
  exists x, (delete (choice `mod` length s) s). rewrite Hx. simpl.
  split; [done|]. split; [by eapply list_elem_of_lookup_2|].
  split; [intros y; apply list_elem_of_delete_inv|].
  intros Hnd. rewrite delete_take_drop.
  rewrite <- (take_drop_middle s _ x Hx) in Hnd.
  apply NoDup_app in Hnd as (H1 & H2 & H3).
  apply NoDup_cons in H3 as [H3 H4].
  split.
  - apply NoDup_app. split; [done|]. split; [|done].
    intros y Hy Hy'. apply (H2 y Hy). by right.
  - intros [Hin|Hin]%elem_of_app; [|done].
    apply (H2 x Hin). by left.
Qed.

Lemma set_add_spec (x : str) (s : list str) :
  (forall y, y ∈ set_add x s <-> y = x \/ y ∈ s) /\ (NoDup s -> NoDup (set_add x s)).
Proof.
  unfold set_add. case_bool_decide as Hin.
  - split; [|done]. intros y. split; [by right|]. by intros [->|?].
  - split.
    + intros y. rewrite elem_of_app, list_elem_of_singleton. tauto.
    + intros Hnd. apply NoDup_app. split; [done|]. split.
      * intros y Hy ->%list_elem_of_singleton. done.
      * apply NoDup_singleton.
Qed.

Lemma enqueue_links_spec (visited queued new_links : list str) :
  (forall y, y ∈ enqueue_links visited queued new_links ->
             y ∈ queued \/ y ∉ visited) /\
  (NoDup queued -> NoDup (enqueue_links visited queued new_links)).
Proof.
  unfold enqueue_links. revert queued.
  induction new_links as [|link links IH]; intros queued; simpl.
  - split; [by left|done].
  - case_bool_decide as Hv; [apply IH|].
    destruct (IH (set_add link queued)) as [IH1 IH2].
    destruct (set_add_spec link queued) as [S1 S2].
    split.
    + intros y Hy. destruct (IH1 y Hy) as [Hq|?]; [|by right].
      apply S1 in Hq as [->|?]; [by right|by left].
    + intros Hnd. by apply IH2, S2.
Qed.

(** *** Processing a page *)

Lemma process_chunk_raise `{Models} `{Web} (chunk url e : str) (i : nat) :
  urlparse url = Raise e -> process_chunk chunk i url = Raise e.
Proof.
  intros Hparse.
  unfold process_chunk, get_title_and_content, mbind, Result_bind.
  by rewrite Hparse.
Qed.

Lemma process_chunk_parsed `{Models} `{Web} (chunk page_url : str) (i : nat)
    (parsed : ParsedUrl) :
  urlparse page_url = Ok parsed ->
  process_chunk chunk i page_url = Ok (processed_chunk parsed chunk i page_url).
Proof.
  intros Hparse.
  unfold process_chunk, get_title_and_content, mbind, Result_bind.
  rewrite Hparse. reflexivity.
Qed.

Lemma gather_raise {A} (tasks : list (Result A)) (e : str) :
  gather tasks = Raise e -> Raise e ∈ tasks.
Proof.
  induction tasks as [|task tasks IH]; [done|]. cbn [gather].
  destruct task as [a|e']; [|intros [= ->]; by left].
  destruct (gather tasks); [done|]. intros [= ->]. right. by apply IH.
Qed.

Lemma gather_imap_ok {A B} (f : nat -> A -> Result B) (g : nat -> A -> B)
    (xs : list A) :
  (forall i x, f i x = Ok (g i x)) -> gather (imap f xs) = Ok (imap g xs).
Proof.
  revert f g. induction xs as [|x xs IH]; intros f g Hf; [done|].
  cbn [imap gather]. rewrite Hf.
  rewrite (IH (f ∘ S) (g ∘ S)); [done|]. intros i y. apply Hf.
Qed.

Lemma process_and_store_document_total `{Store} `{Web}
    (collection : Collection) (url content : str) :
  exists chunks,
    chunk_text content default_chunk_size = Some chunks /\
    process_and_store_document collection url content
    = Some (processed_chunks ←
              gather (imap (fun i chunk => process_chunk chunk i url) chunks);
            Ok (foldl insert_chunk collection processed_chunks,
                length processed_chunks)).
Proof.
  unfold process_and_store_document.
  destruct (chunk_loop_terminates (S (length content)) content
              default_chunk_size 0 []) as [chunks Hchunks];
    [unfold default_chunk_size; lia|lia|].
  exists chunks. unfold chunk_text, chunk_text_fuel. by rewrite Hchunks.
Qed.

Lemma process_and_store_document_raise `{Store} `{Web}
    (collection : Collection) (url content e : str) :
  process_and_store_document collection url content = Some (Raise e) ->
  urlparse url = Raise e.
Proof.
  destruct (process_and_store_document_total collection url content)
    as (chunks & _ & ->).
  unfold mbind, Result_bind. intros [= Hrun].
  destruct (gather _) as [processed|e'] eqn:Hgather; [done|].
  injection Hrun as ->. apply gather_raise in Hgather.
  apply list_elem_of_lookup in Hgather as [i Hi].
  rewrite list_lookup_imap in Hi.
  destruct (chunks !! i) as [chunk|]; [|done]. injection Hi as Hi.
  destruct (urlparse url) as [parsed|e'] eqn:Hparse.
  - rewrite (process_chunk_parsed chunk url i parsed Hparse) in Hi. done.
  - rewrite (process_chunk_raise chunk url e' i Hparse) in Hi. congruence.
Qed.

Lemma extract_links_raise `{Web} (html base_url e : str) :
  extract_links_from_html html base_url = Raise e -> url_error e.
Proof.
  unfold extract_links_from_html, mbind, Result_bind.
  destruct (same_domain_links base_url (soup_anchor_hrefs html))
    as [links|e'] eqn:Hlinks; [done|].
  intros [= ->]. revert Hlinks.
  induction (soup_anchor_hrefs html) as [|href hrefs IH]; [done|].
  cbn [same_domain_links]. unfold mbind, Result_bind.
  destruct (urljoin base_url href) as [full_url|e1] eqn:Hjoin;
    [|intros [= ->]; right; by exists base_url, href].
  destruct (urlparse full_url) as [parsed|e1] eqn:Hparsed;
    [|intros [= ->]; left; by exists full_url].
  destruct (urlparse base_url) as [base|e1] eqn:Hbase;
    [|intros [= ->]; left; by exists base_url].
  destruct (same_domain_links base_url hrefs); [done|].
  intros [= ->]. by apply IH.
Qed.

(** *** One iteration and the loop *)

Lemma store_pages_snoc `{Store} `{Web} (collection : Collection)
    (urls : list str) (url : str) :
  store_pages collection (urls ++ [url])
  = store_pages (store_pages collection urls) [url].
Proof. unfold store_pages. by rewrite foldl_app. Qed.

Lemma stored_ok_visit `{Store} `{Web} (collection0 : Collection)
    (st st' : CrawlState) (u : str) :
  stored_ok collection0 st ->
  visited_urls st' = visited_urls st ++ [u] ->
  (if indexed_page u
   then processed_count st' = processed_count st + 1 /\
        crawl_collection st' = store_pages (crawl_collection st) [u]
   else processed_count st' = processed_count st /\
        crawl_collection st' = crawl_collection st) ->
  stored_ok collection0 st'.
Proof.
  intros [Hcount Hcoll] Hvis Hnew. unfold stored_ok.
  rewrite Hvis, filter_app. destruct (indexed_page u) eqn:Hidx.
  - rewrite (filter_cons_True _ u) by done. rewrite filter_nil.
    destruct Hnew as [-> ->]. rewrite length_app, store_pages_snoc.
    by rewrite <- Hcount, <- Hcoll.
  - rewrite (filter_cons_False _ u) by by rewrite Hidx.
    rewrite filter_nil, app_nil_r. by destruct Hnew as [-> ->].
Qed.

(** One iteration visits one new URL and keeps the frontier invariant,
    however it ends; when it completes it keeps the account of what was
    processed, and when it does not, the exception is one of [urljoin] or
    [urlparse]. *)
Lemma crawl_iteration_spec `{Store} `{Web} (collection0 : Collection)
    (max_pages iteration : nat) (st : CrawlState) :
  frontier_ok st ->
  crawl_continues max_pages st = true ->
  exists out, crawl_iteration iteration st = Some out /\
    frontier_ok (outcome_state out) /\
    length (visited_urls (outcome_state out)) = S (length (visited_urls st)) /\
    (forall st', out = Completed st' ->
       stored_ok collection0 st -> stored_ok collection0 st') /\
    (forall e st', out = Uncaught e st' -> url_error e).
Proof.
  intros (Hv & Hq & Hdisj) Hcont.
  unfold crawl_continues in Hcont. apply andb_true_iff in Hcont as [Hne _].
  apply bool_decide_eq_true in Hne.
  destruct (set_pop_spec (pop_choice iteration) _ Hne)
    as (current_url & queued & Hpop & Hin & Hsub & Hnd).
  destruct (Hnd Hq) as [Hq' Hfresh]. clear Hnd.
  unfold crawl_iteration. rewrite Hpop. simpl.
  rewrite bool_decide_eq_false_2 by by apply Hdisj.
  assert (NoDup (visited_urls st ++ [current_url])) as Hv'.
  { apply NoDup_app. split; [done|]. split; [|apply NoDup_singleton].
    intros y Hy Heq%list_elem_of_singleton. subst y.
    by apply (Hdisj current_url). }
  assert (forall u, u ∈ queued -> u ∉ visited_urls st ++ [current_url]) as Hd'.
  { intros u Hu [Hu'|Heq%list_elem_of_singleton]%elem_of_app.
    - by apply (Hdisj u (Hsub u Hu)).
    - by subst u. }
  assert (forall new_links,
            NoDup (enqueue_links (visited_urls st ++ [current_url]) queued
                     new_links) /\
            (forall u,
               u ∈ enqueue_links (visited_urls st ++ [current_url]) queued
                     new_links ->
               u ∉ visited_urls st ++ [current_url])) as Henq.
  { intros new_links.
    destruct (enqueue_links_spec (visited_urls st ++ [current_url]) queued
                new_links) as [E1 E2].
    split; [by apply E2|]. intros u Hu.
    destruct (E1 u Hu) as [?|?]; [by apply Hd'|done]. }
  assert (forall q n c, length (visited_urls
            {| visited_urls := visited_urls st ++ [current_url];
               queued_urls := q; processed_count := n;
               crawl_collection := c |}) = S (length (visited_urls st)))
    as Hlen.
  { intros q n c. cbn. by rewrite length_app, Nat.add_1_r. }
  pose proof (eq_refl (indexed_page current_url)) as Hidx.
  unfold indexed_page in Hidx at 1. unfold page_text in Hidx.
  destruct (fetch_url current_url) as [[|c html]|] eqn:Hfetch.
  - eexists. split; [done|]. split; [done|]. split; [apply (Hlen _ _ _)|].
    split; [|done]. intros st' [= <-] Hstored.
    eapply (stored_ok_visit _ st _ current_url); [done|done|].
    by rewrite <- Hidx.
  - set (text_content := extract_text_from_html (c :: html)) in *.
    destruct (500 <? length text_content) eqn:Hlong.
    + destruct (process_and_store_document_total (crawl_collection st)
                  current_url text_content) as (chunks & _ & Hr).
      destruct (process_and_store_document (crawl_collection st) current_url
                  text_content) as [[[collection' n]|e]|] eqn:Hrun;
        [| |done]; cbn [mbind option_bind Result_bind fst snd].
      * destruct (extract_links_from_html (c :: html) current_url)
          as [new_links|e] eqn:Hlinks.
        -- eexists. split; [done|]. split; [split; [done|apply Henq]|].
           split; [apply (Hlen _ _ _)|]. split; [|done]. intros st' [= <-] Hstored.
           eapply (stored_ok_visit _ st _ current_url); [done|done|].
           rewrite <- Hidx. cbn [processed_count crawl_collection].
           split; [done|].
           unfold store_pages. cbn [foldl]. unfold page_text. rewrite Hfetch.
           fold text_content. by rewrite Hrun.
        -- eexists. split; [done|]. split; [done|]. split; [apply (Hlen _ _ _)|].
           split; [done|]. intros e' st' [= <- _].
           by eapply extract_links_raise.
      * eexists. split; [done|]. split; [done|]. split; [apply (Hlen _ _ _)|].
        split; [done|]. intros e' st' [= <- _]. left. exists current_url.
        by eapply process_and_store_document_raise.
    + cbn [mbind option_bind].
      destruct (extract_links_from_html (c :: html) current_url)
        as [new_links|e] eqn:Hlinks.
      * eexists. split; [done|]. split; [split; [done|apply Henq]|].
        split; [apply (Hlen _ _ _)|]. split; [|done]. intros st' [= <-] Hstored.
        eapply (stored_ok_visit _ st _ current_url); [done|done|].
        by rewrite <- Hidx.
      * eexists. split; [done|]. split; [done|]. split; [apply (Hlen _ _ _)|].
        split; [done|]. intros e' st' [= <- _].
        by eapply extract_links_raise.
  - eexists. split; [done|]. split; [done|]. split; [apply (Hlen _ _ _)|].
    split; [|done]. intros st' [= <-] Hstored.
    eapply (stored_ok_visit _ st _ current_url); [done|done|].
    by rewrite <- Hidx.
Qed.


(** The loop ends, with fuel to spare: it completes with its condition
    false, or an exception of [urljoin] or [urlparse] ends it. *)
Lemma crawl_loop_spec `{Store} `{Web} (collection0 : Collection)
    (fuel max_pages iteration : nat) (st : CrawlState) :
  frontier_ok st -> stored_ok collection0 st ->
  length (visited_urls st) <= max_pages ->
  max_pages - length (visited_urls st) < fuel ->
  exists out, crawl_loop fuel max_pages iteration st = Some out /\
    frontier_ok (outcome_state out) /\
    length (visited_urls (outcome_state out)) <= max_pages /\
    match out with
    | Completed st' =>
      stored_ok collection0 st' /\ crawl_continues max_pages st' = false
    | Uncaught e _ => url_error e
    end.
Proof.
  revert iteration st.
  induction fuel as [|fuel IH]; intros iteration st Hf Hs Hlen Hfuel; [lia|].
  cbn [crawl_loop]. destruct (crawl_continues max_pages st) eqn:Hcont.
  - destruct (crawl_iteration_spec collection0 max_pages iteration st Hf Hcont)
      as (out & -> & Hf1 & Hlen1 & Hs1 & He1).
    unfold crawl_continues in Hcont.
    apply andb_true_iff in Hcont as [_ Hlt%Nat.ltb_lt].
    destruct out as [st1|e st1]; cbn [outcome_state] in *.
    + apply IH; [done|by apply Hs1|lia|lia].
    + exists (Uncaught e st1). split; [done|]. split; [done|].
      split; [cbn [outcome_state]; lia|]. by eapply He1.
  - by exists (Completed st).
Qed.

Lemma crawl_start_ok `{Store} `{Web} (collection : Collection) (start_url : str) :
  frontier_ok (crawl_start collection start_url) /\
  stored_ok collection (crawl_start collection start_url).
Proof.
  split; [|done]. split; [apply NoDup_nil_2|]. split; [apply NoDup_singleton|].
  intros u _. apply not_elem_of_nil.
Qed.

Lemma crawl_final_spec `{Store} `{Web} (collection : Collection)
    (start_url : str) (max_pages : nat) :
  exists out, crawl_final collection start_url max_pages = Some out /\
    frontier_ok (outcome_state out) /\
    length (visited_urls (outcome_state out)) <= max_pages /\
    match out with
    | Completed st' =>
      stored_ok collection st' /\ crawl_continues max_pages st' = false
    | Uncaught e _ => url_error e
    end.
Proof.
  destruct (crawl_start_ok collection start_url) as [Hf Hs].
  apply (crawl_loop_spec collection (S max_pages) max_pages 0 _ Hf Hs);
    simpl; lia.
Qed.

(** *** The crawl's properties *)


Example crawl_demo :
  (fun out => (visited_urls (outcome_state out), queued_urls (outcome_state out),
               processed_count (outcome_state out))) <$>
    @crawl_final (demo_models []) (demo_store _ KeepExisting) demo_web ∅ demo_a 5
  = Some ([demo_a; demo_b; demo_c], [], 1).
Proof. vm_compute. reflexivity. Qed.

Example crawl_demo_capped :
  (fun out => (visited_urls (outcome_state out), queued_urls (outcome_state out),
               processed_count (outcome_state out))) <$>
    @crawl_final (demo_models []) (demo_store _ KeepExisting) demo_web ∅ demo_a 2
  = Some ([demo_a; demo_b], [demo_c], 1).
Proof. vm_compute. reflexivity. Qed.

(** A page whose title comes back [null] is counted although the store
    refuses every one of its records. *)
Example crawl_demo_null_title :
  @crawl_website (demo_models null_title_reply) (demo_store _ KeepExisting)
    demo_web_null_title ∅ demo_a 5
  = Some (Ok 1, ∅).
Proof. vm_compute. reflexivity. Qed.

(** A page with a malformed href ends the crawl: the page has been visited
    and processed, its links are lost and no count is returned. *)
Example crawl_demo_bad_href :
  fst <$> @crawl_website (demo_models []) (demo_store _ KeepExisting)
            demo_web_bad_href ∅ demo_a 5
  = Some (Raise (py "Invalid IPv6 URL")) /\
  (fun out => (visited_urls (outcome_state out), queued_urls (outcome_state out),
               processed_count (outcome_state out))) <$>
    @crawl_final (demo_models []) (demo_store _ KeepExisting)
      demo_web_bad_href ∅ demo_a 5
  = Some ([demo_a], [], 1).
Proof. split; vm_compute; reflexivity. Qed.



(** ** Query assembler *)

Lemma collection_query_empty `{Store} (query_embedding : list float)
    (num_results : nat) :
  query_error ∅ [query_embedding] num_results = None ->
  collection_query ∅ [query_embedding] num_results
  = Ok {| documents := [[]]; metadatas := [[]] |}.
Proof.
  intros Herr. unfold collection_query. rewrite Herr, map_to_list_empty.
  simpl. by rewrite take_nil.
Qed.

(** C1, as the code has it. With no record in the store, and the
    embedding, retrieval and generation calls returning, the query returns
    no sources and the canned "no relevant information" answer followed by
    the disclaimer. The generation service is called all the same, once,
    with a prompt that says no reference was found; its reply is not used. *)
Theorem query_empty_store `{Store} (query : str)
    (chat_history : list ChatTurn) (num_results : nat)
    (query_embedding : list float) (answer_raw : str) :
  aembed_query query = Ok query_embedding ->
  query_error ∅ [query_embedding] num_results = None ->
  llm_invoke (build_prompt [] query chat_history) = Ok answer_raw ->
  query_rag_system ∅ query chat_history num_results
  = ({| answer := no_information_text ++ BSN ++ BSN ++ disclaimer_text;
        sources := [] |},
     [EmbedQuery query; StoreQuery num_results;
      Generate (build_prompt [] query chat_history)]) /\
  generation_calls (query_rag_system ∅ query chat_history num_results).2 = 1.
Proof.
  intros Hembed Hquery Hllm.
  assert (query_rag_system ∅ query chat_history num_results
  = ({| answer := no_information_text ++ BSN ++ BSN ++ disclaimer_text;
        sources := [] |},
     [EmbedQuery query; StoreQuery num_results;
      Generate (build_prompt [] query chat_history)])) as E.
  { unfold query_rag_system, query_rag_try, mbind, M_bind, call.
    rewrite Hembed, collection_query_empty by done.
    cbn -[build_prompt no_information_text disclaimer_text BSN].
    rewrite Hllm. reflexivity. }
  split; [exact E|]. rewrite E. reflexivity.
Qed.

(** C1 as worded fails: on an empty store the generation service is
    called. *)
Lemma query_empty_store_invokes_generation :
  ~ empty_store_claim (demo_models (py "สวัสดีค่ะ"))
      (demo_store (demo_models (py "สวัสดีค่ะ")) KeepExisting)
      (py "เบาหวานควรกินอะไร") [] 3.
Proof. intros (_ & _ & Hcalls). vm_compute in Hcalls. discriminate. Qed.

(** *** The disclaimer *)

Lemma startswith_app_sep (p a b : str) (c : N) :
  c ∉ p -> p <> [] -> startswith p (a ++ c :: b) = startswith p a.
Proof.
  intros Hc Hp. revert a. induction p as [|x p IH]; [done|].
  intros [|y a]; simpl.
  - apply andb_false_iff. left. apply N.eqb_neq. intros ->. apply Hc. by left.
  - destruct p as [|x' p'].
    + by destruct a.
    + rewrite IH; [done| |done]. intros Hin. apply Hc. by right.
Qed.

Lemma occurrences_app_sep (p a b : str) (c : N) :
  c ∉ p -> p <> [] ->
  occurrences p (a ++ c :: b) = occurrences p a + occurrences p b.
Proof.
  intros Hc Hp. induction a as [|y a IH].
  - pose proof (startswith_app_sep p [] b c Hc Hp) as E.
    cbn [app occurrences] in *. rewrite E.
    destruct p; [done|]. reflexivity.
  - change ((y :: a) ++ c :: b) with (y :: (a ++ c :: b)).
    cbn [occurrences]. rewrite IH.
    change (y :: a ++ c :: b) with ((y :: a) ++ c :: b).
    rewrite (startswith_app_sep p (y :: a) b c Hc Hp). lia.
Qed.

Lemma disclaimer_no_backslash : 92%N ∉ disclaimer_text.
Proof.
  apply (bool_decide_eq_false_1 (92%N ∈ disclaimer_text)).
  vm_compute. reflexivity.
Qed.

(** Where stripping leaves no copy of the disclaimer behind, the final
    answer holds exactly the one that is appended. *)
Lemma postprocess_answer_disclaimers (answer_raw : str)
    (context_parts : list str) :
  occurrences disclaimer_text (strip (replace answer_raw disclaimer_text [])) = 0 ->
  occurrences disclaimer_text (postprocess_answer answer_raw context_parts) = 1.
Proof.
  intros Hclean. unfold postprocess_answer.
  set (processed := strip (replace answer_raw disclaimer_text [])) in *.
  assert (forall t : str, occurrences disclaimer_text t = 0 ->
            occurrences disclaimer_text (t ++ BSN ++ BSN ++ disclaimer_text) = 1)
    as Happend.
  { intros t Ht.
    change (t ++ BSN ++ BSN ++ disclaimer_text)
      with (t ++ 92%N :: (110%N :: BSN ++ disclaimer_text)).
    rewrite occurrences_app_sep, Ht;
      [|apply disclaimer_no_backslash|by vm_compute].
    vm_compute. reflexivity. }
  destruct (bool_decide (processed = []) ||
            bool_decide (processed = strip disclaimer_text)).
  - destruct context_parts; apply Happend; vm_compute; reflexivity.
  - by apply Happend.
Qed.

(** C2 at a failing input. The reply is not empty and holds one literal
    copy of the disclaimer, placed after the first character of another;
    [replace] removes that copy in its single pass and the two halves left
    behind join into a new copy, which is kept. The final answer then holds
    two copies: the one left in the text and the one appended. *)
Theorem disclaimer_twice_on_nested_reply :
  nested_disclaimer_reply <> [] /\
  occurrences disclaimer_text nested_disclaimer_reply = 1 /\
  occurrences disclaimer_text
    (answer (@query_rag_system (demo_models nested_disclaimer_reply)
               (demo_store (demo_models nested_disclaimer_reply) KeepExisting)
               (demo_collection nested_disclaimer_reply)
               (py "เบาหวานควรกินอะไร") []
               default_num_results).1) = 2.
Proof. split; [by vm_compute|]. split; vm_compute; reflexivity. Qed.

(** *** The history in the prompt *)

Lemma collect_context_log (results : QueryResult) (log : list Event) :
  (collect_context results log).2 = log.
Proof.
  unfold collect_context. destruct (found_documents results); [|done].
  by destruct (documents results), (metadatas results).
Qed.

Lemma query_rag_system_prompt `{Store} (collection : Collection)
    (query : str) (chat_history : list ChatTurn) (num_results : nat)
    (prompt : str) :
  Generate prompt ∈ (query_rag_system collection query chat_history num_results).2 ->
  exists context_parts,
    prompt = build_prompt (join BSN context_parts) query chat_history.
Proof.
  unfold query_rag_system, query_rag_try, mbind, M_bind, call.
  destruct (aembed_query query) as [query_embedding|e]; simpl.
  2:{ intros Hin. apply list_elem_of_singleton in Hin. done. }
  unfold collection_query.
  destruct (query_error collection [query_embedding] num_results) as [e|];
    simpl.
  { intros Hin.
    repeat (apply elem_of_cons in Hin as [Hin|Hin]; [by simplify_eq|]).
    by apply not_elem_of_nil in Hin. }
  set (results := {| documents := _; metadatas := _ |}).
  pose proof (collect_context_log results
                [EmbedQuery query; StoreQuery num_results]) as Hlog.
  destruct (collect_context results [EmbedQuery query; StoreQuery num_results])
    as [[[context_parts sources]|e] log].
  - simpl in Hlog. subst log.
    destruct (llm_invoke _) as [answer_raw|e]; simpl.
    + destruct (negb (found_documents results)); simpl;
        intros Hin; exists context_parts;
        repeat (apply elem_of_cons in Hin as [Hin|Hin]; [by simplify_eq|]);
        by apply not_elem_of_nil in Hin.
    + intros Hin; exists context_parts;
        repeat (apply elem_of_cons in Hin as [Hin|Hin]; [by simplify_eq|]);
        by apply not_elem_of_nil in Hin.
  - simpl in Hlog. subst log. simpl. intros Hin.
    repeat (apply elem_of_cons in Hin as [Hin|Hin]; [by simplify_eq|]).
    by apply not_elem_of_nil in Hin.
Qed.

Lemma prompt_parts_assoc {A} (a b s f x c q : list A) :
  (a ++ b) ++ (s ++ s) ++ (f ++ x ++ s ++ c) ++ (s ++ s) ++ s ++ q
  = (a ++ b ++ s ++ s ++ f) ++ (x ++ s ++ c ++ (s ++ s) ++ s ++ q).
Proof. by rewrite <- !(assoc (++)). Qed.

Lemma build_prompt_history_prefix (context query : str)
    (chat_history : list ChatTurn) :
  exists rest,
    build_prompt context query chat_history
    = (py "System: " ++ system_prompt ++ BSN ++ BSN ++
       formatted_chat_history chat_history) ++ rest.
Proof. eexists. unfold build_prompt. cbv zeta. cbn [join]. apply prompt_parts_assoc. Qed.

(** C9 as worded fails: passed five turns, the query puts all five in the
    prompt, the first one included. *)
Lemma query_all_history_in_prompt :
  ~ last_four_claim (demo_models (py "สวัสดีค่ะ"))
      (demo_store (demo_models (py "สวัสดีค่ะ")) KeepExisting)
      ∅ (py "q4") demo_history 3.
Proof.
  intros Hclaim.
  destruct (Hclaim (build_prompt [] (py "q4") demo_history)) as [context E].
  { apply list_elem_of_In. vm_compute. right. right. left. reflexivity. }
  destruct (build_prompt_history_prefix context (py "q4")
              (last_turns 4 demo_history)) as [rest E'].
  rewrite E' in E. clear E'.
  apply (f_equal (take (length (py "System: " ++ system_prompt ++ BSN ++ BSN ++
                    formatted_chat_history (last_turns 4 demo_history))))) in E.
  rewrite take_app_length in E.
  apply (bool_decide_eq_false_1 _ (Decision0 := list_eq_dec _ _)) in E; [done|].
  vm_compute. reflexivity.
Qed.

Lemma chat_history_for_rag_last_four (messages : list SessionMessage)
    (query : str) :
  chat_history_for_rag
    (messages ++ [{| msg_role := py "user"; msg_content := query;
                     msg_sources := None |}])
  = history_entry <$> last_turns 4 messages.
Proof.
  unfold chat_history_for_rag, last_turns.
  rewrite length_app, Nat.add_1_r, Nat.sub_1_r. simpl.
  by rewrite take_app_length.
Qed.

Lemma last_turns_length {A} (n : nat) (history : list A) :
  length (last_turns n history) = n `min` length history.
Proof. unfold last_turns. rewrite length_drop. lia. Qed.

Lemma last_turns_suffix {A} (n : nat) (history : list A) :
  history = take (length history - n) history ++ last_turns n history.
Proof. unfold last_turns. by rewrite take_drop. Qed.

(** C9, as the code has it. The query operation labels every turn of the
    history it is passed and puts all of them in the prompt, in order, under
    the history heading; it does not shorten the history. The chat front end
    is what keeps the last four: the history it passes is the last
    [min 4 n] of the [n] turns before the current question, so the prompt of
    a question asked in the chat shows exactly those. *)
Theorem prompt_history `{Store} (collection : Collection) (query : str)
    (num_results : nat) :
  (forall (chat_history : list ChatTurn) (prompt : str),
     Generate prompt ∈
       (query_rag_system collection query chat_history num_results).2 ->
     exists context_parts,
       prompt = build_prompt (join BSN context_parts) query chat_history) /\
  (forall (turn : ChatTurn) (chat_history : list ChatTurn),
     formatted_chat_history (turn :: chat_history)
     = join BSN (py "ประวัติการสนทนาก่อนหน้า:" ::
                 (history_line <$> turn :: chat_history)) ++ BSN ++ BSN) /\
  (forall (messages : list SessionMessage) (prompt : str),
     Generate prompt ∈ (render_chat_input collection messages query).2 ->
     exists context_parts,
       prompt = build_prompt (join BSN context_parts) query
                  (history_entry <$> last_turns 4 messages)) /\
  (forall messages : list SessionMessage,
     length (last_turns 4 messages) = 4 `min` length messages /\
     messages = take (length messages - 4) messages ++ last_turns 4 messages).
Proof.
  split_and!.
  - intros chat_history prompt. apply query_rag_system_prompt.
  - done.
  - intros messages prompt. unfold render_chat_input. cbn [snd].
    rewrite chat_history_for_rag_last_four. apply query_rag_system_prompt.
  - intros messages. split; [apply last_turns_length|apply last_turns_suffix].
Qed.

Lemma query_empty_store_witness :
  let models := demo_models (py "สวัสดีค่ะ") in
  let store := demo_store models KeepExisting in
  @aembed_query models (py "เบาหวานควรกินอะไร") = Ok [1%Z; 2%Z] /\
  @query_error models store ∅ [[1%Z; 2%Z]] 3 = None /\
  @llm_invoke models (build_prompt [] (py "เบาหวานควรกินอะไร") [])
  = Ok (py "สวัสดีค่ะ") /\
  generation_calls
    (@query_rag_system models store ∅ (py "เบาหวานควรกินอะไร") [] 3).2 = 1.
Proof.
  intros models store. split; [reflexivity|]. split; [reflexivity|].
  split; [reflexivity|].
  exact (proj2 (@query_empty_store models store (py "เบาหวานควรกินอะไร") [] 3
                  [1%Z; 2%Z] (py "สวัสดีค่ะ") eq_refl eq_refl eq_refl)).
Defined.

(* ===================================================================== *)
(** * Part III - further properties of the code *)
(* ===================================================================== *)

(** ** Chunker: edge cases and the shape of a chunk *)

(** X1. A non-empty text that fits in one window is returned as one chunk, the
    trimmed text; the chunk is kept even when trimming leaves it empty. *)
Theorem chunk_text_single_window (text : str) (chunk_size : nat) :
  0 < length text -> length text <= chunk_size ->
  chunk_text text chunk_size = Some [strip text].
Proof.
  intros Hpos Hfit. unfold chunk_text, chunk_text_fuel. cbn [chunk_loop].
  rewrite (proj2 (Nat.ltb_lt _ _) Hpos).
  rewrite (proj2 (Nat.leb_le _ _)) by (simpl; lia). reflexivity.
Qed.

Lemma chunk_text_single_window_witness :
  0 < length (py "  short text ") /\ length (py "  short text ") <= 1500 /\
  chunk_text (py "  short text ") 1500 = Some [py "short text"].
Proof.
  assert (0 < length (py "  short text ")) as Hpos by (vm_compute; lia).
  assert (length (py "  short text ") <= 1500) as Hfit
    by (apply Nat.leb_le; vm_compute; reflexivity).
  split; [exact Hpos|]. split; [exact Hfit|].
  exact (chunk_text_single_window _ _ Hpos Hfit).
Defined.

(** X2. With [chunk_size = 0] the loop never advances: on a non-empty text no
    amount of fuel lets it return. *)
Theorem chunk_text_size_zero_diverges (text : str) (fuel : nat) :
  text <> [] -> chunk_text_fuel fuel text 0 = None.
Proof.
  intros Hne. apply chunk_loop_diverges. destruct text; [done|simpl; lia].
Qed.

Lemma chunk_text_size_zero_diverges_witness :
  py "abc" <> [] /\ chunk_text_fuel 1000 (py "abc") 0 = None.
Proof.
  assert (py "abc" <> []) as Hne by (vm_compute; discriminate).
  split; [exact Hne|]. exact (chunk_text_size_zero_diverges _ _ Hne).
Defined.

Lemma lstrip_trimmed (s : str) : lstrip (lstrip s) = lstrip s.
Proof.
  induction s as [|c s IH]; [done|]. cbn [lstrip].
  destruct (isspace c) eqn:Hc; [done|]. cbn [lstrip]. by rewrite Hc.
Qed.

Lemma lstrip_snoc_nonspace (s : str) (c : N) :
  isspace c = false -> lstrip (s ++ [c]) = lstrip s ++ [c].
Proof.
  intros Hc. induction s as [|d s IH]; simpl; [by rewrite Hc|].
  by destruct (isspace d).
Qed.

Lemma rstrip_trimmed (s : str) : rstrip (rstrip s) = rstrip s.
Proof.
  unfold rstrip. by rewrite reverse_involutive, lstrip_trimmed.
Qed.

Lemma rstrip_cons_nonspace (c : N) (s : str) :
  isspace c = false -> rstrip (c :: s) = c :: rstrip s.
Proof.
  intros Hc. unfold rstrip.
  by rewrite reverse_cons, lstrip_snoc_nonspace, reverse_app.
Qed.

Lemma lstrip_rstrip (s : str) : lstrip s = s -> lstrip (rstrip s) = rstrip s.
Proof.
  destruct s as [|c s]; [done|]. cbn [lstrip].
  destruct (isspace c) eqn:Hc.
  - intros E. pose proof (lstrip_length s) as Hlen. rewrite E in Hlen.
    simpl in Hlen. lia.
  - intros _. rewrite rstrip_cons_nonspace by done. cbn [lstrip].
    by rewrite Hc.
Qed.

Lemma strip_trimmed (s : str) : strip (strip s) = strip s.
Proof.
  unfold strip. rewrite (lstrip_rstrip (lstrip s)) by apply lstrip_trimmed.
  apply rstrip_trimmed.
Qed.

Lemma chunk_loop_trimmed (fuel : nat) (text : str) (chunk_size start : nat)
    (chunks out : list str) :
  Forall (fun chunk => strip chunk = chunk /\ chunk <> []) chunks ->
  chunk_loop fuel text chunk_size start chunks = Some out ->
  exists front final,
    out = front ++ final /\ length final <= 1 /\
    Forall (fun chunk => strip chunk = chunk /\ chunk <> []) front /\
    Forall (fun chunk => strip chunk = chunk) final.
Proof.
  revert start chunks.
  induction fuel as [|fuel IH]; intros start chunks Hall; [done|].
  cbn [chunk_loop]. destruct (start <? length text).
  - destruct (length text <=? start + chunk_size).
    + intros [= <-]. exists chunks, [strip (slice_from text start)].
      split_and!; [done|simpl; lia|done|].
      apply Forall_singleton, strip_trimmed.
    + apply IH. case_bool_decide as Hempty; [done|].
      apply Forall_app. split; [done|]. apply Forall_singleton.
      split; [apply strip_trimmed|done].
  - intros [= <-]. exists chunks, []. rewrite app_nil_r.
    split_and!; [done|simpl; lia|done|constructor].
Qed.

(** X3. Every chunk returned is trimmed, and only the last one can be empty. *)
Theorem chunk_text_chunks_trimmed (text : str) (chunk_size : nat)
    (chunks : list str) :
  chunk_text text chunk_size = Some chunks ->
  Forall (fun chunk => strip chunk = chunk) chunks /\
  (forall i chunk, chunks !! i = Some chunk -> i + 1 < length chunks ->
                   chunk <> []).
Proof.
  intros Hrun.
  destruct (chunk_loop_trimmed _ _ _ _ _ _ (Forall_nil_2 _) Hrun)
    as (front & final & -> & Hlen & Hfront & Hfinal).
  split.
  - apply Forall_app. split; [|done].
    eapply Forall_impl; [exact Hfront|]. by intros chunk [? _].
  - intros i chunk Hi Hlt. rewrite length_app in Hlt. unfold str in *.
    rewrite lookup_app_l in Hi by lia.
    by apply (Forall_lookup_1 _ _ _ _ Hfront) in Hi as [_ ?].
Qed.

Lemma chunk_text_chunks_trimmed_witness :
  chunk_text (py "ab. cd  efgh") 4 = Some [py "ab."; py "cd"; py "efg"; py "h"] /\
  Forall (fun chunk => strip chunk = chunk)
    [py "ab."; py "cd"; py "efg"; py "h"].
Proof.
  assert (chunk_text (py "ab. cd  efgh") 4
          = Some [py "ab."; py "cd"; py "efg"; py "h"]) as Hrun
    by (vm_compute; reflexivity).
  split; [exact Hrun|]. exact (proj1 (chunk_text_chunks_trimmed _ _ _ Hrun)).
Defined.

(** ** Crawl orchestrator: what the frontier holds *)

Lemma set_pop_elem (choice : nat) (s s' : list str) (x : str) :
  set_pop choice s = Some (x, s') ->
  x ∈ s /\ (forall y, y ∈ s -> y = x \/ y ∈ s') /\ (forall y, y ∈ s' -> y ∈ s).
Proof.
  unfold set_pop. intros Hpop.
  destruct (s !! (choice `mod` length s)) as [x'|] eqn:Hx; [|done].
  simpl in Hpop. injection Hpop as -> <-.
  split; [by eapply list_elem_of_lookup_2|].
  split; [|intros y; apply list_elem_of_delete_inv].
  intros y Hy. rewrite <- (take_drop_middle s _ x Hx) in Hy.
  rewrite delete_take_drop.
  apply elem_of_app in Hy as [Hy|Hy]; [right; apply elem_of_app; by left|].
  apply elem_of_cons in Hy as [->|Hy]; [by left|].
  right. apply elem_of_app. by right.
Qed.

Lemma enqueue_links_elem (visited queued new_links : list str) (y : str) :
  y ∈ enqueue_links visited queued new_links <->
  y ∈ queued \/ (y ∈ new_links /\ y ∉ visited).
Proof.
  unfold enqueue_links. revert queued.
  induction new_links as [|link links IH]; intros queued; simpl.
  - split; [by left|]. intros [?|[Hin _]]; [done|].
    by apply not_elem_of_nil in Hin.
  - case_bool_decide as Hv.
    + rewrite IH, elem_of_cons. split; [tauto|].
      intros [?|[[->|?] ?]]; tauto.
    + rewrite IH, (proj1 (set_add_spec link queued)), elem_of_cons.
      split; [|tauto]. intros [[->|?]|[? ?]]; tauto.
Qed.

(** One iteration pops a queued URL that was not visited yet and marks it
    visited. When it completes it has queued the unvisited links of the
    page; when an exception ends it the queue is what the pop left. The
    count and the collection are unchanged, or the page was processed. *)
Lemma crawl_iteration_frontier `{Store} `{Web} (iteration : nat)
    (st : CrawlState) (out : Outcome CrawlState) :
  frontier_ok st -> crawl_iteration iteration st = Some out ->
  exists current_url queued,
    set_pop (pop_choice iteration) (queued_urls st) = Some (current_url, queued) /\
    visited_urls (outcome_state out) = visited_urls st ++ [current_url] /\
    queued_urls (outcome_state out)
    = match out with
      | Completed _ =>
        enqueue_links (visited_urls st ++ [current_url]) queued
          (page_links current_url)
      | Uncaught _ _ => queued
      end /\
    ((processed_count (outcome_state out) = processed_count st /\
      crawl_collection (outcome_state out) = crawl_collection st) \/
     (processed_count (outcome_state out) = processed_count st + 1 /\
      exists text n,
        process_and_store_document (crawl_collection st) current_url text
        = Some (Ok (crawl_collection (outcome_state out), n)))).
Proof.
  intros (_ & _ & Hdisj). unfold crawl_iteration.
  destruct (set_pop (pop_choice iteration) (queued_urls st))
    as [[current_url queued]|] eqn:Hpop; [|done].
  cbn [mbind option_bind]. intros Hrun. exists current_url, queued.
  split; [done|].
  rewrite bool_decide_eq_false_2 in Hrun
    by (apply Hdisj, (proj1 (set_pop_elem _ _ _ _ Hpop))).
  unfold page_links.
  destruct (fetch_url current_url) as [[|c html]|].
  - injection Hrun as <-. split_and!; [done|done|by left].
  - destruct (500 <? length _).
    + destruct (process_and_store_document _ _ _)
        as [[[collection' n]|e]|] eqn:Hstore; [| |done];
        cbn [mbind option_bind Result_bind fst snd] in Hrun.
      * destruct (extract_links_from_html _ _); injection Hrun as <-;
          (split_and!; [done|done|]); right; (split; [done|]);
          by exists (extract_text_from_html (c :: html)), n.
      * injection Hrun as <-. split_and!; [done|done|by left].
    + cbn [mbind option_bind] in Hrun.
      destruct (extract_links_from_html _ _); injection Hrun as <-;
        (split_and!; [done|done|by left]).
  - injection Hrun as <-. split_and!; [done|done|by left].
Qed.

(** A property of the state kept by every iteration holds at the end of the
    loop, however the loop ends. *)
Lemma crawl_loop_invariant `{Store} `{Web} (P : CrawlState -> Prop)
    (fuel max_pages iteration : nat) (st : CrawlState)
    (out : Outcome CrawlState) :
  (forall i s o, frontier_ok s -> P s -> crawl_continues max_pages s = true ->
                 crawl_iteration i s = Some o -> P (outcome_state o)) ->
  frontier_ok st -> P st ->
  crawl_loop fuel max_pages iteration st = Some out -> P (outcome_state out).
Proof.
  intros Hstep. revert iteration st.
  induction fuel as [|fuel IH]; intros iteration st Hf HP; [done|].
  cbn [crawl_loop]. destruct (crawl_continues max_pages st) eqn:Hcont.
  - destruct (crawl_iteration_spec ∅ max_pages iteration st Hf Hcont)
      as (o & Hit & Hf1 & _).
    rewrite Hit. pose proof (Hstep iteration st o Hf HP Hcont Hit) as HP1.
    destruct o as [st1|e st1]; cbn [outcome_state] in *.
    + by apply IH.
    + by intros [= <-].
  - by intros [= <-].
Qed.

Lemma crawl_final_invariant `{Store} `{Web} (P : CrawlState -> Prop)
    (collection : Collection) (start_url : str) (max_pages : nat)
    (out : Outcome CrawlState) :
  (forall i s o, frontier_ok s -> P s -> crawl_continues max_pages s = true ->
                 crawl_iteration i s = Some o -> P (outcome_state o)) ->
  P (crawl_start collection start_url) ->
  crawl_final collection start_url max_pages = Some out ->
  P (outcome_state out).
Proof.
  intros Hstep Hinit. destruct (crawl_start_ok collection start_url) as [Hf _].
  by apply (crawl_loop_invariant P _ _ _ _ _ Hstep Hf Hinit).
Qed.

(** ** Store writer: the composite id *)

Lemma pretty_N_go_digits (x : N) (s : string) :
  all_digits s -> all_digits (pretty_N_go x s).
Proof.
  revert s. induction (N.lt_wf_0 x) as [x _ IH]; intros s Hs.
  destruct (decide (x = 0%N)) as [->|Hx]; [by rewrite pretty_N_go_0|].
  rewrite pretty_N_go_step by lia. apply IH.
  - apply N.div_lt; lia.
  - split; [|done].
    assert (x `mod` 10 < 10)%N as Hlt by (apply N.mod_lt; lia).
    destruct (x `mod` 10)%N as [|p]; [by vm_compute|].
    do 4 (destruct p as [p|p|]; try (by vm_compute); try lia).
Qed.

Lemma pretty_nat_digits (n : nat) : all_digits (pretty n).
Proof.
  unfold pretty, pretty_nat, pretty, pretty_N.
  case_decide; [by vm_compute|]. by apply pretty_N_go_digits.
Qed.

Lemma py_ascii (a : Ascii.ascii) (s : string) :
  (Ascii.N_of_ascii a < 128)%N ->
  py (String a s) = Ascii.N_of_ascii a :: py s.
Proof.
  intros Ha. unfold py. cbn [utf8_decode].
  by rewrite (proj2 (N.ltb_lt _ _) Ha).
Qed.

Lemma py_digits (s : string) :
  all_digits s -> Forall (fun c => (48 <= c <= 57)%N) (py s).
Proof.
  induction s as [|a s IH]; [constructor|]. intros [Ha Hs].
  rewrite py_ascii by lia. constructor; [done|by apply IH].
Qed.

Lemma py_digits_inj (s t : string) :
  all_digits s -> all_digits t -> py s = py t -> s = t.
Proof.
  revert t. induction s as [|a s IH]; intros [|b t]; simpl.
  - done.
  - intros _ [Hb _]. rewrite py_ascii by lia. done.
  - intros [Ha _] _. rewrite py_ascii by lia. done.
  - intros [Ha Hs] [Hb Ht]. rewrite !py_ascii by lia.
    intros [= Hab Hst]. f_equal; [|by apply IH].
    by rewrite <- (Ascii.ascii_N_embedding a), Hab, Ascii.ascii_N_embedding.
Qed.

Lemma str_of_nat_inj (n m : nat) : str_of_nat n = str_of_nat m -> n = m.
Proof.
  intros E. apply py_digits_inj in E; try apply pretty_nat_digits.
  by apply (inj pretty).
Qed.

Lemma str_of_nat_no_underscore (n : nat) : 95%N ∉ str_of_nat n.
Proof.
  intros Hin. pose proof (py_digits _ (pretty_nat_digits n)) as Hd.
  rewrite Forall_forall in Hd. apply Hd in Hin. lia.
Qed.

Lemma app_sep_inj {A} (c : A) (a1 a2 d1 d2 : list A) :
  c ∉ d1 -> c ∉ d2 -> a1 ++ c :: d1 = a2 ++ c :: d2 -> a1 = a2 /\ d1 = d2.
Proof.
  intros H1 H2. revert a2. induction a1 as [|x a1 IH]; intros [|y a2]; simpl.
  - by intros [= ->].
  - intros [= -> ->]. exfalso. apply H1. apply elem_of_app. right. by left.
  - intros [= -> <-]. exfalso. apply H2. apply elem_of_app. right. by left.
  - intros [= -> E]. apply IH in E as [-> ->]. done.
Qed.

Lemma composite_id_inj (url1 url2 : str) (n m : nat) :
  url1 ++ py "_" ++ str_of_nat n = url2 ++ py "_" ++ str_of_nat m ->
  url1 = url2 /\ n = m.
Proof.
  intros E. change (py "_") with [95%N] in E. simpl in E.
  apply app_sep_inj in E as [Hurl Hnum];
    [|apply str_of_nat_no_underscore..].
  split; [done|]. by apply str_of_nat_inj.
Qed.

(** X4. The composite id determines the URL and the chunk index: the index is
    written in decimal digits, so the last underscore of the id separates
    the two. Two chunks collide in the store only when they have the same
    URL and the same index. *)
Theorem chunk_id_injective `{Models} (chunk1 chunk2 : ProcessedChunk) :
  chunk_id chunk1 = chunk_id chunk2 ->
  url chunk1 = url chunk2 /\ chunk_number chunk1 = chunk_number chunk2.
Proof. unfold chunk_id. apply composite_id_inj. Qed.

Lemma chunk_id_injective_witness :
  let first := demo_chunk "2025-01-01T00:00:00+00:00" in
  let again := demo_chunk "2025-02-02T00:00:00+00:00" in
  chunk_id first = chunk_id again /\
  url first = url again /\ chunk_number first = chunk_number again.
Proof.
  intros first again.
  assert (chunk_id first = chunk_id again) as Hid by (vm_compute; reflexivity).
  split; [exact Hid|]. exact (chunk_id_injective first again Hid).
Defined.

(** ** Store writer: the records of a page *)

Lemma insert_chunks_frame `{Store} (collection : Collection)
    (chunks : list ProcessedChunk) (id : str) :
  id ∉ (chunk_id <$> chunks) ->
  foldl insert_chunk collection chunks !! id = collection !! id.
Proof.
  revert collection. induction chunks as [|c chunks IH]; intros collection Hid;
    [done|].
  simpl in *. apply not_elem_of_cons in Hid as [Hne Hid].
  rewrite IH by done. by apply insert_chunk_lookup_ne.
Qed.

(** A write leaves at an id what was there, or the record of the chunk. *)
Lemma insert_chunk_lookup_cases `{Store} (collection : Collection)
    (chunk : ProcessedChunk) (id : str) :
  insert_chunk collection chunk !! id = collection !! id \/
  (id = chunk_id chunk /\
   exists record, chunk_record chunk = Some record /\
                  insert_chunk collection chunk !! id = Some record).
Proof.
  destruct (decide (id = chunk_id chunk)) as [->|Hne];
    [|left; by apply insert_chunk_lookup_ne].
  rewrite insert_chunk_cases. destruct (add_error _ _ _ _ _); [by left|].
  destruct (chunk_record chunk) as [record|]; [|by left].
  unfold write_record. destruct add_existing.
  - destruct (collection !! chunk_id chunk) eqn:Hold; [by left|].
    right. split; [done|]. exists record. split; [done|].
    apply lookup_insert_eq.
  - right. split; [done|]. exists record. split; [done|].
    apply lookup_insert_eq.
Qed.

Lemma insert_chunks_lookup_cases `{Store} (collection : Collection)
    (chunks : list ProcessedChunk) (id : str) :
  foldl insert_chunk collection chunks !! id = collection !! id \/
  exists chunk record,
    chunk ∈ chunks /\ id = chunk_id chunk /\
    chunk_record chunk = Some record /\
    foldl insert_chunk collection chunks !! id = Some record.
Proof.
  revert collection. induction chunks as [|c chunks IH]; intros collection;
    [by left|].
  cbn [foldl].
  destruct (IH (insert_chunk collection c))
    as [Hsame|(chunk & record & Hin & Hid & Hrec & Hget)].
  - rewrite Hsame.
    destruct (insert_chunk_lookup_cases collection c id)
      as [?|(Hid & record & Hrec & Hget)]; [by left|].
    right. exists c, record. split; [by left|done].
  - right. exists chunk, record. split; [by right|done].
Qed.

(** An accepted write at a free id, or under an overwriting [add], leaves
    the record of the chunk at its id. *)
Lemma insert_chunk_lookup_id `{Store} (collection : Collection)
    (chunk : ProcessedChunk) (record : StoreRecord) :
  add_accepted collection chunk record ->
  collection !! chunk_id chunk = None \/ add_existing = Overwrite ->
  insert_chunk collection chunk !! chunk_id chunk = Some record.
Proof.
  intros Hacc Hfree. rewrite (insert_chunk_accepted _ _ _ Hacc).
  unfold write_record. destruct Hfree as [Hfree|Hpolicy].
  - rewrite Hfree. destruct add_existing; apply lookup_insert_eq.
  - rewrite Hpolicy. apply lookup_insert_eq.
Qed.

Lemma insert_chunks_lookup_id `{Store} (collection : Collection)
    (chunks : list ProcessedChunk) (chunk : ProcessedChunk)
    (record : StoreRecord) :
  (forall c d e m ids, add_error c d e m ids = None) ->
  NoDup (chunk_id <$> chunks) -> chunk ∈ chunks ->
  chunk_record chunk = Some record ->
  collection !! chunk_id chunk = None \/ add_existing = Overwrite ->
  foldl insert_chunk collection chunks !! chunk_id chunk = Some record.
Proof.
  intros Hadd. revert collection.
  induction chunks as [|c chunks IH]; intros collection Hnd Hin Hrec Hfree.
  { by apply not_elem_of_nil in Hin. }
  cbn [foldl]. rewrite fmap_cons in Hnd. apply NoDup_cons in Hnd as [Hfresh Hnd].
  apply elem_of_cons in Hin as [->|Hin].
  - rewrite insert_chunks_frame by done.
    by apply insert_chunk_lookup_id.
  - apply IH; [done|done|done|].
    destruct Hfree as [Hfree|?]; [left|by right].
    rewrite insert_chunk_lookup_ne; [done|].
    intros E. apply Hfresh. rewrite <- E. apply list_elem_of_fmap.
    by exists chunk.
Qed.

Lemma processed_chunks_ids `{Models} `{Web} (parsed : ParsedUrl)
    (page_url : str) (chunks : list str) :
  NoDup (chunk_id <$>
           imap (fun i chunk => processed_chunk parsed chunk i page_url) chunks) /\
  (forall id,
     id ∈ (chunk_id <$>
             imap (fun i chunk => processed_chunk parsed chunk i page_url)
               chunks) ->
     exists i, i < length chunks /\ id = page_url ++ py "_" ++ str_of_nat i).
Proof.
  split.
  - apply NoDup_alt. intros i j id Hi Hj.
    rewrite list_lookup_fmap, list_lookup_imap in Hi, Hj.
    destruct (chunks !! i) as [ci|]; [|done].
    destruct (chunks !! j) as [cj|]; [|done].
    simpl in Hi, Hj. injection Hi as <-. injection Hj as Hj.
    unfold chunk_id in Hj. simpl in Hj. by apply composite_id_inj in Hj as [_ ->].
  - intros id Hin. apply list_elem_of_lookup in Hin as [i Hi].
    rewrite list_lookup_fmap, list_lookup_imap in Hi.
    destruct (chunks !! i) as [ci|] eqn:Hci; [|done].
    simpl in Hi. injection Hi as <-. exists i.
    split; [by eapply lookup_lt_Some|done].
Qed.

(** What [process_and_store_document] does for a URL that parses. *)
Lemma process_and_store_document_parsed `{Store} `{Web}
    (collection : Collection) (page_url content : str) (parsed : ParsedUrl) :
  urlparse page_url = Ok parsed ->
  exists chunks,
    chunk_text content default_chunk_size = Some chunks /\
    process_and_store_document collection page_url content
    = Some (Ok (foldl insert_chunk collection
                  (imap (fun i chunk => processed_chunk parsed chunk i page_url)
                     chunks),
                length chunks)).
Proof.
  intros Hparse.
  destruct (process_and_store_document_total collection page_url content)
    as (chunks & Hchunks & ->).
  exists chunks. split; [done|].
  rewrite (gather_imap_ok _
             (fun i chunk => processed_chunk parsed chunk i page_url));
    [|intros i chunk; by apply process_chunk_parsed].
  unfold mbind, Result_bind. by rewrite length_imap.
Qed.

Lemma process_and_store_document_frame `{Store} `{Web}
    (collection : Collection) (page_url content id : str)
    (r : Collection * nat) :
  process_and_store_document collection page_url content = Some (Ok r) ->
  (forall i, id <> page_url ++ py "_" ++ str_of_nat i) ->
  r.1 !! id = collection !! id.
Proof.
  intros Hrun Hid.
  destruct (urlparse page_url) as [parsed|e] eqn:Hparse.
  - destruct (process_and_store_document_parsed collection page_url content
                parsed Hparse) as (chunks & _ & Hrun').
    rewrite Hrun' in Hrun. injection Hrun as <-. cbn [fst].
    apply insert_chunks_frame. intros Hin.
    destruct (proj2 (processed_chunks_ids parsed page_url chunks) id Hin)
      as (i & _ & ->).
    by apply (Hid i).
  - destruct (process_and_store_document_total collection page_url content)
      as (chunks & _ & Hrun').
    rewrite Hrun' in Hrun. unfold mbind, Result_bind in Hrun.
    destruct chunks as [|chunk chunks].
    + injection Hrun as <-. done.
    + cbn [imap gather] in Hrun.
      by rewrite (process_chunk_raise chunk page_url e 0 Hparse) in Hrun.
Qed.

(** X5. Storing a page whose URL parses returns the number of its chunks
    and asks the store for one [add] per chunk, at the ids [URL_0],
    [URL_1], ... in the order of the chunks. No other id of the collection
    changes. What the collection holds afterwards at the id of a chunk is
    what it held before, or the record of that chunk: the chunk text as
    document, the URL and the index in the metadata. It is the record of
    the chunk whenever the store refuses no call, the metadata of the chunk
    is storable and the id was free or [add] overwrites. *)
Theorem process_and_store_document_records `{Store} `{Web}
    (collection : Collection) (page_url text : str) (parsed : ParsedUrl) :
  urlparse page_url = Ok parsed ->
  exists chunks collection',
    chunk_text text default_chunk_size = Some chunks /\
    process_and_store_document collection page_url text
    = Some (Ok (collection', length chunks)) /\
    (forall id,
       (forall i, i < length chunks -> id <> page_url ++ py "_" ++ str_of_nat i) ->
       collection' !! id = collection !! id) /\
    (forall i chunk,
       chunks !! i = Some chunk ->
       collection' !! (page_url ++ py "_" ++ str_of_nat i)
       = collection !! (page_url ++ py "_" ++ str_of_nat i) \/
       exists record,
         collection' !! (page_url ++ py "_" ++ str_of_nat i) = Some record /\
         rec_document record = chunk /\
         rec_metadata record !! py "url" = Some (VStr page_url) /\
         rec_metadata record !! py "chunk_number" = Some (VInt (Z.of_nat i))) /\
    ((forall c d e m ids, add_error c d e m ids = None) ->
     forall i chunk record,
       chunks !! i = Some chunk ->
       chunk_record (processed_chunk parsed chunk i page_url) = Some record ->
       collection !! (page_url ++ py "_" ++ str_of_nat i) = None \/
       add_existing = Overwrite ->
       collection' !! (page_url ++ py "_" ++ str_of_nat i) = Some record).
Proof.
  intros Hparse.
  destruct (process_and_store_document_parsed collection page_url text
              parsed Hparse) as (chunks & Hchunks & Hrun).
  exists chunks. eexists. split; [exact Hchunks|]. split; [exact Hrun|].
  destruct (processed_chunks_ids parsed page_url chunks) as [Hnd Hids].
  split_and!.
  - intros id Hid. apply insert_chunks_frame. intros Hin.
    destruct (Hids id Hin) as (i & Hlt & ->). by apply (Hid i).
  - intros i chunk Hi.
    destruct (insert_chunks_lookup_cases collection
                (imap (fun i chunk => processed_chunk parsed chunk i page_url)
                   chunks)
                (page_url ++ py "_" ++ str_of_nat i))
      as [?|(pc & record & Hin & Hid & Hrec & Hget)]; [by left|].
    right. exists record. split; [done|].
    apply list_elem_of_lookup in Hin as [j Hj].
    rewrite list_lookup_imap in Hj.
    destruct (chunks !! j) as [chunk'|] eqn:Hj'; [|done].
    injection Hj as <-. unfold chunk_id in Hid. cbn [url chunk_number processed_chunk] in Hid.
    apply composite_id_inj in Hid as [_ <-].
    rewrite Hi in Hj'. injection Hj' as <-.
    unfold chunk_record in Hrec.
    destruct (stored_metadata _) as [m|] eqn:Hm; [|done].
    injection Hrec as <-. cbn [rec_document rec_metadata content processed_chunk].
    split; [done|].
    unfold stored_metadata in Hm. case_bool_decide; [|done].
    injection Hm as <-. rewrite !lookup_omap.
    split; by vm_compute.
  - intros Hadd i chunk record Hi Hrec Hfree.
    apply (insert_chunks_lookup_id collection _
             (processed_chunk parsed chunk i page_url) record Hadd Hnd);
      [|done|done].
    apply list_elem_of_lookup. exists i. by rewrite list_lookup_imap, Hi.
Qed.

Lemma process_and_store_document_records_witness :
  let models := demo_models [] in
  let store := demo_store models KeepExisting in
  @urlparse demo_web demo_a = Ok {| netloc := py "h"; path := py "/a" |} /\
  exists chunks collection',
    chunk_text (py "some text") default_chunk_size = Some chunks /\
    @process_and_store_document models store demo_web ∅ demo_a (py "some text")
    = Some (Ok (collection', length chunks)).
Proof.
  intros models store.
  assert (@urlparse demo_web demo_a = Ok {| netloc := py "h"; path := py "/a" |})
    as Hparse by (vm_compute; reflexivity).
  split; [exact Hparse|].
  destruct (@process_and_store_document_records models store demo_web ∅ demo_a
              (py "some text") _ Hparse)
    as (chunks & collection' & Hchunks & Hrun & _).
  exists chunks, collection'. split; [exact Hchunks|exact Hrun].
Defined.

(** ** Crawl orchestrator: what a crawl visits and writes *)

(** X6. However the crawl ends, the number of pages it has counted is at
    most the number of URLs visited, hence at most the page cap, and the
    crawl has only written records of pages it visited: the record at the
    id [URL_i] of any other URL is what it was before. *)
Theorem crawl_website_writes_visited_only `{Store} `{Web}
    (collection : Collection) (start_url : str) (max_pages : nat) :
  exists out,
    crawl_final collection start_url max_pages = Some out /\
    crawl_website collection start_url max_pages
    = Some (match out with
            | Completed st => Ok (processed_count st)
            | Uncaught e _ => Raise e
            end, crawl_collection (outcome_state out)) /\
    processed_count (outcome_state out)
    <= length (visited_urls (outcome_state out)) <= max_pages /\
    (forall u i, u ∉ visited_urls (outcome_state out) ->
       crawl_collection (outcome_state out) !! (u ++ py "_" ++ str_of_nat i)
       = collection !! (u ++ py "_" ++ str_of_nat i)).
Proof.
  destruct (crawl_final_spec collection start_url max_pages)
    as (out & Hrun & _ & Hlen & _).
  exists out. split; [done|]. split.
  { unfold crawl_website. by rewrite Hrun. }
  pose proof (crawl_final_invariant
    (fun s => processed_count s <= length (visited_urls s) /\
              forall u i, u ∉ visited_urls s ->
                crawl_collection s !! (u ++ py "_" ++ str_of_nat i)
                = collection !! (u ++ py "_" ++ str_of_nat i))
    collection start_url max_pages out) as Hinv.
  destruct Hinv as [Hcount Hframe]; [| |done|by split].
  - clear. intros i s o Hf [Hcount Hframe] _ Hit.
    destruct (crawl_iteration_frontier i s o Hf Hit)
      as (cur & queued & _ & Hv & _ & Hstore).
    rewrite Hv, length_app. cbn [length].
    assert (forall u, u ∉ visited_urls s ++ [cur] ->
                      (u ∉ visited_urls s) /\ u <> cur) as Hnot.
    { intros u Hu. split.
      - intros ?. apply Hu, elem_of_app. by left.
      - intros ->. apply Hu, elem_of_app. right. by left. }
    destruct Hstore as [[-> ->]|(-> & text & n & Hrun)].
    + split; [lia|]. intros u j Hu. apply Hframe. by apply Hnot.
    + split; [lia|]. intros u j Hu. destruct (Hnot u Hu) as [Hu1 Hu2].
      rewrite <- (Hframe u j Hu1).
      apply (process_and_store_document_frame _ _ _ _ _ Hrun).
      intros k E. apply composite_id_inj in E as [? _]. done.
  - split; [simpl; lia|done].
Qed.

(** X7. However the crawl ends, every URL it has visited was found by the
    crawl: it is the seed, or a link extracted from a page visited and
    fetched. *)
Theorem crawl_visits_discovered_urls `{Store} `{Web}
    (collection : Collection) (start_url : str) (max_pages : nat) :
  exists out,
    crawl_final collection start_url max_pages = Some out /\
    Forall (fun u => u = start_url \/
                     exists page, page ∈ visited_urls (outcome_state out) /\
                                  u ∈ page_links page)
      (visited_urls (outcome_state out)).
Proof.
  destruct (crawl_final_spec collection start_url max_pages)
    as (out & Hrun & _). exists out. split; [done|].
  pose proof (crawl_final_invariant
    (fun s => forall u, u ∈ visited_urls s ++ queued_urls s ->
                u = start_url \/
                exists page, page ∈ visited_urls s /\ u ∈ page_links page)
    collection start_url max_pages out) as Hinv.
  apply Forall_forall. intros u Hu. apply Hinv; [| |done|].
  - clear. intros i s o Hf HP _ Hit.
    destruct (crawl_iteration_frontier i s o Hf Hit)
      as (cur & queued & Hpop & Hv & Hq & _).
    apply set_pop_elem in Hpop as (Hcur & _ & Hsub).
    assert (forall u, u ∈ visited_urls s ++ queued_urls s ->
              u = start_url \/
              exists page, page ∈ visited_urls (outcome_state o) /\
                           u ∈ page_links page) as HP'.
    { intros u Hu. destruct (HP u Hu) as [?|(page & Hp & Hl)]; [by left|].
      right. exists page. split; [|done]. rewrite Hv. apply elem_of_app. by left. }
    intros u Hu. apply elem_of_app in Hu as [Hu|Hu].
    + rewrite Hv in Hu. apply elem_of_app in Hu as [Hu|Hu].
      * apply HP', elem_of_app. by left.
      * apply list_elem_of_singleton in Hu. subst u.
        apply HP', elem_of_app. by right.
    + rewrite Hq in Hu. destruct o as [s'|e s'].
      * apply enqueue_links_elem in Hu as [Hu|[Hu _]].
        -- apply HP', elem_of_app. right. by apply Hsub.
        -- right. exists cur. split; [|done]. rewrite Hv.
           apply elem_of_app. right. by apply list_elem_of_singleton.
      * apply HP', elem_of_app. right. by apply Hsub.
  - intros u' Hu'. simpl in Hu'. apply list_elem_of_singleton in Hu'. by left.
  - apply elem_of_app. by left.
Qed.

(** X8. When the crawl completes below the page cap it has exhausted the
    site: the queue is empty, the seed was visited, and every link
    extracted from a page it fetched has been visited. A crawl that an
    exception ends gives no such guarantee. *)
Theorem crawl_below_cap_is_exhaustive `{Store} `{Web}
    (collection : Collection) (start_url : str) (max_pages : nat) :
  exists out,
    crawl_final collection start_url max_pages = Some out /\
    forall st, out = Completed st ->
      length (visited_urls st) < max_pages ->
      queued_urls st = [] /\
      start_url ∈ visited_urls st /\
      forall page link,
        page ∈ visited_urls st -> link ∈ page_links page ->
        link ∈ visited_urls st.
Proof.
  destruct (crawl_final_spec collection start_url max_pages)
    as (out & Hrun & _ & _ & Hend). exists out. split; [done|].
  intros st -> Hlt. destruct Hend as [_ Hstop].
  assert (queued_urls st = []) as Hq.
  { unfold crawl_continues in Hstop.
    apply andb_false_iff in Hstop as [Hq|Hn].
    - apply bool_decide_eq_false in Hq.
      by destruct (decide (queued_urls st = [])).
    - apply Nat.ltb_ge in Hn. lia. }
  split; [done|].
  (* the closure holds of every state from which no exception has ended the
     loop; it is stated with a flag for the state of a loop that was ended *)
  assert (forall fuel iteration s,
            frontier_ok s ->
            (start_url ∈ visited_urls s ++ queued_urls s /\
             forall page link, page ∈ visited_urls s -> link ∈ page_links page ->
               link ∈ visited_urls s ++ queued_urls s) ->
            crawl_loop fuel max_pages iteration s = Some (Completed st) ->
            start_url ∈ visited_urls st ++ queued_urls st /\
            forall page link, page ∈ visited_urls st -> link ∈ page_links page ->
              link ∈ visited_urls st ++ queued_urls st) as Hloop.
  { clear. induction fuel as [|fuel IH]; intros iteration s Hf HP; [done|].
    cbn [crawl_loop]. destruct (crawl_continues max_pages s) eqn:Hcont;
      [|by intros [= <-]].
    destruct (crawl_iteration_spec ∅ max_pages iteration s Hf Hcont)
      as (o & Hit & Hf1 & _).
    rewrite Hit. destruct o as [s'|e s']; [|done].
    apply IH; [done|]. destruct HP as [Hseed HP].
    destruct (crawl_iteration_frontier iteration s _ Hf Hit)
      as (cur & queued & Hpop & Hv & Hq & _).
    cbn [outcome_state] in Hv, Hq.
    apply set_pop_elem in Hpop as (Hcur & Hrest & _).
    assert (forall u, u ∈ visited_urls s ++ queued_urls s ->
              u ∈ visited_urls s' ++ queued_urls s') as Hkeep.
    { intros u Hu. rewrite Hv, Hq. rewrite !elem_of_app, enqueue_links_elem.
      apply elem_of_app in Hu as [Hu|Hu]; [by left; left|].
      destruct (Hrest u Hu) as [->|?].
      - left. right. by apply list_elem_of_singleton.
      - right. by left. }
    split; [by apply Hkeep|].
    intros page link Hpage Hlink. rewrite Hv in Hpage.
    apply elem_of_app in Hpage as [Hpage|Hpage]; [by apply Hkeep, (HP page)|].
    apply list_elem_of_singleton in Hpage. subst page.
    rewrite Hq. rewrite elem_of_app, enqueue_links_elem.
    destruct (decide (link ∈ visited_urls s')) as [?|Hnot]; [by left|].
    right. right. split; [done|]. by rewrite <- Hv. }
  destruct (crawl_start_ok collection start_url) as [Hf0 _].
  destruct (Hloop (S max_pages) 0 _ Hf0) as [Hseed Hclosed]; [|exact Hrun|].
  { split.
    - simpl. by apply list_elem_of_singleton.
    - intros page link Hpage. by apply not_elem_of_nil in Hpage. }
  rewrite Hq, app_nil_r in Hseed, Hclosed. done.
Qed.

(** X9. With a page cap of at least one the seed URL is the first URL
    visited, however the crawl ends. *)
Theorem crawl_visits_seed_first `{Store} `{Web} (collection : Collection)
    (start_url : str) (max_pages : nat) :
  1 <= max_pages ->
  exists out rest,
    crawl_final collection start_url max_pages = Some out /\
    visited_urls (outcome_state out) = start_url :: rest.
Proof.
  intros Hcap.
  destruct (crawl_final_spec collection start_url max_pages)
    as (out & Hrun & _ & _ & Hend).
  pose proof (crawl_final_invariant
    (fun s => (visited_urls s = [] /\ queued_urls s = [start_url]) \/
              exists rest, visited_urls s = start_url :: rest)
    collection start_url max_pages out) as Hinv.
  destruct Hinv as [[Hv Hq]|[rest Hv]]; [| |done| |].
  - clear. intros i s o Hf HP _ Hit.
    destruct (crawl_iteration_frontier i s o Hf Hit)
      as (cur & queued & Hpop & Hv & _).
    right. destruct HP as [[Hv0 Hq0]|[rest Hv0]].
    + apply set_pop_elem in Hpop as (Hcur & _).
      rewrite Hq0 in Hcur. apply list_elem_of_singleton in Hcur. subst cur.
      exists []. by rewrite Hv, Hv0.
    + exists (rest ++ [cur]). by rewrite Hv, Hv0.
  - by left.
  - exfalso. destruct out as [st|e st]; cbn [outcome_state] in *.
    + destruct Hend as [_ Hstop]. unfold crawl_continues in Hstop.
      rewrite Hv, Hq in Hstop. simpl in Hstop. apply Nat.ltb_ge in Hstop. lia.
    + (* an exception ends the loop only after a URL was visited *)
      unfold crawl_final in Hrun. cbn [crawl_loop] in Hrun.
      destruct (crawl_continues max_pages (crawl_start collection start_url))
        eqn:Hcont; [|done].
      destruct (crawl_start_ok collection start_url) as [Hf0 _].
      destruct (crawl_iteration_spec ∅ max_pages 0 _ Hf0 Hcont)
        as (o & Hit & Hf1 & Hlen1 & _).
      rewrite Hit in Hrun. destruct o as [st1|e1 st1].
      * pose proof (crawl_loop_invariant
          (fun s => visited_urls s <> []) max_pages max_pages 1 st1
          (Uncaught e st)) as Hne.
        cbn [outcome_state] in Hne. apply Hne; [| | |done|done].
        -- clear. intros i s o Hf HP _ Hit.
           destruct (crawl_iteration_frontier i s o Hf Hit)
             as (cur & queued & _ & Hv & _).
           rewrite Hv. by destruct (visited_urls s).
        -- done.
        -- cbn [outcome_state] in Hlen1. intros E. by rewrite E in Hlen1.
      * injection Hrun as <- <-. cbn [outcome_state] in Hlen1.
        by rewrite Hv in Hlen1.
  - by exists out, rest.
Qed.

Lemma crawl_visits_seed_first_witness :
  1 <= 5 /\
  exists out rest,
    @crawl_final (demo_models []) (demo_store _ KeepExisting) demo_web ∅ demo_a 5
    = Some out /\
    visited_urls (outcome_state out) = demo_a :: rest.
Proof.
  split; [lia|].
  apply (@crawl_visits_seed_first (demo_models []) (demo_store _ KeepExisting)
           demo_web ∅ demo_a 5). lia.
Defined.

(** X10. However the crawl ends, it has stayed on the seed's network
    location: every URL it has visited or still has queued is the seed, or
    parses, as the seed does, with the [netloc] of the seed. *)
Theorem crawl_stays_on_seed_host `{Store} `{Web} (collection : Collection)
    (start_url : str) (max_pages : nat) :
  exists out,
    crawl_final collection start_url max_pages = Some out /\
    Forall (on_seed_host start_url)
      (visited_urls (outcome_state out) ++ queued_urls (outcome_state out)).
Proof.
  destruct (crawl_final_spec collection start_url max_pages)
    as (out & Hrun & _). exists out. split; [done|].
  pose proof (crawl_final_invariant
    (fun s => Forall (on_seed_host start_url)
                (visited_urls s ++ queued_urls s))
    collection start_url max_pages out) as Hinv.
  apply Hinv; [| |done].
  - clear. intros i s o Hf HP _ Hit.
    destruct (crawl_iteration_frontier i s o Hf Hit)
      as (cur & queued & Hpop & Hv & Hq & _).
    apply set_pop_elem in Hpop as (Hcur & _ & Hsub).
    rewrite Forall_forall in HP. apply Forall_forall. intros u Hu.
    assert (on_seed_host start_url cur) as Hcur'.
    { apply HP, elem_of_app. by right. }
    rewrite Hv, Hq in Hu. apply elem_of_app in Hu as [Hu|Hu].
    { apply elem_of_app in Hu as [Hu|Hu]; [apply HP, elem_of_app; by left|].
      apply list_elem_of_singleton in Hu. by subst u. }
    destruct o as [s'|e s']; [|apply HP, elem_of_app; right; by apply Hsub].
    apply enqueue_links_elem in Hu as [Hu|[Hu _]].
    { apply HP, elem_of_app. right. by apply Hsub. }
    unfold page_links in Hu.
    destruct (fetch_url cur) as [[|c html]|];
      [by apply not_elem_of_nil in Hu| |by apply not_elem_of_nil in Hu].
    destruct (extract_links_from_html (c :: html) cur) as [links|e] eqn:Hlinks;
      [|by apply not_elem_of_nil in Hu].
    apply (proj2 (extract_links_elem _ _ _ Hlinks)) in Hu
      as (href & parsed & base & _ & _ & Hp & Hb & Hn).
    right. destruct Hcur' as [->|(parsed' & seed & Hp' & Hs & Hn')].
    + by exists parsed, base.
    + exists parsed, seed. split; [done|]. split; [done|]. congruence.
  - apply Forall_forall. intros u Hu. simpl in Hu.
    apply list_elem_of_singleton in Hu. by left.
Qed.

(** ** Query assembler: every path of [query_rag_system] *)

(** The five ways the query can go: the embedding call fails, the store
    query fails, the generation call fails, nothing was retrieved, or an
    answer is built. *)
Lemma query_rag_system_cases `{Store} (collection : Collection)
    (query : str) (chat_history : list ChatTurn) (num_results : nat) :
  let out := query_rag_system collection query chat_history num_results in
  (exists e, aembed_query query = Raise e /\
     out = (error_answer e, [EmbedQuery query])) \/
  (exists query_embedding e,
     aembed_query query = Ok query_embedding /\
     query_error collection [query_embedding] num_results = Some e /\
     out = (error_answer e, [EmbedQuery query; StoreQuery num_results])) \/
  (exists query_embedding e prompt,
     aembed_query query = Ok query_embedding /\
     query_error collection [query_embedding] num_results = None /\
     llm_invoke prompt = Raise e /\
     out = (error_answer e,
            [EmbedQuery query; StoreQuery num_results; Generate prompt])) \/
  (exists query_embedding prompt answer_raw,
     aembed_query query = Ok query_embedding /\
     query_error collection [query_embedding] num_results = None /\
     llm_invoke prompt = Ok answer_raw /\
     out = ({| answer := no_information_text ++ BSN ++ BSN ++ disclaimer_text;
               sources := [] |},
            [EmbedQuery query; StoreQuery num_results; Generate prompt])) \/
  (exists query_embedding prompt answer_raw context_parts retrieved,
     aembed_query query = Ok query_embedding /\
     query_error collection [query_embedding] num_results = None /\
     llm_invoke prompt = Ok answer_raw /\
     context_parts <> [] /\
     length retrieved <= num_results /\
     out = ({| answer := postprocess_answer answer_raw context_parts;
               sources := retrieved |},
            [EmbedQuery query; StoreQuery num_results; Generate prompt])).
Proof.
  intros out. subst out.
  unfold query_rag_system, query_rag_try, mbind, M_bind, call.
  destruct (aembed_query query) as [query_embedding|e] eqn:Hembed;
    [|left; by exists e].
  right. unfold collection_query.
  destruct (query_error collection [query_embedding] num_results)
    as [e|] eqn:Hquery; [left; by exists query_embedding, e|].
  right. cbn [fmap list_fmap app].
  set (hits := take num_results _).
  assert (length hits <= num_results) as Hhits.
  { unfold hits. rewrite length_take. lia. }
  clearbody hits.
  unfold collect_context, found_documents. cbn [documents metadatas].
  case_bool_decide as Hdocs.
  - unfold mret, M_ret. cbn [negb app].
    destruct (llm_invoke _) as [answer_raw|e] eqn:Hllm.
    + right. right. eexists query_embedding, _, answer_raw, _, _.
      split; [done|]. split; [done|]. split; [exact Hllm|].
      split; [|split; [|reflexivity]].
      * destruct hits; [done|]. done.
      * rewrite length_fmap, length_zip, !length_fmap. lia.
    + left. eexists query_embedding, e, _. split; [done|]. split; [done|].
      split; [exact Hllm|reflexivity].
  - unfold mret, M_ret. cbn [negb app join].
    destruct (llm_invoke _) as [answer_raw|e] eqn:Hllm.
    + right. left. eexists query_embedding, _, answer_raw.
      split; [done|]. split; [done|]. split; [exact Hllm|reflexivity].
    + left. eexists query_embedding, e, _. split; [done|]. split; [done|].
      split; [exact Hllm|reflexivity].
Qed.

(** X11. Whatever happens - an answer, a fallback, no retrieval, or a failing
    call - the answer returned ends with the separator and the disclaimer. *)
Theorem query_answer_ends_with_disclaimer `{Store} (collection : Collection)
    (query : str) (chat_history : list ChatTurn) (num_results : nat) :
  exists body,
    answer (query_rag_system collection query chat_history num_results).1
    = body ++ BSN ++ BSN ++ disclaimer_text.
Proof.
  destruct (query_rag_system_cases collection query chat_history num_results)
    as [(e & _ & ->)|[(emb & e & _ & _ & ->)|[(emb & e & p & _ & _ & _ & ->)|
        [(emb & p & raw & _ & _ & _ & ->)|
         (emb & p & raw & parts & srcs & _ & _ & _ & _ & _ & ->)]]]];
    cbn [fst answer error_answer].
  - eexists. by rewrite <- (assoc (++)).
  - eexists. by rewrite <- (assoc (++)).
  - eexists. by rewrite <- (assoc (++)).
  - by eexists.
  - unfold postprocess_answer. by eexists.
Qed.

(** X12. The calls are made in a fixed order, each at most once: the
    embedding alone when it fails; the embedding and the store query when
    the store query fails; otherwise the embedding, the store query and the
    generation service. The generation service is called exactly when the
    embedding and the store query have returned. The number of sources
    never exceeds [num_results]. *)
Theorem query_call_order `{Store} (collection : Collection)
    (query : str) (chat_history : list ChatTurn) (num_results : nat) :
  let out := query_rag_system collection query chat_history num_results in
  ((exists e, aembed_query query = Raise e) /\ out.2 = [EmbedQuery query] \/
   (exists query_embedding e,
      aembed_query query = Ok query_embedding /\
      query_error collection [query_embedding] num_results = Some e) /\
   out.2 = [EmbedQuery query; StoreQuery num_results] \/
   (exists query_embedding,
      aembed_query query = Ok query_embedding /\
      query_error collection [query_embedding] num_results = None) /\
   exists prompt,
     out.2 = [EmbedQuery query; StoreQuery num_results; Generate prompt]) /\
  generation_calls out.2 <= 1 /\
  length (sources out.1) <= num_results.
Proof.
  intros out. subst out.
  destruct (query_rag_system_cases collection query chat_history num_results)
    as [(e & He & ->)|[(emb & e & He & Hq & ->)|[(emb & e & p & He & Hq & _ & ->)|
        [(emb & p & raw & He & Hq & _ & ->)|
         (emb & p & raw & parts & srcs & He & Hq & _ & _ & Hlen & ->)]]]];
    cbn [fst snd sources error_answer].
  - split; [left; split; [by exists e|done]|].
    split; [vm_compute; lia|simpl; lia].
  - split; [right; left; split; [by exists emb, e|done]|].
    split; [vm_compute; lia|simpl; lia].
  - split; [right; right; split; [by exists emb|by exists p]|].
    split; [vm_compute; lia|simpl; lia].
  - split; [right; right; split; [by exists emb|by exists p]|].
    split; [vm_compute; lia|simpl; lia].
  - split; [right; right; split; [by exists emb|by exists p]|].
    split; [vm_compute; lia|done].
Qed.

(** X13. When the embedding call fails, the query returns the generic error
    answer carrying the error text, with no sources, and neither the store
    nor the generation service is called. *)
Theorem query_embedding_failure `{Store} (collection : Collection)
    (query : str) (chat_history : list ChatTurn) (num_results : nat) (e : str) :
  aembed_query query = Raise e ->
  query_rag_system collection query chat_history num_results
  = ({| answer := py "เกิดข้อผิดพลาดในการประมวลผลคำถามของคุณ: " ++ e ++
                  BSN ++ BSN ++ disclaimer_text;
        sources := [] |},
     [EmbedQuery query]).
Proof.
  intros Hembed.
  unfold query_rag_system, query_rag_try, mbind, M_bind, call.
  by rewrite Hembed.
Qed.

Lemma query_embedding_failure_witness :
  let models := failing_embedding_models (py "connection refused") in
  let store := demo_store models KeepExisting in
  @aembed_query models (py "q") = Raise (py "connection refused") /\
  (@query_rag_system models store ∅ (py "q") [] 3).2 = [EmbedQuery (py "q")].
Proof.
  intros models store. split; [reflexivity|].
  exact (f_equal snd
           (@query_embedding_failure models store ∅ (py "q") [] 3
              (py "connection refused") eq_refl)).
Defined.

(** X14. When the embedding and the store query return and the generation
    call fails, the query returns the generic error answer carrying the
    error text, and the sources that were retrieved are not returned. *)
Theorem query_generation_failure `{Store} (collection : Collection)
    (query : str) (chat_history : list ChatTurn) (num_results : nat)
    (query_embedding : list float) (e : str) :
  aembed_query query = Ok query_embedding ->
  query_error collection [query_embedding] num_results = None ->
  (forall prompt, llm_invoke prompt = Raise e) ->
  (query_rag_system collection query chat_history num_results).1
  = error_answer e /\
  sources (query_rag_system collection query chat_history num_results).1 = [] /\
  generation_calls
    (query_rag_system collection query chat_history num_results).2 = 1.
Proof.
  intros Hembed Hquery Hllm.
  destruct (query_rag_system_cases collection query chat_history num_results)
    as [(e' & He & _)|[(emb & e' & He & Hq & _)|[(emb & e' & p & _ & _ & Hp & ->)|
        [(emb & p & raw & _ & _ & Hp & _)|
         (emb & p & raw & parts & srcs & _ & _ & Hp & _)]]]].
  - congruence.
  - congruence.
  - rewrite Hllm in Hp. injection Hp as <-. split; [done|]. split; [done|].
    by vm_compute.
  - rewrite Hllm in Hp. done.
  - rewrite Hllm in Hp. done.
Qed.

Lemma query_generation_failure_witness :
  let models := failing_generation_models (py "model not found") in
  let store := demo_store models KeepExisting in
  @aembed_query models (py "q") = Ok [1%Z; 2%Z] /\
  (forall prompt, @llm_invoke models prompt = Raise (py "model not found")) /\
  (@query_rag_system models store (demo_collection_of models) (py "q") [] 3).1
  = error_answer (py "model not found").
Proof.
  intros models store. split; [reflexivity|]. split; [reflexivity|].
  exact (proj1 (@query_generation_failure models store
                  (demo_collection_of models)
                  (py "q") [] 3 [1%Z; 2%Z] (py "model not found")
                  eq_refl eq_refl (fun _ => eq_refl))).
Defined.

(** A store query that fails: the store is asked, the generation service
    is not. *)
Example query_store_failure :
  (@query_rag_system (demo_models (py "ok")) (strict_query_store _) ∅
     (py "q") [] 0).2
  = [EmbedQuery (py "q"); StoreQuery 0].
Proof. vm_compute. reflexivity. Qed.

(** ** Query assembler: stripping the disclaimer *)

Lemma startswith_app (p a b : str) :
  startswith p a = true -> startswith p (a ++ b) = true.
Proof.
  revert a. induction p as [|x p IH]; [done|]. intros [|y a]; [done|].
  simpl. intros [-> Hp]%andb_true_iff. by apply IH.
Qed.

Lemma startswith_refl (p : str) : startswith p p = true.
Proof. induction p as [|x p IH]; [done|]. simpl. by rewrite N.eqb_refl. Qed.

Lemma occurrences_app_ge (p a b : str) :
  occurrences p a + occurrences p b <= occurrences p (a ++ b).
Proof.
  induction a as [|c a IH]; [simpl; lia|].
  change ((c :: a) ++ b) with (c :: (a ++ b)). cbn [occurrences].
  change (c :: a ++ b) with ((c :: a) ++ b).
  destruct (startswith p (c :: a)) eqn:Hp.
  - rewrite (startswith_app _ _ b Hp). lia.
  - destruct (startswith p ((c :: a) ++ b)); lia.
Qed.

Lemma occurrences_self_pos (p : str) : p <> [] -> 1 <= occurrences p p.
Proof.
  destruct p as [|x p]; [done|]. intros _. cbn [occurrences].
  rewrite startswith_refl. lia.
Qed.

Lemma occurrences_lstrip (p s : str) :
  occurrences p (lstrip s) <= occurrences p s.
Proof.
  induction s as [|c s IH]; [done|]. cbn [lstrip].
  destruct (isspace c); [|done]. cbn [occurrences]. lia.
Qed.

Lemma occurrences_strip (p s : str) :
  occurrences p (strip s) <= occurrences p s.
Proof.
  destruct (strip_decompose s) as (ws1 & ws2 & _ & _ & E).
  rewrite E at 2.
  etrans; [|apply (occurrences_app_ge p ws1)].
  etrans; [|apply Nat.le_add_l].
  etrans; [|apply (occurrences_app_ge p (strip s) ws2)]. lia.
Qed.

Lemma replace_go_skip_all (old new s : str) (skip : nat) :
  length s <= skip -> replace_go old new skip s = [].
Proof.
  revert skip. induction s as [|c s IH]; [done|]. intros [|k] Hk; simpl in *;
    [lia|]. apply IH. lia.
Qed.

Lemma replace_go_no_occurrence (old new s : str) :
  occurrences old s = 0 -> replace_go old new 0 s = s.
Proof.
  induction s as [|c s IH]; [done|]. cbn [occurrences replace_go].
  destruct (startswith old (c :: s)); [lia|]. intros Hs. f_equal. apply IH. lia.
Qed.

Lemma replace_go_trailing (old new body : str) :
  old <> [] -> occurrences old (body ++ old) = 1 ->
  replace_go old new 0 (body ++ old) = body ++ new /\ occurrences old body = 0.
Proof.
  intros Hold. pose proof (occurrences_self_pos old Hold) as Hself.
  induction body as [|c body IH].
  - intros _. split; [|done]. destruct old as [|x old]; [done|].
    simpl. rewrite N.eqb_refl, startswith_refl. simpl.
    rewrite Nat.sub_0_r, replace_go_skip_all by done. by rewrite app_nil_r.
  - change ((c :: body) ++ old) with (c :: (body ++ old)).
    cbn [occurrences replace_go].
    pose proof (occurrences_app_ge old body old) as Hge.
    change (c :: body ++ old) with ((c :: body) ++ old).
    destruct (startswith old ((c :: body) ++ old)) eqn:Hp; [lia|].
    intros Hocc. destruct IH as [IH1 IH2]; [lia|].
    split; [simpl; by rewrite IH1|].
    destruct (startswith old (c :: body)) eqn:Hp'; [|lia].
    by rewrite (startswith_app _ _ old Hp') in Hp.
Qed.

Lemma strip_all_space (s : str) : all_space s -> strip s = [].
Proof.
  intros Hs. unfold strip.
  assert (lstrip s = []) as ->; [|done].
  induction Hs as [|c s Hc _ IH]; [done|]. cbn [lstrip]. by rewrite Hc.
Qed.

Lemma disclaimer_text_nonempty : disclaimer_text <> [].
Proof. by vm_compute. Qed.

(** X15. A reply that holds no copy of the disclaimer, or that ends with the
    disclaimer and holds no other copy, gives a final answer with exactly
    one copy of it. *)
Theorem postprocess_answer_one_disclaimer (answer_raw : str)
    (context_parts : list str) :
  occurrences disclaimer_text answer_raw = 0 \/
  (exists body, answer_raw = body ++ disclaimer_text /\
                occurrences disclaimer_text answer_raw = 1) ->
  occurrences disclaimer_text (postprocess_answer answer_raw context_parts) = 1.
Proof.
  intros Hraw. apply postprocess_answer_disclaimers.
  pose proof disclaimer_text_nonempty as Hne.
  assert (forall t, occurrences disclaimer_text t = 0 ->
            occurrences disclaimer_text (strip t) = 0) as Hstrip.
  { intros t Ht. pose proof (occurrences_strip disclaimer_text t). lia. }
  unfold replace. destruct disclaimer_text as [|d0 d] eqn:Hd; [done|].
  destruct Hraw as [Hnone|(body & -> & Hone)].
  - rewrite replace_go_no_occurrence by done. by apply Hstrip.
  - destruct (replace_go_trailing (d0 :: d) [] body) as [-> Hbody]; [done..|].
    rewrite app_nil_r. by apply Hstrip.
Qed.

Lemma postprocess_answer_one_disclaimer_witness :
  (occurrences disclaimer_text (py "กินผักให้มาก") = 0 \/
   (exists body, py "กินผักให้มาก" = body ++ disclaimer_text /\
                 occurrences disclaimer_text (py "กินผักให้มาก") = 1)) /\
  occurrences disclaimer_text (postprocess_answer (py "กินผักให้มาก") []) = 1.
Proof.
  assert (occurrences disclaimer_text (py "กินผักให้มาก") = 0) as Hnone
    by (vm_compute; reflexivity).
  split; [by left|].
  exact (postprocess_answer_one_disclaimer _ [] (or_introl Hnone)).
Defined.

(** X16. A reply that is blank, or that is nothing but the disclaimer, is
    replaced by a fixed sentence: the "no information" one when nothing was
    retrieved, the "not enough information" one otherwise. *)
Theorem postprocess_answer_fallback (answer_raw : str)
    (context_parts : list str) :
  all_space answer_raw \/ answer_raw = disclaimer_text ->
  postprocess_answer answer_raw context_parts
  = (match context_parts with
     | [] => no_information_text
     | _ :: _ => not_enough_information_text
     end) ++ BSN ++ BSN ++ disclaimer_text.
Proof.
  intros Hraw. unfold postprocess_answer.
  assert (strip (replace answer_raw disclaimer_text []) = []) as ->; [|done].
  pose proof disclaimer_text_nonempty as Hne.
  destruct Hraw as [Hspace| ->].
  - assert (occurrences disclaimer_text answer_raw = 0) as Hnone.
    { induction Hspace as [|c s Hc _ IH]; [done|]. cbn [occurrences].
      rewrite IH. destruct (startswith disclaimer_text (c :: s)) eqn:Hp; [|done].
      exfalso. revert Hp. destruct disclaimer_text as [|d0 d] eqn:Hd; [done|].
      simpl. intros [Heq _]%andb_true_iff. apply N.eqb_eq in Heq. subst d0.
      assert (isspace (hd 0%N disclaimer_text) = false) as Hhd by by vm_compute.
      rewrite Hd in Hhd. simpl in Hhd. congruence. }
    unfold replace. destruct disclaimer_text as [|d0 d] eqn:Hd; [done|].
    rewrite replace_go_no_occurrence by done.
    by apply strip_all_space.
  - assert (occurrences disclaimer_text ([] ++ disclaimer_text) = 1) as Hself
      by (vm_compute; reflexivity).
    destruct (replace_go_trailing disclaimer_text [] [] Hne Hself) as [E _].
    unfold replace. destruct disclaimer_text as [|d0 d] eqn:Hd; [done|].
    simpl app in E. by rewrite E.
Qed.

Lemma postprocess_answer_fallback_witness :
  (all_space (py "   ") \/ py "   " = disclaimer_text) /\
  postprocess_answer (py "   ") [py "- a: b"]
  = not_enough_information_text ++ BSN ++ BSN ++ disclaimer_text.
Proof.
  assert (all_space (py "   ")) as Hspace.
  { repeat constructor. }
  split; [by left|].
  exact (postprocess_answer_fallback (py "   ") [py "- a: b"] (or_introl Hspace)).
Defined.

(** ** Enricher: the title and the embedding *)

Lemma find_from_skip (p a b : str) (c : N) (i : nat) :
  p = [c] -> c ∉ a -> startswith p b = true ->
  find_from i p (a ++ b) = Z.of_nat (i + length a).
Proof.
  intros -> Ha Hb. revert i. induction a as [|x a IH]; intros i.
  - simpl app. destruct b as [|y b]; [done|].
    cbn [find_from]. rewrite Hb. f_equal. simpl. lia.
  - apply not_elem_of_cons in Ha as [Hx Ha].
    change ((x :: a) ++ b) with (x :: (a ++ b)). cbn [find_from startswith].
    rewrite (proj2 (N.eqb_neq c x)) by done. cbn [andb].
    rewrite IH by done. f_equal. simpl. lia.
Qed.

Lemma find_from_none (c : N) (s : str) (i : nat) :
  c ∉ s -> find_from i [c] s = (-1)%Z /\ startswith [c] s = false.
Proof.
  revert i. induction s as [|x s IH]; intros i Hc; [done|].
  apply not_elem_of_cons in Hc as [Hx Hc].
  cbn [find_from startswith]. rewrite (proj2 (N.eqb_neq c x)) by done.
  cbn [andb]. split; [|done]. by apply IH.
Qed.

Lemma cut_at_first_brace (prose json_str : str) :
  123%N ∉ prose -> startswith [123%N] json_str = true ->
  (if startswith [123%N] (prose ++ json_str) then prose ++ json_str
   else if (0 <=? find (prose ++ json_str) [123%N])%Z
        then slice_from (prose ++ json_str)
               (Z.to_nat (find (prose ++ json_str) [123%N]))
        else prose ++ json_str) = json_str.
Proof.
  intros Hprose Hopen. destruct prose as [|c prose].
  - simpl app. by rewrite Hopen.
  - apply not_elem_of_cons in Hprose as [Hc Hprose].
    assert (startswith [123%N] ((c :: prose) ++ json_str) = false) as ->.
    { change ((c :: prose) ++ json_str) with (c :: (prose ++ json_str)).
      cbn [startswith]. by rewrite (proj2 (N.eqb_neq 123 c)). }
    unfold find.
    rewrite (find_from_skip [123%N] (c :: prose) json_str 123 0);
      [|done|by apply not_elem_of_cons|done].
    rewrite (proj2 (Z.leb_le _ _)) by lia.
    unfold slice_from. rewrite Nat2Z.id. cbn [Nat.add].
    by rewrite drop_app_length.
Qed.

Lemma get_title_and_content_reply `{Models} `{Web} (chunk url response : str)
    (parsed : ParsedUrl) :
  urlparse url = Ok parsed ->
  llm_invoke (title_prompt chunk) = Ok response ->
  get_title_and_content chunk url
  = Ok (title_from_response response (default_title parsed), chunk).
Proof.
  intros Hparse Hllm. unfold get_title_and_content, title_from_response.
  unfold mbind, Result_bind. rewrite Hparse. cbv zeta. rewrite Hllm.
  reflexivity.
Qed.

Lemma get_title_and_content_no_reply `{Models} `{Web} (chunk url e : str)
    (parsed : ParsedUrl) :
  urlparse url = Ok parsed ->
  llm_invoke (title_prompt chunk) = Raise e ->
  get_title_and_content chunk url = Ok (default_title parsed, chunk).
Proof.
  intros Hparse Hllm. unfold get_title_and_content.
  unfold mbind, Result_bind. rewrite Hparse. cbv zeta. by rewrite Hllm.
Qed.

Lemma title_from_response_no_brace `{Web} (response : str) (title : Json) :
  123%N ∉ strip response -> title_from_response response title = title.
Proof.
  intros Hnone. unfold title_from_response. cbv zeta.
  destruct (find_from_none 123 (strip response) 0 Hnone) as [Hfind Hstart].
  change (py "{") with [123%N]. unfold find. unfold str in *.
  rewrite Hstart, Hfind. cbn [Z.leb Z.compare]. by rewrite Hstart.
Qed.

Lemma title_from_response_cut `{Web} (response prose json_str : str)
    (title : Json) :
  strip response = prose ++ json_str ->
  123%N ∉ prose -> startswith (py "{") json_str = true ->
  title_from_response response title
  = if endswith (py "}") json_str
    then match json_loads_title json_str with
         | Ok (Some t) => t
         | _ => title
         end
    else title.
Proof.
  intros Hstrip Hprose Hopen. unfold title_from_response. cbv zeta.
  rewrite Hstrip.
  pose proof (cut_at_first_brace prose json_str Hprose Hopen) as Hcut.
  change [123%N] with (py "{") in Hcut. unfold str in *.
  rewrite Hcut, Hopen. cbn [andb].
  destruct (endswith (py "}") json_str); [|done].
  by destruct (json_loads_title json_str) as [[t|]|].
Qed.

(** X17. For a URL that parses, [get_title_and_content] returns the chunk
    itself as summary, and a title that is decided by the reply of the
    generation service, trimmed and cut at its first opening brace. When
    the call fails, or the trimmed reply holds no opening brace, the title
    is the default one, "content from <netloc>". Otherwise, with [prose]
    the text before the first opening brace and [json_str] the rest, the
    title is the value [json.loads] finds under "title" in [json_str] when
    [json_str] ends with a closing brace, parses and has that key, and the
    default title in every other case. *)
Theorem title_default_or_parsed `{Models} `{Web} (chunk url : str)
    (parsed : ParsedUrl) :
  urlparse url = Ok parsed ->
  exists t,
    get_title_and_content chunk url = Ok (t, chunk) /\
    (forall e, llm_invoke (title_prompt chunk) = Raise e ->
               t = default_title parsed) /\
    (forall response,
       llm_invoke (title_prompt chunk) = Ok response ->
       (123%N ∉ strip response -> t = default_title parsed) /\
       (forall prose json_str,
          strip response = prose ++ json_str ->
          123%N ∉ prose -> startswith (py "{") json_str = true ->
          t = if endswith (py "}") json_str
              then match json_loads_title json_str with
                   | Ok (Some v) => v
                   | _ => default_title parsed
                   end
              else default_title parsed)).
Proof.
  intros Hparse.
  destruct (llm_invoke (title_prompt chunk)) as [response|e] eqn:Hllm.
  - exists (title_from_response response (default_title parsed)).
    split; [by apply get_title_and_content_reply|]. split; [done|].
    intros ? [= <-]. split.
    + apply title_from_response_no_brace.
    + intros prose json_str. apply title_from_response_cut.
  - exists (default_title parsed).
    split; [by eapply get_title_and_content_no_reply|]. split; [done|].
    intros ? [=].
Qed.

Lemma title_default_or_parsed_witness :
  @urlparse demo_web demo_a = Ok {| netloc := py "h"; path := py "/a" |} /\
  exists t,
    @get_title_and_content (demo_models (py "no json")) demo_web
      (py "some text") demo_a = Ok (t, py "some text").
Proof.
  assert (@urlparse demo_web demo_a = Ok {| netloc := py "h"; path := py "/a" |})
    as Hparse by (vm_compute; reflexivity).
  split; [exact Hparse|].
  destruct (@title_default_or_parsed (demo_models (py "no json")) demo_web
              (py "some text") demo_a _ Hparse) as (t & Hrun & _).
  exists t. exact Hrun.
Defined.

(** X18. Text before the first opening brace of the reply is skipped: for a
    URL that parses, a reply made of some prose without a brace followed by
    a JSON object with a title gives that title. *)
Theorem title_skips_leading_prose `{Models} `{Web}
    (chunk url response prose json_str : str) (t : Json)
    (parsed : ParsedUrl) :
  urlparse url = Ok parsed ->
  llm_invoke (title_prompt chunk) = Ok response ->
  strip response = prose ++ json_str ->
  123%N ∉ prose ->
  startswith (py "{") json_str = true ->
  endswith (py "}") json_str = true ->
  json_loads_title json_str = Ok (Some t) ->
  get_title_and_content chunk url = Ok (t, chunk).
Proof.
  intros Hparse Hllm Hstrip Hprose Hopen Hclose Hjson.
  rewrite (get_title_and_content_reply chunk url response parsed Hparse Hllm).
  rewrite (title_from_response_cut response prose json_str _ Hstrip Hprose Hopen).
  by rewrite Hclose, Hjson.
Qed.

Lemma title_skips_leading_prose_witness :
  let models := demo_models (py "Here is the title: {x} ") in
  let web := demo_web_json (py "{x}") (JStr (py "Diabetes care")) in
  @llm_invoke models (title_prompt (py "some text"))
  = Ok (py "Here is the title: {x} ") /\
  @get_title_and_content models web (py "some text") demo_a
  = Ok (JStr (py "Diabetes care"), py "some text").
Proof.
  intros models web. split; [reflexivity|].
  apply (@title_skips_leading_prose models web (py "some text") demo_a
           (py "Here is the title: {x} ") (py "Here is the title: ")
           (py "{x}") (JStr (py "Diabetes care"))
           {| netloc := py "h"; path := py "/a" |}).
  - vm_compute. reflexivity.
  - reflexivity.
  - vm_compute. reflexivity.
  - apply (bool_decide_eq_false_1 (123%N ∈ py "Here is the title: ")).
    vm_compute. reflexivity.
  - vm_compute. reflexivity.
  - vm_compute. reflexivity.
  - vm_compute. reflexivity.
Defined.

(** X19. Enrichment degrades instead of failing: for a URL that parses, when
    both the generation and the embedding service fail, the chunk still
    gets the default title, its own text as summary and content, and a
    vector of 1024 zeros. *)
Theorem process_chunk_degrades `{Models} `{Web} (text page_url : str)
    (index : nat) (e1 e2 : str) (parsed : ParsedUrl) :
  urlparse page_url = Ok parsed ->
  llm_invoke (title_prompt text) = Raise e1 ->
  aembed_query text = Raise e2 ->
  exists chunk,
    process_chunk text index page_url = Ok chunk /\
    title chunk = default_title parsed /\
    summary chunk = text /\
    content chunk = text /\
    embedding chunk = replicate 1024 float_zero /\
    chunk_id chunk = page_url ++ py "_" ++ str_of_nat index.
Proof.
  intros Hparse Hllm Hembed.
  exists (processed_chunk parsed text index page_url).
  split; [by apply process_chunk_parsed|].
  unfold processed_chunk, get_embedding, chunk_id.
  cbn [title summary content embedding url chunk_number].
  by rewrite Hllm, Hembed.
Qed.

Lemma process_chunk_degrades_witness :
  let models := {| float := Z; float_zero := 0%Z;
                   llm_invoke := fun _ => Raise (py "timeout");
                   aembed_query := fun _ => Raise (py "timeout");
                   nearer := fun _ _ _ => true |} in
  @urlparse demo_web demo_a = Ok {| netloc := py "h"; path := py "/a" |} /\
  @llm_invoke models (title_prompt (py "some text")) = Raise (py "timeout") /\
  @aembed_query models (py "some text") = Raise (py "timeout") /\
  exists chunk,
    @process_chunk models demo_web (py "some text") 0 demo_a = Ok chunk /\
    length (@embedding models chunk) = 1024.
Proof.
  intros models.
  assert (@urlparse demo_web demo_a = Ok {| netloc := py "h"; path := py "/a" |})
    as Hparse by (vm_compute; reflexivity).
  split; [exact Hparse|]. split; [reflexivity|]. split; [reflexivity|].
  destruct (@process_chunk_degrades models demo_web (py "some text") demo_a 0
              (py "timeout") (py "timeout") _ Hparse eq_refl eq_refl)
    as (chunk & Hrun & _ & _ & _ & Hemb & _).
  exists chunk. split; [exact Hrun|]. rewrite Hemb.
  apply length_replicate.
Defined.

(** ** Chunker: where a window is cut *)

Lemma rfind_from_last (p s : str) (i : nat) :
  (0 <= rfind_from i p s)%Z ->
  exists k, rfind_from i p s = Z.of_nat (i + k) /\
    startswith p (drop k s) = true /\
    (forall j, k < j -> j <= length s -> startswith p (drop j s) = false).
Proof.
  revert i. induction s as [|c s IH]; intros i; cbn [rfind_from].
  - destruct (startswith p []) eqn:Hp; [|lia]. intros _. exists 0.
    split; [f_equal; lia|]. split; [done|]. intros j Hj Hlen. simpl in Hlen. lia.
  - destruct (0 <=? rfind_from (S i) p s)%Z eqn:Hr.
    + intros _. apply Z.leb_le in Hr. destruct (IH _ Hr) as (k & E & Hk & Hmax).
      exists (S k). split; [rewrite E; f_equal; lia|]. split; [done|].
      intros [|j] Hj Hlen; [lia|]. apply Hmax; simpl in Hlen; lia.
    + destruct (startswith p (c :: s)) eqn:Hp; [|lia]. intros _. exists 0.
      split; [f_equal; lia|]. split; [done|].
      intros [|j] Hj Hlen; [lia|]. simpl in *.
      apply Z.leb_gt in Hr.
      destruct (startswith p (drop j s)) eqn:Hj'; [|done]. exfalso.
      assert (forall (t : str) n, startswith p t = true ->
                (0 <= rfind_from n p t)%Z) as Hfound.
      { clear. intros [|d t] n Ht; cbn [rfind_from]; [rewrite Ht; lia|].
        destruct (0 <=? rfind_from (S n) p t)%Z eqn:E;
          [by apply Z.leb_le|rewrite Ht; lia]. }
      assert (forall (t : str) m n, startswith p (drop m t) = true ->
                m <= length t -> (0 <= rfind_from n p t)%Z) as Hany.
      { clear -Hfound. intros t m. revert t.
        induction m as [|m IHm]; intros t n Ht Hm; [by apply Hfound|].
        destruct t as [|d t]; [simpl in Hm; lia|]. simpl in Ht, Hm.
        cbn [rfind_from]. specialize (IHm t (S n) Ht ltac:(lia)).
        by rewrite (proj2 (Z.leb_le _ _) IHm). }
      pose proof (Hany s j (S i) Hj' ltac:(lia)). lia.
Qed.

Lemma rfind_from_found (p s : str) (m n : nat) :
  startswith p (drop m s) = true -> m <= length s ->
  (0 <= rfind_from n p s)%Z.
Proof.
  revert s n. induction m as [|m IH]; intros s n Hs Hm.
  - destruct s as [|d s]; cbn [rfind_from]; simpl in Hs; [rewrite Hs; lia|].
    destruct (0 <=? rfind_from (S n) p s)%Z eqn:E;
      [by apply Z.leb_le|rewrite Hs; lia].
  - destruct s as [|d s]; [simpl in Hm; lia|]. simpl in Hs, Hm.
    cbn [rfind_from]. specialize (IH s (S n) Hs ltac:(lia)).
    by rewrite (proj2 (Z.leb_le _ _) IH).
Qed.

Lemma rfind_not_past_30 (p s : str) (chunk_size : nat) :
  past_30_percent (rfind s p) chunk_size = false ->
  no_break_past_30 p s chunk_size.
Proof.
  unfold past_30_percent, rfind. intros Hnot%Z.ltb_ge j Hj Hlen.
  destruct (startswith p (drop j s)) eqn:Hocc; [exfalso|done].
  pose proof (rfind_from_found p s j 0 Hocc Hlen) as Hfound.
  destruct (rfind_from_last p s 0 Hfound) as (k & E & _ & Hmax).
  rewrite E in Hnot. destruct (decide (k < j)) as [Hlt|Hge].
  - by rewrite (Hmax j Hlt Hlen) in Hocc.
  - lia.
Qed.

Lemma rfind_past_30 (p s : str) (chunk_size : nat) :
  past_30_percent (rfind s p) chunk_size = true ->
  exists k, rfind s p = Z.of_nat k /\ last_break_past_30 p s chunk_size k.
Proof.
  unfold past_30_percent, rfind. intros Hpast%Z.ltb_lt.
  destruct (rfind_from_last p s 0) as (k & E & Hk & Hmax); [lia|].
  exists k. split; [by rewrite E|]. rewrite E in Hpast.
  split; [lia|]. by split.
Qed.

Lemma str_in_false (p s : str) (j : nat) :
  str_in p s = false -> j <= length s -> startswith p (drop j s) = false.
Proof.
  revert j. induction s as [|c s IH]; intros j Hin Hj.
  - simpl in Hj. by replace j with 0 by lia.
  - cbn [str_in] in Hin. apply orb_false_iff in Hin as [Hhere Hin].
    destruct j as [|j]; [done|]. simpl in *. apply IH; [done|lia].
Qed.

(** X20. Where a window is cut. When the last paragraph break of the window
    lies past 30% of [chunk_size], the cut is right after it. Otherwise -
    no paragraph break of the window lies past 30% - when the last sentence
    break lies past 30%, the cut is right after its period. Otherwise - no
    paragraph break and no sentence break lies past 30% - the cut is at the
    hard boundary. *)
Theorem chunk_end_at_break (text : str) (chunk_size start : nat) :
  let window := slice text start (start + chunk_size) in
  (exists k, last_break_past_30 (NL ++ NL) window chunk_size k /\
             chunk_end text chunk_size start = start + k + 2) \/
  (no_break_past_30 (NL ++ NL) window chunk_size /\
   exists k, last_break_past_30 (py ". ") window chunk_size k /\
             chunk_end text chunk_size start = start + k + 1) \/
  (no_break_past_30 (NL ++ NL) window chunk_size /\
   no_break_past_30 (py ". ") window chunk_size /\
   chunk_end text chunk_size start = start + chunk_size).
Proof.
  intros window. unfold chunk_end. fold window.
  destruct (past_30_percent (rfind window (NL ++ NL)) chunk_size) eqn:Hp.
  - left. destruct (rfind_past_30 _ _ _ Hp) as (k & E & Hk).
    exists k. split; [done|]. rewrite E. f_equal. lia.
  - right. apply rfind_not_past_30 in Hp.
    destruct (str_in (py ". ") window) eqn:Hin.
    + destruct (past_30_percent (rfind window (py ". ")) chunk_size) eqn:Hs.
      * left. split; [done|]. destruct (rfind_past_30 _ _ _ Hs) as (k & E & Hk).
        exists k. split; [done|]. rewrite E. f_equal. lia.
      * right. split; [done|]. split; [|done]. by apply rfind_not_past_30.
    + right. split; [done|]. split; [|done].
      intros j _ Hj. by apply str_in_false.
Qed.

(** ** Extractor: the shape of the extracted text *)

Lemma trimmed_edges (s : str) :
  strip s = s -> lstrip s = s /\ lstrip (reverse s) = reverse s.
Proof.
  intros E. split.
  - rewrite <- E. unfold strip. apply lstrip_rstrip, lstrip_trimmed.
  - rewrite <- E. unfold strip, rstrip.
    rewrite reverse_involutive. apply lstrip_trimmed.
Qed.

Lemma edges_trimmed (s : str) :
  lstrip s = s -> lstrip (reverse s) = reverse s -> strip s = s.
Proof.
  intros E1 E2. unfold strip, rstrip. by rewrite E1, E2, reverse_involutive.
Qed.

Lemma lstrip_app_l (s t : str) :
  s <> [] -> lstrip s = s -> lstrip (s ++ t) = s ++ t.
Proof.
  destruct s as [|c s]; [done|]. intros _. cbn [lstrip app].
  destruct (isspace c) eqn:Hc; [|done].
  intros E. pose proof (lstrip_length s) as Hlen. rewrite E in Hlen.
  simpl in Hlen. lia.
Qed.

Lemma join_snoc (sep : str) (parts : list str) (last_part : str) :
  parts <> [] ->
  join sep (parts ++ [last_part]) = join sep parts ++ sep ++ last_part.
Proof.
  induction parts as [|p parts IH]; [done|]. intros _.
  destruct parts as [|q parts]; [done|].
  change (join sep ((p :: q :: parts) ++ [last_part]))
    with (p ++ sep ++ join sep ((q :: parts) ++ [last_part])).
  rewrite IH by done. cbn [join]. by rewrite <- !(assoc (++)).
Qed.

Lemma join_trimmed (sep : str) (parts : list str) :
  Forall (fun part => part <> [] /\ strip part = part) parts ->
  strip (join sep parts) = join sep parts.
Proof.
  intros Hparts. destruct parts as [|p parts]; [done|].
  apply edges_trimmed.
  - apply Forall_cons in Hparts as [[Hne Hp] _].
    destruct parts; [by apply trimmed_edges|].
    cbn [join]. apply lstrip_app_l; [done|by apply trimmed_edges].
  - destruct (exists_last (l := p :: parts)) as (front & q & E); [done|].
    rewrite E in *. apply Forall_app in Hparts as [_ Hq].
    apply Forall_singleton in Hq as [Hne Hq].
    destruct front as [|f front]; [by apply trimmed_edges|].
    rewrite join_snoc by done. rewrite !reverse_app.
    rewrite <- (assoc (++)). apply lstrip_app_l.
    + intros Hrev. apply (f_equal reverse) in Hrev.
      by rewrite reverse_involutive in Hrev.
    + by apply trimmed_edges.
Qed.

Lemma extract_text_trimmed_lines `{Web} (html : str) :
  exists lines,
    extract_text_from_html html = join (NL ++ NL) lines /\
    Forall (fun line => line <> [] /\ strip line = line) lines.
Proof.
  unfold extract_text_from_html.
  set (lines := strip <$> filter _ (splitlines (soup_get_text html))).
  exists lines. split; [done|].
  unfold lines. apply Forall_fmap, Forall_forall. intros line Hin.
  apply list_elem_of_filter in Hin as [Hne _]. simpl.
  split; [done|apply strip_trimmed].
Qed.

Lemma linebreak_isspace (c : N) : is_linebreak c = true -> isspace c = true.
Proof.
  unfold is_linebreak, isspace. intros Hc.
  repeat (rewrite ?orb_true_iff, ?andb_true_iff, ?N.leb_le, ?N.eqb_eq in Hc).
  repeat (rewrite ?orb_true_iff, ?andb_true_iff, ?N.leb_le, ?N.eqb_eq).
  lia.
Qed.

Lemma without_space_cons_space (c : N) (s : str) :
  isspace c = true -> without_space (c :: s) = without_space s.
Proof.
  intros Hc. unfold without_space. rewrite (filter_cons_False _ c); [done|].
  rewrite Hc. discriminate.
Qed.

(** Splitting into lines loses line boundaries only, which are
    whitespace. *)
Lemma splitlines_go_without_space (after_cr : bool) (cur s : str) :
  without_space (concat (splitlines_go after_cr cur s))
  = without_space (cur ++ s).
Proof.
  revert after_cr cur. induction s as [|c s IH]; intros after_cr cur.
  - cbn [splitlines_go]. rewrite app_nil_r.
    case_bool_decide as Hcur; [by subst cur|].
    cbn [concat]. by rewrite app_nil_r.
  - cbn [splitlines_go].
    destruct (after_cr && (c =? 10)%N) eqn:Hcr.
    + apply andb_true_iff in Hcr as [_ ->%N.eqb_eq].
      rewrite IH, !without_space_app.
      by rewrite (without_space_cons_space 10).
    + destruct (is_linebreak c) eqn:Hlb.
      * cbn [concat]. rewrite !without_space_app, IH. f_equal.
        rewrite without_space_cons_space; [done|].
        by apply linebreak_isspace.
      * rewrite IH. by rewrite <- (assoc (++)).
Qed.

Lemma without_space_join (sep : str) (parts : list str) :
  all_space sep -> without_space (join sep parts) = without_space (concat parts).
Proof.
  intros Hsep. induction parts as [|part parts IH]; [done|].
  destruct parts as [|part' parts].
  - cbn [join concat]. by rewrite app_nil_r.
  - change (join sep (part :: part' :: parts))
      with (part ++ sep ++ join sep (part' :: parts)).
    change (concat (part :: part' :: parts))
      with (part ++ concat (part' :: parts)).
    rewrite !without_space_app, IH, (without_space_all_space sep) by done.
    done.
Qed.

Lemma without_space_nonblank_lines (lines : list str) :
  without_space
    (concat (strip <$> filter (fun line => strip line ≠ []) lines))
  = without_space (concat lines).
Proof.
  induction lines as [|line lines IH]; [done|].
  destruct (decide (strip line = [])) as [Hblank|Hfull].
  - rewrite filter_cons_False by (intros ?; done).
    cbn [concat]. rewrite without_space_app, IH.
    rewrite (without_space_all_space line); [done|].
    by apply strip_nil_all_space.
  - rewrite filter_cons_True by done. cbn [fmap list_fmap concat].
    by rewrite !without_space_app, without_space_strip, IH.
Qed.

(** X21. The extracted text is the non-blank lines of the page text, each
    trimmed, joined by blank lines: it never begins or ends with
    whitespace, and it holds the characters of the page text that are not
    whitespace, all of them and in their order. *)
Theorem extract_text_trimmed `{Web} (html : str) :
  (exists lines,
     extract_text_from_html html = join (NL ++ NL) lines /\
     Forall (fun line => line <> [] /\ strip line = line) lines) /\
  strip (extract_text_from_html html) = extract_text_from_html html /\
  without_space (extract_text_from_html html)
  = without_space (soup_get_text html).
Proof.
  destruct (extract_text_trimmed_lines html) as (lines & E & Hlines).
  split; [by exists lines|]. split.
  - rewrite E. by apply join_trimmed.
  - unfold extract_text_from_html.
    rewrite without_space_join
      by (repeat constructor).
    rewrite without_space_nonblank_lines. unfold splitlines.
    by rewrite splitlines_go_without_space.
Qed.

(** ** A page that fits in one window *)

Lemma chunk_text_fits (text : str) (chunk_size : nat) :
  0 < length text -> length text <= chunk_size ->
  chunk_text text chunk_size = Some [strip text].
Proof.
  intros Hpos Hfit. unfold chunk_text, chunk_text_fuel. cbn [chunk_loop].
  rewrite (proj2 (Nat.ltb_lt _ _) Hpos).
  by rewrite (proj2 (Nat.leb_le _ _)) by (simpl; lia).
Qed.

(** X22. A page that the crawl indexes (an extracted text longer than 500
    characters) and whose text has at most 1500 characters is one chunk:
    for a URL that parses, [process_and_store_document] returns 1 and asks
    the store for a single [add], at the id [URL_0], with the whole
    extracted text, unchanged, as the document. When the store accepts that
    write and the id was free or [add] overwrites, the record is found at
    [URL_0] with that document. *)
Theorem page_in_one_window `{Store} `{Web} (collection : Collection)
    (page_url html : str) (parsed : ParsedUrl) :
  let text := extract_text_from_html html in
  let chunk := processed_chunk parsed text 0 page_url in
  500 < length text -> length text <= default_chunk_size ->
  urlparse page_url = Ok parsed ->
  process_and_store_document collection page_url text
  = Some (Ok (insert_chunk collection chunk, 1)) /\
  content chunk = text /\
  chunk_id chunk = page_url ++ py "_" ++ str_of_nat 0 /\
  forall record,
    add_accepted collection chunk record ->
    collection !! (page_url ++ py "_" ++ str_of_nat 0) = None \/
    add_existing = Overwrite ->
    insert_chunk collection chunk !! (page_url ++ py "_" ++ str_of_nat 0)
    = Some record /\
    rec_document record = text.
Proof.
  intros text chunk Hlong Hfit Hparse.
  assert (strip text = text) as Htrim.
  { destruct (extract_text_trimmed_lines html) as (lines & E & Hlines).
    unfold text. rewrite E. by apply join_trimmed. }
  split; [|split; [done|split; [done|]]].
  - destruct (process_and_store_document_parsed collection page_url text
                parsed Hparse) as (chunks & Hchunks & ->).
    rewrite (chunk_text_fits text default_chunk_size) in Hchunks by lia.
    injection Hchunks as <-. by rewrite Htrim.
  - intros record Hacc Hfree. split.
    + by apply (insert_chunk_lookup_id collection chunk record Hacc).
    + destruct Hacc as [_ Hrec]. unfold chunk_record in Hrec.
      destruct (stored_metadata _); [|done]. by injection Hrec as <-.
Qed.

Lemma page_in_one_window_witness :
  let text := @extract_text_from_html demo_web demo_a in
  500 < length text /\ length text <= default_chunk_size /\
  @urlparse demo_web demo_a = Ok {| netloc := py "h"; path := py "/a" |} /\
  exists collection',
    @process_and_store_document (demo_models []) (demo_store _ KeepExisting)
      demo_web ∅ demo_a text
    = Some (Ok (collection', 1)).
Proof.
  intros text.
  assert (500 < length text) as Hlong by (vm_compute; lia).
  assert (length text <= default_chunk_size) as Hfit
    by (apply Nat.leb_le; vm_compute; reflexivity).
  assert (@urlparse demo_web demo_a = Ok {| netloc := py "h"; path := py "/a" |})
    as Hparse by (vm_compute; reflexivity).
  split; [exact Hlong|]. split; [exact Hfit|]. split; [exact Hparse|].
  eexists.
  exact (proj1 (@page_in_one_window (demo_models [])
                  (demo_store _ KeepExisting) demo_web ∅ demo_a demo_a
                  _ Hlong Hfit Hparse)).
Defined.

(** ** From ingestion to retrieval *)

Lemma collection_query_single `{Store} (id : str) (record : StoreRecord)
    (query_embedding : list float) (k : nat) :
  query_error (<[ id := record ]> ∅) [query_embedding] (S k) = None ->
  collection_query (<[ id := record ]> ∅) [query_embedding] (S k)
  = Ok {| documents := [[rec_document record]];
          metadatas := [[rec_metadata record]] |}.
Proof.
  intros Herr. unfold collection_query.
  rewrite Herr, insert_empty, map_to_list_singleton.
  cbn. by rewrite take_nil.
Qed.

(** The record of a chunk as [process_chunk] builds it, when its title is a
    value the store holds: the keys the query reads are there. *)
Lemma crawl_chunk_record `{Models} (u s c v1 v3 v4 : str) (t : Json)
    (tv : Value) (i : nat) (n : Z) (e : list float) (d1 d2 d3 d4 : string) :
  stored_value t = Some tv ->
  let chunk :=
    {| url := u; chunk_number := i; title := t; summary := s; content := c;
       metadata :=
         <[ py "source" := JStr v1 ]>
         (<[ py "chunk_size" := JInt n ]>
         (<[ py "crawled_at" := JStr v3 ]>
         (<[ py "url_path" := JStr v4 ]> ∅)));
       embedding := e |} in
  exists m,
    chunk_record chunk
    = Some {| rec_document := c; rec_embedding := e; rec_metadata := m |} /\
    dict_get m "title" d1 = tv /\
    dict_get m "title" d2 = tv /\
    dict_get m "url" d3 = VStr u /\
    dict_get m "summary" d4 = VStr s /\
    m !! py "url" = Some (VStr u) /\
    m !! py "source" = Some (VStr v1) /\
    m !! py "crawled_at" = Some (VStr v3).
Proof.
  intros Ht chunk. exists (omap stored_value (chunk_record_metadata chunk)).
  assert (bool_decide (map_Forall (fun (_ : str) v => v <> JNull)
                         (chunk_record_metadata chunk)) = true) as Hok.
  { destruct t; [discriminate Ht| |]; vm_compute; reflexivity. }
  split.
  { unfold chunk_record, stored_metadata. rewrite Hok. reflexivity. }
  destruct t as [|ts|tn]; [discriminate Ht| |];
    injection Ht as <-; split_and!; vm_compute; reflexivity.
Qed.

(** X23. A chunk written by the crawl comes back from a query. Take a chunk
    as [process_chunk] builds it for a URL that parses, with a title the
    store can hold, and let the store accept its write into an empty
    collection. A query whose embedding and retrieval calls return, and
    which asks for at least one record, then returns one source, carrying
    the title, the URL and the summary (the chunk text) the chunk was
    written with; the prompt holds the line "- title: text" as its context,
    and the answer is the post-processed reply. *)
Theorem ingest_then_query `{Store} `{Web} (text page_url query : str)
    (index k : nat) (chat_history : list ChatTurn)
    (query_embedding : list float) (answer_raw : str) (parsed : ParsedUrl)
    (title_value : Value) :
  let chunk := processed_chunk parsed text index page_url in
  let context_line :=
    py "- " ++ value_to_str title_value ++ py ": " ++ text in
  urlparse page_url = Ok parsed ->
  stored_value (title chunk) = Some title_value ->
  add_error ∅ [content chunk] [embedding chunk] [chunk_record_metadata chunk]
    [chunk_id chunk] = None ->
  aembed_query query = Ok query_embedding ->
  query_error (insert_chunk ∅ chunk) [query_embedding] (S k) = None ->
  llm_invoke (build_prompt context_line query chat_history) = Ok answer_raw ->
  process_chunk text index page_url = Ok chunk /\
  query_rag_system (insert_chunk ∅ chunk) query chat_history (S k)
  = ({| answer := postprocess_answer answer_raw [context_line];
        sources := [{| source_title := title_value;
                       source_url := VStr page_url;
                       source_summary := VStr text |}] |},
     [EmbedQuery query; StoreQuery (S k);
      Generate (build_prompt context_line query chat_history)]).
Proof.
  intros chunk context_line Hparse Htitle Hadd Hembed Hquery Hllm.
  split; [by apply process_chunk_parsed|].
  destruct (crawl_chunk_record page_url text text
              (netloc parsed) (utc_now_isoformat page_url index)
              (path parsed) (title chunk) title_value index
              (Z.of_nat (length text)) (get_embedding text)
              "ข้อมูลอ้างอิง" "Unknown title" "#" "No summary available" Htitle)
    as (m & Hrec & E1 & E2 & E3 & E4 & _).
  change (chunk_record chunk
          = Some {| rec_document := text; rec_embedding := get_embedding text;
                    rec_metadata := m |}) in Hrec.
  assert (insert_chunk ∅ chunk
          = <[ chunk_id chunk :=
                 {| rec_document := text; rec_embedding := get_embedding text;
                    rec_metadata := m |} ]> ∅) as Hins.
  { rewrite (insert_chunk_accepted ∅ chunk _ (conj Hadd Hrec)).
    apply write_record_fresh, lookup_empty. }
  rewrite Hins in Hquery |- *.
  unfold query_rag_system, query_rag_try, mbind, M_bind, call.
  rewrite Hembed, (collection_query_single _ _ _ _ Hquery).
  unfold collect_context, found_documents.
  cbn [documents metadatas rec_document rec_metadata].
  rewrite bool_decide_eq_true_2 by done.
  unfold mret, M_ret. cbn [zip zip_with fmap list_fmap fst snd].
  rewrite E1, E2, E3, E4.
  cbn [join]. fold context_line. rewrite Hllm. reflexivity.
Qed.

Lemma ingest_then_query_witness :
  let models := demo_models (py "กินผักให้มาก") in
  let store := demo_store models KeepExisting in
  let parsed := {| netloc := py "h"; path := py "/a" |} in
  let chunk := @processed_chunk models demo_web parsed (py "some text") 0 demo_a in
  @urlparse demo_web demo_a = Ok parsed /\
  @aembed_query models (py "q") = Ok [1%Z; 2%Z] /\
  sources (@query_rag_system models store (@insert_chunk models store ∅ chunk)
             (py "q") [] 1).1
  = [{| source_title := VStr (py "เนื้อหาจาก h");
        source_url := VStr demo_a;
        source_summary := VStr (py "some text") |}].
Proof.
  intros models store parsed chunk.
  assert (@urlparse demo_web demo_a = Ok parsed) as Hparse
    by (vm_compute; reflexivity).
  assert (stored_value (@title models chunk) = Some (VStr (py "เนื้อหาจาก h")))
    as Htitle by (vm_compute; reflexivity).
  split; [exact Hparse|]. split; [reflexivity|].
  exact (f_equal (fun out : RagAnswer * list Event => sources out.1)
           (proj2 (@ingest_then_query models store demo_web (py "some text")
                     demo_a (py "q") 0 0 [] [1%Z; 2%Z] (py "กินผักให้มาก")
                     parsed (VStr (py "เนื้อหาจาก h"))
                     Hparse Htitle eq_refl eq_refl eq_refl eq_refl))).
Defined.

(** ** Collection statistics *)

Lemma str_lt_irrefl (s : str) : str_lt s s = false.
Proof.
  induction s as [|a s IH]; [done|]. simpl.
  rewrite N.ltb_irrefl, N.eqb_refl, IH. done.
Qed.

Lemma str_lt_trans (s t u : str) :
  str_lt s t = true -> str_lt t u = true -> str_lt s u = true.
Proof.
  revert t u. induction s as [|a s IH]; intros [|b t] [|c u]; simpl; try done.
  intros H1 H2.
  apply orb_true_iff in H1 as [H1|H1]; apply orb_true_iff in H2 as [H2|H2];
    apply orb_true_iff.
  - left. apply N.ltb_lt in H1, H2. apply N.ltb_lt. lia.
  - apply andb_true_iff in H2 as [H2 _]. apply N.eqb_eq in H2 as <-.
    by left.
  - apply andb_true_iff in H1 as [H1 _]. apply N.eqb_eq in H1 as ->.
    by left.
  - apply andb_true_iff in H1 as [H1 H1'], H2 as [H2 H2'].
    apply N.eqb_eq in H1 as ->. right. rewrite H2. simpl. by eapply IH.
Qed.

Lemma value_gt_irrefl (v : Value) : value_gt v v = Ok false.
Proof.
  destruct v as [s|n]; simpl; [by rewrite str_lt_irrefl|].
  by rewrite Z.ltb_irrefl.
Qed.

Lemma value_gt_step (v item current : Value) :
  value_gt item current = Ok true -> value_gt v current = Ok false ->
  value_gt v item = Ok false.
Proof.
  destruct v as [s|n], item as [t|m], current as [u|k]; simpl; try done.
  - intros [= H1] [= H2]. f_equal.
    destruct (str_lt t s) eqn:E; [|done].
    by rewrite (str_lt_trans u t s H1 E) in H2.
  - intros [= H1] [= H2]. f_equal.
    apply Z.ltb_lt in H1. apply Z.ltb_ge in H2. apply Z.ltb_ge. lia.
Qed.

Lemma value_max_from_ge (current : Value) (items : list Value) (m v : Value) :
  value_max_from current items = Ok m ->
  value_gt v current = Ok false -> value_gt v m = Ok false.
Proof.
  revert current. induction items as [|item items IH]; intros current Hmax Hv.
  { simpl in Hmax. by injection Hmax as <-. }
  simpl in Hmax. destruct (value_gt item current) as [[|]|] eqn:Hgt; [| |done].
  - apply (IH item); [done|]. by eapply value_gt_step.
  - by apply (IH current).
Qed.

Lemma value_max_from_spec (current : Value) (items : list Value) (m : Value) :
  value_max_from current items = Ok m ->
  m ∈ current :: items /\
  (forall v, v ∈ current :: items -> value_gt v m = Ok false).
Proof.
  revert current. induction items as [|item items IH]; intros current Hmax.
  { simpl in Hmax. injection Hmax as <-. split; [by left|].
    intros v Hv. apply list_elem_of_singleton in Hv as ->.
    apply value_gt_irrefl. }
  pose proof Hmax as Hmax'.
  simpl in Hmax. destruct (value_gt item current) as [[|]|] eqn:Hgt; [| |done].
  - destruct (IH item Hmax) as [Hin Hall]. split.
    { right. exact Hin. }
    intros v Hv. apply elem_of_cons in Hv as [->|Hv]; [|by apply Hall].
    apply (value_max_from_ge _ _ _ _ Hmax'). apply value_gt_irrefl.
  - destruct (IH current Hmax) as [Hin Hall]. split.
    { apply elem_of_cons in Hin as [->|Hin]; [by left|]. by right; right. }
    intros v Hv. apply elem_of_cons in Hv as [->|Hv].
    { apply Hall. by left. }
    apply elem_of_cons in Hv as [->|Hv]; [|by apply Hall; right].
    by apply (value_max_from_ge _ _ _ _ Hmax).
Qed.

Lemma get_db_stats_fields `{Store} `{LocalClock} (collection : Collection)
    (stats : DbStats) :
  get_db_stats collection = Some stats ->
  exists urls domains latest,
    mapM (fun meta : gmap str Value => meta !! py "url")
      (rec_metadata <$> (map_to_list collection).*2) = Some urls /\
    mapM (fun meta : gmap str Value => meta !! py "source")
      (rec_metadata <$> (map_to_list collection).*2) = Some domains /\
    stats_urls stats = remove_dups urls /\
    stats_domains stats = remove_dups domains /\
    stats_doc_count stats = length (map_to_list collection) /\
    map_to_list collection <> [] /\
    latest ∈ crawled_at_of <$> (rec_metadata <$> (map_to_list collection).*2) /\
    (forall v,
       v ∈ crawled_at_of <$> (rec_metadata <$> (map_to_list collection).*2) ->
       value_gt v latest = Ok false) /\
    (if truthy latest
     then exists s formatted,
            latest = VStr s /\
            format_local_time (replace s (py "Z") (py "+00:00")) = Ok formatted /\
            stats_last_updated stats = VStr formatted
     else stats_last_updated stats = latest).
Proof.
  unfold get_db_stats, collection_get.
  destruct (get_error collection); [done|].
  destruct (rec_metadata <$> (map_to_list collection).*2)
    as [|meta0 metas] eqn:Hmetas; [done|].
  destruct (mapM _ (meta0 :: metas)) as [urls|]; [|done].
  destruct (mapM _ (meta0 :: metas)) as [domains|]; [|done].
  intros Hstats.
  assert (map_to_list collection <> []) as Hne.
  { intros E. by rewrite E in Hmetas. }
  destruct (value_max_from _ _) as [latest|] eqn:Hmax; [|done].
  apply value_max_from_spec in Hmax as [Hin Hall].
  exists urls, domains, latest.
  destruct (truthy latest).
  - destruct latest as [s|]; [|done].
    destruct (format_local_time _) as [formatted|] eqn:Hformat; [|done].
    injection Hstats as <-. rewrite length_fmap. split_and!; try done.
    by exists s, formatted.
  - injection Hstats as <-. by rewrite length_fmap.
Qed.

Lemma metadata_of_records (A : Type) `{Models} (collection : Collection)
    (f : gmap str Value -> A) (x : A) :
  x ∈ f <$> (rec_metadata <$> (map_to_list collection).*2) <->
  exists id record, collection !! id = Some record /\ f (rec_metadata record) = x.
Proof.
  rewrite <- !list_fmap_compose. rewrite list_elem_of_fmap. split.
  - intros ([id record] & -> & Hin). exists id, record.
    split; [by apply elem_of_map_to_list|done].
  - intros (id & record & Hrec & <-). exists (id, record).
    split; [done|]. by apply elem_of_map_to_list.
Qed.

Lemma mapM_lookup_elem (key : str) (metas : list (gmap str Value))
    (values : list Value) (v : Value) :
  mapM (fun meta : gmap str Value => meta !! key) metas = Some values ->
  v ∈ values <-> Some v ∈ (fun meta : gmap str Value => meta !! key) <$> metas.
Proof.
  intros Hmap. apply mapM_Some in Hmap.
  induction Hmap as [|meta w metas values Hget _ IH].
  { simpl. split; intros Hin; by apply not_elem_of_nil in Hin. }
  rewrite fmap_cons, !elem_of_cons, IH. simpl. rewrite Hget.
  split; (intros [E|?]; [left|by right]); congruence.
Qed.

Lemma get_db_stats_spec `{Store} `{LocalClock} (collection : Collection)
    (stats : DbStats) :
  get_db_stats collection = Some stats ->
  stats_doc_count stats = size collection /\
  0 < size collection /\
  NoDup (stats_urls stats) /\ NoDup (stats_domains stats) /\
  (forall v, v ∈ stats_urls stats <->
     exists id record, collection !! id = Some record /\
                       rec_metadata record !! py "url" = Some v) /\
  (forall v, v ∈ stats_domains stats <->
     exists id record, collection !! id = Some record /\
                       rec_metadata record !! py "source" = Some v).
Proof.
  intros Hstats.
  destruct (get_db_stats_fields collection stats Hstats)
    as (urls & domains & latest & Hurls & Hdomains & -> & -> & -> & Hne & _).
  split_and!.
  - by rewrite length_map_to_list.
  - rewrite <- length_map_to_list. destruct (map_to_list collection); [done|].
    simpl. lia.
  - apply NoDup_remove_dups.
  - apply NoDup_remove_dups.
  - intros v. rewrite elem_of_remove_dups, (mapM_lookup_elem _ _ _ _ Hurls).
    apply metadata_of_records.
  - intros v. rewrite elem_of_remove_dups, (mapM_lookup_elem _ _ _ _ Hdomains).
    apply metadata_of_records.
Qed.

(** X24. When [get_db_stats] returns statistics, the collection is not empty,
    [doc_count] is its number of records, and [urls] (and likewise
    [domains]) holds, once each, exactly the ["url"] (the ["source"]) values
    of its records. *)
Theorem get_db_stats_sound `{Store} `{LocalClock} (collection : Collection)
    (stats : DbStats) :
  get_db_stats collection = Some stats ->
  stats_doc_count stats = size collection /\
  0 < size collection /\
  NoDup (stats_urls stats) /\ NoDup (stats_domains stats) /\
  (forall v, v ∈ stats_urls stats <->
     exists id record, collection !! id = Some record /\
                       rec_metadata record !! py "url" = Some v) /\
  (forall v, v ∈ stats_domains stats <->
     exists id record, collection !! id = Some record /\
                       rec_metadata record !! py "source" = Some v).
Proof. apply get_db_stats_spec. Qed.

(** X25. [get_db_stats] gives nothing for an empty collection, and nothing as
    soon as one record lacks the ["url"] or the ["source"] key: the key
    error is swallowed. *)
Theorem get_db_stats_none `{Store} `{LocalClock} (collection : Collection) :
  collection = ∅ \/
  (exists id record,
     collection !! id = Some record /\
     (rec_metadata record !! py "url" = None \/
      rec_metadata record !! py "source" = None)) ->
  get_db_stats collection = None.
Proof.
  intros Hbad. destruct (get_db_stats collection) as [stats|] eqn:Hstats;
    [exfalso|done].
  destruct (get_db_stats_fields collection stats Hstats)
    as (urls & domains & latest & Hurls & Hdomains & _ & _ & _ & Hne & _).
  destruct Hbad as [->|(id & record & Hrec & Hmissing)].
  - by rewrite map_to_list_empty in Hne.
  - assert (is_Some (mapM (fun meta : gmap str Value => meta !! py "url")
                       (rec_metadata <$> (map_to_list collection).*2))) as Hsome1
      by by rewrite Hurls.
    assert (is_Some (mapM (fun meta : gmap str Value => meta !! py "source")
                       (rec_metadata <$> (map_to_list collection).*2))) as Hsome2
      by by rewrite Hdomains.
    apply mapM_is_Some in Hsome1, Hsome2. rewrite Forall_forall in Hsome1, Hsome2.
    assert (rec_metadata record
            ∈ (fun meta => meta)
                <$> (rec_metadata <$> (map_to_list collection).*2)) as Hin.
    { apply metadata_of_records. by exists id, record. }
    rewrite list_fmap_id in Hin.
    destruct (Hsome1 _ Hin) as [? E1]. destruct (Hsome2 _ Hin) as [? E2].
    simpl in E1, E2. destruct Hmissing; congruence.
Qed.

(** X26. The date [get_db_stats] reports comes from the greatest ["crawled_at"]
    value of the collection (a record without one counts as the empty
    string): some record carries it, no record carries a greater one, and
    the statistics hold it formatted by the local clock, or unchanged when
    it is empty. *)
Theorem get_db_stats_last_updated `{Store} `{LocalClock}
    (collection : Collection) (stats : DbStats) :
  get_db_stats collection = Some stats ->
  exists latest,
    (exists id record, collection !! id = Some record /\
                       crawled_at_of (rec_metadata record) = latest) /\
    (forall id record,
       collection !! id = Some record ->
       value_gt (crawled_at_of (rec_metadata record)) latest = Ok false) /\
    (truthy latest = false -> stats_last_updated stats = latest) /\
    (truthy latest = true ->
     exists s formatted,
       latest = VStr s /\
       format_local_time (replace s (py "Z") (py "+00:00")) = Ok formatted /\
       stats_last_updated stats = VStr formatted).
Proof.
  intros Hstats.
  destruct (get_db_stats_fields collection stats Hstats)
    as (urls & domains & latest & _ & _ & _ & _ & _ & _ & Hin & Hall & Hlast).
  exists latest. split_and!.
  - by apply metadata_of_records.
  - intros id record Hrec. apply Hall, metadata_of_records.
    by exists id, record.
  - intros E. by rewrite E in Hlast.
  - intros E. by rewrite E in Hlast.
Qed.

Lemma get_db_stats_sound_witness :
  let store := demo_store (demo_models []) KeepExisting in
  @get_db_stats _ store demo_clock demo_stored_page = Some demo_stats /\
  stats_doc_count demo_stats = size demo_stored_page.
Proof.
  intros store.
  assert (@get_db_stats _ store demo_clock demo_stored_page
          = Some demo_stats) as E by (vm_compute; reflexivity).
  split; [exact E|].
  exact (proj1 (@get_db_stats_sound _ store demo_clock
                  demo_stored_page demo_stats E)).
Defined.

Lemma get_db_stats_none_witness :
  let store := demo_store (demo_models []) KeepExisting in
  demo_collection_of (demo_models []) !! (py "https://example.com/forum_0")
  <> None /\
  @get_db_stats _ store demo_clock (demo_collection_of (demo_models []))
  = None.
Proof.
  intros store. split; [by vm_compute|].
  apply (@get_db_stats_none _ store demo_clock). right.
  exists (py "https://example.com/forum_0").
  eexists. split; [vm_compute; reflexivity|]. right. vm_compute. reflexivity.
Defined.

Lemma get_db_stats_last_updated_witness :
  let store := demo_store (demo_models []) KeepExisting in
  @get_db_stats _ store demo_clock demo_stored_page = Some demo_stats /\
  exists latest,
    truthy latest = true /\
    exists id record, demo_stored_page !! id = Some record /\
                      crawled_at_of (rec_metadata record) = latest.
Proof.
  intros store.
  assert (@get_db_stats _ store demo_clock demo_stored_page
          = Some demo_stats) as E by (vm_compute; reflexivity).
  split; [exact E|].
  destruct (@get_db_stats_last_updated _ store demo_clock
              demo_stored_page demo_stats E)
    as (latest & Hrec & Hmax & Hempty & Hformat).
  exists latest. split; [|exact Hrec].
  destruct (truthy latest) eqn:Ht; [done|].
  specialize (Hempty eq_refl). subst latest. by vm_compute in Ht.
Defined.

(** ** Storing a page, then asking for the statistics *)

Lemma NoDup_constant {A : Type} (l : list A) (x : A) :
  NoDup l -> x ∈ l -> (forall y, y ∈ l -> y = x) -> l = [x].
Proof.
  intros Hnd Hin Hall. destruct l as [|a [|b l]].
  - by apply not_elem_of_nil in Hin.
  - by rewrite (Hall a) by by left.
  - exfalso. apply NoDup_cons in Hnd as [Hfresh _]. apply Hfresh.
    rewrite (Hall a), (Hall b); [by left|by right; left|by left].
Qed.

(** A record the store holds for a chunk of [process_chunk] carries the URL
    of the page and its network location. *)
Lemma processed_chunk_record `{Models} `{Web} (parsed : ParsedUrl)
    (chunk page_url : str) (i : nat) (record : StoreRecord) :
  chunk_record (processed_chunk parsed chunk i page_url) = Some record ->
  rec_metadata record !! py "url" = Some (VStr page_url) /\
  rec_metadata record !! py "source" = Some (VStr (netloc parsed)).
Proof.
  unfold chunk_record, stored_metadata. case_bool_decide; [|done].
  intros [= <-]. cbn [rec_metadata]. rewrite !lookup_omap.
  split; by vm_compute.
Qed.

(** X27. The statistics of a collection that holds one stored page. When a
    page whose URL parses was written into an empty collection and
    [get_db_stats] answers, [doc_count] is the number of records the store
    holds, which is at most the number of chunks of the page and equal to
    it when every chunk has its record; [urls] is the page's URL alone and
    [domains] its network location alone. *)
Theorem stats_after_storing_page `{Store} `{Web} `{LocalClock}
    (page_url text : str) (parsed : ParsedUrl) (collection' : Collection)
    (n : nat) (stats : DbStats) :
  urlparse page_url = Ok parsed ->
  process_and_store_document ∅ page_url text = Some (Ok (collection', n)) ->
  get_db_stats collection' = Some stats ->
  chunk_text text default_chunk_size <> None /\
  (forall chunks, chunk_text text default_chunk_size = Some chunks ->
                  n = length chunks) /\
  stats_doc_count stats = size collection' /\
  stats_doc_count stats <= n /\
  ((forall i, i < n ->
      is_Some (collection' !! (page_url ++ py "_" ++ str_of_nat i))) ->
   stats_doc_count stats = n) /\
  stats_urls stats = [VStr page_url] /\
  stats_domains stats = [VStr (netloc parsed)].
Proof.
  intros Hparse Hstore Hstats.
  destruct (process_and_store_document_parsed ∅ page_url text parsed Hparse)
    as (chunks & Hchunks & Hrun).
  rewrite Hrun in Hstore. injection Hstore as <- <-.
  set (processed :=
         imap (fun i chunk => processed_chunk parsed chunk i page_url) chunks)
    in *.
  destruct (processed_chunks_ids parsed page_url chunks) as [Hnd Hids].
  fold processed in Hnd, Hids.
  destruct (get_db_stats_spec _ _ Hstats)
    as (Hcount & Hpos & Hnd1 & Hnd2 & Hurls & Hdomains).
  assert (forall id record,
            foldl insert_chunk (∅ : Collection) processed !! id = Some record ->
            exists pc, pc ∈ processed /\ id = chunk_id pc /\
                       chunk_record pc = Some record) as Horigin.
  { intros id record Hrec.
    destruct (insert_chunks_lookup_cases ∅ processed id)
      as [Hsame|(pc & record' & Hin & Hid & Hpc & Hget)].
    - by rewrite Hsame, lookup_empty in Hrec.
    - exists pc. rewrite Hget in Hrec. by injection Hrec as <-. }
  assert (forall id record,
            foldl insert_chunk (∅ : Collection) processed !! id = Some record ->
            rec_metadata record !! py "url" = Some (VStr page_url) /\
            rec_metadata record !! py "source"
            = Some (VStr (netloc parsed))) as Hmeta.
  { intros id record Hrec.
    destruct (Horigin id record Hrec) as (pc & Hin & _ & Hpc).
    apply list_elem_of_lookup in Hin as [i Hi].
    unfold processed in Hi. rewrite list_lookup_imap in Hi.
    destruct (chunks !! i) as [chunk|]; [|done]. injection Hi as <-.
    by eapply processed_chunk_record. }
  assert (dom (foldl insert_chunk (∅ : Collection) processed)
          ⊆ list_to_set (C := gset str) (chunk_id <$> processed)) as Hdom.
  { intros id [record Hrec]%elem_of_dom.
    destruct (Horigin id record Hrec) as (pc & Hin & -> & _).
    apply elem_of_list_to_set, list_elem_of_fmap. by exists pc. }
  assert (size (list_to_set (C := gset str) (chunk_id <$> processed))
          = length chunks) as Hids_size.
  { rewrite size_list_to_set by done.
    unfold processed. by rewrite length_fmap, length_imap. }
  assert (size (foldl insert_chunk (∅ : Collection) processed)
          <= length chunks) as Hle.
  { rewrite <- Hids_size, <- size_dom. by apply subseteq_size. }
  assert (exists id record,
            foldl insert_chunk (∅ : Collection) processed !! id = Some record)
    as (id0 & record0 & Hrec0).
  { destruct (map_choose (foldl insert_chunk (∅ : Collection) processed))
      as (id0 & record0 & Hrec0); [|by exists id0, record0].
    intros E. rewrite E, map_size_empty in Hpos. lia. }
  split_and!.
  - by rewrite Hchunks.
  - intros ? Heq. rewrite Hchunks in Heq. by injection Heq as <-.
  - done.
  - by rewrite Hcount.
  - intros Hall. rewrite Hcount. apply Nat.le_antisymm; [done|].
    rewrite <- Hids_size, <- size_dom. apply subseteq_size.
    intros id Hid. apply elem_of_list_to_set in Hid.
    destruct (Hids id Hid) as (i & Hlt & ->). apply elem_of_dom.
    by apply Hall.
  - apply NoDup_constant; [done| |].
    + apply Hurls. exists id0, record0. split; [done|].
      by apply (Hmeta id0).
    + intros v Hv. apply Hurls in Hv as (id & record & Hrec & Hget).
      destruct (Hmeta id record Hrec) as [E _]. congruence.
  - apply NoDup_constant; [done| |].
    + apply Hdomains. exists id0, record0. split; [done|].
      by apply (Hmeta id0).
    + intros v Hv. apply Hdomains in Hv as (id & record & Hrec & Hget).
      destruct (Hmeta id record Hrec) as [_ E]. congruence.
Qed.

Lemma stats_after_storing_page_witness :
  let store := demo_store (demo_models []) KeepExisting in
  @urlparse demo_web demo_a = Ok {| netloc := py "h"; path := py "/a" |} /\
  @process_and_store_document _ store demo_web ∅ demo_a (py "some text")
  = Some (Ok (demo_stored_page, 1)) /\
  @get_db_stats _ store demo_clock demo_stored_page = Some demo_stats /\
  stats_urls demo_stats = [VStr demo_a].
Proof.
  intros store.
  assert (@urlparse demo_web demo_a = Ok {| netloc := py "h"; path := py "/a" |})
    as E0 by (vm_compute; reflexivity).
  assert (@process_and_store_document _ store demo_web ∅ demo_a
            (py "some text") = Some (Ok (demo_stored_page, 1))) as E1
    by (vm_compute; reflexivity).
  assert (@get_db_stats _ store demo_clock demo_stored_page
          = Some demo_stats) as E2 by (vm_compute; reflexivity).
  split; [exact E0|]. split; [exact E1|]. split; [exact E2|].
  destruct (@stats_after_storing_page _ store demo_web demo_clock
              demo_a (py "some text") _ demo_stored_page 1 demo_stats E0 E1 E2)
    as (_ & _ & _ & _ & _ & Hurls & _).
  exact Hurls.
Defined.
